(** * The speculative merger of zuul (zuul/merger/merger.py)

    A shallow embedding of [zuul.merger.merger]: the helper
    [reset_repo_to_head], the classes [ZuulReference], [Repo] and [Merger].

    The Python code drives GitPython and the [os] module.  Those calls are
    not part of the program: they are kept abstract as a type of external
    calls ([Call]) answered by a back end ([GitBackend]).  Every Python
    statement that reaches the library becomes one [call]; the model keeps
    the list of calls it made and the records it logged, so that statements
    such as "no merge was attempted" can be read off a run.

    The maintenance methods of [Repo] and the constructor of [Merger] make
    library calls of their own; they are embedded over the same state, with
    a second list for those calls ([XCall], [MX]).

    Python exceptions are modelled by an outcome type: a computation ends
    with [Ret v] or [Raise e], and the state reached so far is kept in both
    cases.  [try/except] and [try/finally] are combinators on such
    computations. *)

From stdpp Require Import base option list strings gmap.
From Stdlib Require Import ZArith.

Open Scope Z_scope.
Open Scope string_scope.
Open Scope list_scope.
Open Scope stdpp_scope.

(** ** Values *)

(** A [git.Commit] object; [hexsha] is its only attribute the program reads.
    Being an object it is always truthy: [if commit:] only tells it from
    [None]. *)
Record Commit := mkCommit { hexsha : string }.

#[global] Instance Commit_eq_dec : EqDecision Commit.
Proof. solve_decision. Defined.

(** A change item, the dict handed to [Merger.mergeChanges].  The keys
    [number], [patchset], [newrev] and [oldrev] only select a debug message
    and are left out. *)
Record Item := mkItem {
  project : string;
  url : option string;
  branch : string;
  ref : string;
  refspec : string;
  merge_mode : Z;
  connection_name : string
}.

(** What a reference is pointed at: the string ['HEAD'], a commit object,
    a remote reference of [origin] (named by its [remote_head]), or an
    object that is not a commit (a tree, a blob or a tag). *)
Inductive Target :=
| TargetHEAD
| TargetCommit (c : Commit)
| TargetRemote (remote_head : string)
| TargetOther (sha : string).

(** Python truthiness of the values the program tests. *)
Definition truthy_str (s : string) : bool := negb (String.eqb s "").

Definition truthy_opt_str (o : option string) : bool :=
  match o with
  | Some s => truthy_str s
  | None => false
  end.

(** ** Exceptions *)

(** Exceptions that come out of GitPython or [os]. *)
Inductive lib_exn :=
| GitCommandError (status : Z)
| AssertionError
| IndexError
| OSError
| TypeError
| ValueError
| LibError (cls : string).

(** Every exception of a run: one of the library, or one the program's own
    code raises.  All of them derive from [Exception]. *)
Inductive exn :=
| Lib (e : lib_exn)
| UnboundLocalError               (* [return repo] with [repo] never bound *)
| AttributeError                  (* attribute access on [None] *)
| NoUrlException (project : string)
    (* Exception("Unable to set up repo for project %s without a url") *)
| UnsupportedModeException (mode : Z).
    (* Exception("Unsupported merge mode: %s") *)

Inductive outcome (A : Type) :=
| Ret (a : A)
| Raise (e : exn).
Arguments Ret {A} a.
Arguments Raise {A} e.

(** ** External calls *)

(** The calls the program makes into GitPython and [os].  The first
    argument [path] of a repository call is the working copy the
    [git.Repo] object was opened on. *)
Inductive Call : Type -> Type :=
| OsPathExists (p : string) : Call bool
| OsPathIsfile (p : string) : Call bool
| CloneFrom (remote local : string) : Call unit
    (* git.Repo.clone_from(url, path) *)
| GitRepo (path : string) : Call unit
    (* git.Repo(path) *)
| ConfigSetValue (path section key value : string) : Call unit
    (* repo.config_writer().set_value(section, key, value) *)
| ConfigWriter (path : string) : Call unit
| ConfigWrite (path : string) : Call unit
| ConfigReleaseLock (path : string) : Call unit
| RemotesOrigin (path : string) : Call unit
    (* repo.remotes.origin *)
| OriginRefs (path : string) : Call (list string)
    (* origin.refs, each reference given by its remote_head *)
| CreateHead (path name : string) (t : Target) (force : bool) : Call unit
    (* repo.create_head(name, ref, force=...) *)
| SetHeadReference (path : string) (t : Target) : Call unit
    (* repo.head.reference = ... *)
| GitReset (path : string) (args : list string) : Call unit
| GitClean (path : string) (args : list string) : Call unit
| HeadsCommit (path branch : string) : Call Commit
    (* repo.heads[branch].commit *)
| RefsContains (path refname : string) : Call bool
    (* refname in repo.refs *)
| RefsCommit (path refname : string) : Call Commit
    (* repo.refs[refname].commit *)
| HeadCommit (path : string) : Call Commit
    (* repo.head.commit *)
| GitCherryPick (path rev : string) : Call unit
| GitMerge (path : string) (args : list string) : Call unit
| OriginFetch (path : string) (refspec : option string) (tags force : bool)
    : Call unit
| GitVersionInfo (path : string) : Call (list Z)
| ReferenceCreate (path common_path_default : string)
    (points_to_commits_only : bool) (name : string) (reference : Target)
    (force : bool) : Call string
    (* cls.create(repo, name, reference), returns the reference's path *)
| ReferenceCommit (path fullpath : string) : Call Commit.
    (* ref.commit of a reference object *)

(** What the library answers, as the outcome of the Python expression. *)
Definition of_lib {T} (r : T + lib_exn) : outcome T :=
  match r with
  | inl v => Ret v
  | inr e => Raise (Lib e)
  end.

Definition ACall : Type := sigT Call.

Definition pack {T} (c : Call T) : ACall := existT T c.

(** The back end: a world (file system, local repositories, remotes) and
    the answer to each call in it.  Nothing is assumed of it here. *)
Class GitBackend := {
  World : Type;
  exec : forall T, Call T -> World -> (T + lib_exn) * World
}.
Arguments exec {_ T} c w.

(** ** Program state *)

(** A [Repo] object.  Its four constructor arguments never change; the
    mutable attribute [_initialized] is kept in the state, per object
    identity [oid]. *)
Record RepoObj := mkRepo {
  oid : nat;
  remote_url : string;
  local_path : string;
  email : string;
  username : string
}.

(** Records written by [log.exception] (and the one [log.debug] that
    carries [exc_info]); plain debug and info lines are left out. *)
Inductive LogRecord :=
| LogInitFailed (remote : string) (e : exn)
| LogCreateRepoObjectFailed (local : string) (e : exn)
| LogAddProjectFailed (p : string) (e : exn)
| LogUpdateFailed (p : string) (e : exn)
| LogCheckoutFailed (base : Commit) (e : exn)
| LogUnableToMerge (item : Item) (e : exn)
| LogMergeException (e : exn)
| LogResetFailed (repo : option RepoObj) (e : exn)
| LogSetZuulRefFailed (item : Item) (e : exn).

(** A Python dict with insertion order: assignment to a present key keeps
    its place, a new key goes last. *)
Fixpoint dict_get {K V} `{EqDecision K} (k : K) (d : list (K * V))
  : option V :=
  match d with
  | [] => None
  | (k', v) :: d' => if decide (k' = k) then Some v else dict_get k d'
  end.

Fixpoint dict_set {K V} `{EqDecision K} (k : K) (v : V) (d : list (K * V))
  : list (K * V) :=
  match d with
  | [] => [(k, v)]
  | (k', v') :: d' =>
      if decide (k' = k) then (k, v) :: d' else (k', v') :: dict_set k v d'
  end.

Abbreviation Cache := (list ((string * string) * Commit)).

(** A [for] loop whose body may [return]: [Return r] leaves the enclosing
    function with [r], [Next v] goes on with the loop-carried value [v]. *)
Inductive flow (R V : Type) :=
| Return (r : R)
| Next (v : V).
Arguments Return {R V} r.
Arguments Next {R V} v.

Section Program.
Context `{B : GitBackend}.

(** The state of a run: the world, the [Merger] object ([repos],
    [working_root], [m_email], [m_username]), the [_initialized] flags of
    the [Repo] objects, [os.environ\['GIT_SSH'\]], the dict [recent] of the
    running [mergeChanges], and the two observation lists. *)
Record St := mkSt {
  world : World;
  repos : gmap string RepoObj;
  working_root : string;
  m_email : string;
  m_username : string;
  initialized : gset nat;
  next_oid : nat;
  GIT_SSH : option string;
  recent : Cache;
  calls : list ACall;
  logs : list LogRecord
}.

Definition M (A : Type) : Type := St -> outcome A * St.

#[global] Instance M_ret : MRet M := fun A a s => (Ret a, s).

#[global] Instance M_bind : MBind M := fun A B f m s =>
  match m s with
  | (Ret a, s') => f a s'
  | (Raise e, s') => (Raise e, s')
  end.

Definition raise {A} (e : exn) : M A := fun s => (Raise e, s).

Definition get_st : M St := fun s => (Ret s, s).

Definition modify (f : St -> St) : M unit := fun s => (Ret tt, f s).

(** [try: body except <classes>: handler]: [handler e] is [None] when no
    clause matches [e]. *)
Definition try_except {A} (body : M A) (handler : exn -> option (M A)) : M A :=
  fun s =>
    match body s with
    | (Ret a, s') => (Ret a, s')
    | (Raise e, s') =>
        match handler e with
        | Some h => h s'
        | None => (Raise e, s')
        end
    end.

(** [try: body finally: fin]. *)
Definition try_finally {A} (body : M A) (fin : M unit) : M A :=
  fun s =>
    match body s with
    | (r, s') =>
        match fin s' with
        | (Ret _, s'') => (r, s'')
        | (Raise e, s'') => (Raise e, s'')
        end
    end.

(** Field updates of the state. *)
Definition set_world (w : World) (s : St) : St :=
  mkSt w (repos s) (working_root s) (m_email s) (m_username s)
       (initialized s) (next_oid s) (GIT_SSH s) (recent s) (calls s) (logs s).

Definition set_repos (r : gmap string RepoObj) (s : St) : St :=
  mkSt (world s) r (working_root s) (m_email s) (m_username s)
       (initialized s) (next_oid s) (GIT_SSH s) (recent s) (calls s) (logs s).

Definition set_initialized (i : gset nat) (s : St) : St :=
  mkSt (world s) (repos s) (working_root s) (m_email s) (m_username s)
       i (next_oid s) (GIT_SSH s) (recent s) (calls s) (logs s).

Definition set_next_oid (n : nat) (s : St) : St :=
  mkSt (world s) (repos s) (working_root s) (m_email s) (m_username s)
       (initialized s) n (GIT_SSH s) (recent s) (calls s) (logs s).

Definition set_GIT_SSH (g : option string) (s : St) : St :=
  mkSt (world s) (repos s) (working_root s) (m_email s) (m_username s)
       (initialized s) (next_oid s) g (recent s) (calls s) (logs s).

Definition set_recent (r : Cache) (s : St) : St :=
  mkSt (world s) (repos s) (working_root s) (m_email s) (m_username s)
       (initialized s) (next_oid s) (GIT_SSH s) r (calls s) (logs s).

Definition set_calls (c : list ACall) (s : St) : St :=
  mkSt (world s) (repos s) (working_root s) (m_email s) (m_username s)
       (initialized s) (next_oid s) (GIT_SSH s) (recent s) c (logs s).

Definition set_logs (l : list LogRecord) (s : St) : St :=
  mkSt (world s) (repos s) (working_root s) (m_email s) (m_username s)
       (initialized s) (next_oid s) (GIT_SSH s) (recent s) (calls s) l.

(** One call into the library, recorded in [calls]. *)
Definition call {T} (c : Call T) : M T := fun s =>
  match exec c (world s) with
  | (r, w) => (of_lib r, set_calls (calls s ++ [pack c]) (set_world w s))
  end.

Definition log (r : LogRecord) : M unit :=
  modify (fun s => set_logs (logs s ++ [r]) s).

(** The loop itself. *)
Fixpoint for_in {A R V} (l : list A) (v : V) (body : A -> V -> M (flow R V))
  : M (flow R V) :=
  match l with
  | [] => mret (Next v)
  | x :: l' =>
      f ← body x v;
      match f with
      | Return r => mret (Return r)
      | Next v' => for_in l' v' body
      end
  end.

(** A [for] loop without [return]; a body that ends early is a
    [continue]. *)
Fixpoint for_each {A} (l : list A) (body : A -> M unit) : M unit :=
  match l with
  | [] => mret tt
  | x :: l' => body x;; for_each l' body
  end.

(** [a < b] on tuples of integers. *)
Fixpoint tuple_ltb (a b : list Z) : bool :=
  match a, b with
  | [], [] => false
  | [], _ :: _ => true
  | _ :: _, [] => false
  | x :: a', y :: b' =>
      if Z.ltb x y then true else if Z.ltb y x then false else tuple_ltb a' b'
  end.

(** [os.path.join(a, b)] on POSIX. *)
Definition ends_with_slash (s : string) : bool :=
  match String.length s with
  | O => false
  | S n => String.eqb (String.substring n 1 s) "/"
  end.

Definition os_path_join (a b : string) : string :=
  if String.prefix "/" b then b
  else if orb (String.eqb a "") (ends_with_slash a) then a +:+ b
  else a +:+ "/" +:+ b.

End Program.

(** ** [reset_repo_to_head] and [ZuulReference] *)

Section Helpers.
Context `{B : GitBackend}.

Definition reset_repo_to_head (path : string) : M unit :=
  try_except (call (GitReset path ["--hard"; "HEAD"; "--"]))
    (fun e =>
       match e with
       | Lib (GitCommandError status) =>
           Some (if decide (status ≠ 1) then raise e else mret tt)
       | _ => None
       end).

End Helpers.

Module ZuulReference.

Definition _common_path_default : string := "refs/zuul".

Definition _points_to_commits_only : bool := true.

End ZuulReference.

(** ** class [Repo]

    [prune], [hasBranch], [fetchFrom] and [push] are maintenance calls the
    merge path never reaches; they are embedded further down, in
    [RepoMaintenance]. *)

Module Repo.
Section Methods.
Context `{B : GitBackend}.

Definition get__initialized (self : RepoObj) : M bool :=
  fun s => (Ret (bool_decide (oid self ∈ initialized s)), s).

Definition set__initialized (self : RepoObj) (b : bool) : M unit :=
  modify (fun s =>
    set_initialized (if b then {[oid self]} ∪ initialized s
                     else initialized s ∖ {[oid self]}) s).

Definition _ensure_cloned (self : RepoObj) : M unit :=
  repo_is_cloned ← call (OsPathExists (os_path_join (local_path self) ".git"));
  init ← get__initialized self;
  if init && repo_is_cloned then mret tt
  else
    (if negb repo_is_cloned
     then call (CloneFrom (remote_url self) (local_path self))
     else mret tt);;
    call (GitRepo (local_path self));;
    (if truthy_str (email self)
     then call (ConfigSetValue (local_path self) "user" "email" (email self))
     else mret tt);;
    (if truthy_str (username self)
     then call (ConfigSetValue (local_path self) "user" "name" (username self))
     else mret tt);;
    call (ConfigWriter (local_path self));;
    try_finally (call (ConfigWrite (local_path self)))
                (call (ConfigReleaseLock (local_path self)));;
    set__initialized self true.

(** [Repo(remote, local, email, username)]: a new object, then the body of
    [__init__]. *)
Definition __init__ (remote local email username : string) : M RepoObj :=
  s ← get_st;
  let self := mkRepo (next_oid s) remote local email username in
  modify (fun s => set_next_oid (S (next_oid s)) s);;
  set__initialized self false;;
  try_except (_ensure_cloned self)
             (fun e => Some (log (LogInitFailed remote e)));;
  mret self.

Definition isInitialized (self : RepoObj) : M bool := get__initialized self.

(** When the [try] block fails, [repo] is never bound and [return repo]
    raises. *)
Definition createRepoObject (self : RepoObj) : M unit :=
  try_except (_ensure_cloned self;; call (GitRepo (local_path self)))
    (fun e => Some (log (LogCreateRepoObjectFailed (local_path self) e);;
                    raise UnboundLocalError)).

Definition update (self : RepoObj) : M unit :=
  createRepoObject self;;
  call (RemotesOrigin (local_path self));;
  v ← call (GitVersionInfo (local_path self));
  (if tuple_ltb (take 2 v) [1; 9]
   then call (OriginFetch (local_path self) None false false)
   else mret tt);;
  call (OriginFetch (local_path self) None true true).

Definition reset (self : RepoObj) : M unit :=
  update self;;
  createRepoObject self;;
  call (RemotesOrigin (local_path self));;
  refs ← call (OriginRefs (local_path self));
  for_each refs (fun r =>
    if String.eqb r "HEAD" then mret tt
    else call (CreateHead (local_path self) r (TargetRemote r) true));;
  try_except
    (refs ← call (OriginRefs (local_path self));
     if bool_decide ("HEAD" ∈ refs)
     then call (SetHeadReference (local_path self) (TargetRemote "HEAD"))
     else raise (Lib IndexError))
    (fun e =>
       match e with
       | Lib IndexError =>
           Some (refs ← call (OriginRefs (local_path self));
                 match refs with
                 | r :: _ =>
                     call (SetHeadReference (local_path self) (TargetRemote r))
                 | [] => raise (Lib IndexError)
                 end)
       | _ => None
       end);;
  reset_repo_to_head (local_path self);;
  call (GitClean (local_path self) ["-x"; "-f"; "-d"]).

Definition getBranchHead (self : RepoObj) (branch : string) : M Commit :=
  createRepoObject self;;
  call (HeadsCommit (local_path self) branch).

Definition getCommitFromRef (self : RepoObj) (refname : string)
  : M (option Commit) :=
  createRepoObject self;;
  present ← call (RefsContains (local_path self) refname);
  if negb present then mret None
  else c ← call (RefsCommit (local_path self) refname); mret (Some c).

Definition checkout (self : RepoObj) (ref : Commit) : M Commit :=
  createRepoObject self;;
  call (SetHeadReference (local_path self) (TargetCommit ref));;
  reset_repo_to_head (local_path self);;
  call (HeadCommit (local_path self)).

Definition fetch (self : RepoObj) (ref : string) : M unit :=
  createRepoObject self;;
  call (RemotesOrigin (local_path self));;
  try_except (call (OriginFetch (local_path self) (Some ref) false false))
    (fun e =>
       match e with
       | Lib AssertionError =>
           Some (call (OriginFetch (local_path self) (Some ref) false false))
       | _ => None
       end).

Definition cherryPick (self : RepoObj) (ref : string) : M Commit :=
  createRepoObject self;;
  fetch self ref;;
  call (GitCherryPick (local_path self) "FETCH_HEAD");;
  call (HeadCommit (local_path self)).

Definition merge (self : RepoObj) (ref : string) (strategy : option string)
  : M Commit :=
  createRepoObject self;;
  let args :=
    (if truthy_opt_str strategy then ["-s"; default "" strategy] else [])
    ++ ["FETCH_HEAD"] in
  fetch self ref;;
  call (GitMerge (local_path self) args);;
  call (HeadCommit (local_path self)).

Definition createZuulRef (self : RepoObj) (ref : string) (commit : Target)
  : M Commit :=
  createRepoObject self;;
  r ← call (ReferenceCreate (local_path self)
             ZuulReference._common_path_default
             ZuulReference._points_to_commits_only ref commit false);
  call (ReferenceCommit (local_path self) r).

End Methods.
End Repo.

(** ** class [Merger] *)

(** The three merge modes of [zuul.model].  The module is not part of the
    sources at hand, so its constants are parameters of the development. *)
Class ZuulModel := {
  MERGER_MERGE : Z;
  MERGER_MERGE_RESOLVE : Z;
  MERGER_CHERRY_PICK : Z
}.

Module Merger.
Section Methods.
Context `{B : GitBackend} `{ZM : ZuulModel}.

(** A method call [repo.m(...)] on what may be [None]. *)
Definition on_repo {A} (repo : option RepoObj) (m : RepoObj -> M A) : M A :=
  match repo with
  | Some r => m r
  | None => raise AttributeError
  end.

Definition addProject (project url : string) : M (option RepoObj) :=
  try_except
    (s ← get_st;
     let path := os_path_join (working_root s) project in
     repo ← Repo.__init__ url path (m_email s) (m_username s);
     modify (fun s => set_repos (<[project := repo]> (repos s)) s);;
     mret (Some repo))
    (fun e => Some (log (LogAddProjectFailed project e);; mret None)).

Definition getRepo (project : string) (url : option string)
  : M (option RepoObj) :=
  s ← get_st;
  match repos s !! project with
  | Some r => mret (Some r)
  | None =>
      if negb (truthy_opt_str url) then raise (NoUrlException project)
      else addProject project (default "" url)
  end.

Definition updateRepo (project : string) (url : option string) : M unit :=
  repo ← getRepo project url;
  try_except (on_repo repo Repo.update)
             (fun e => Some (log (LogUpdateFailed project e))).

Definition _mergeChange (item : Item) (ref : Commit) : M (option Commit) :=
  repo ← getRepo (project item) (url item);
  checked_out ←
    try_except (on_repo repo (fun r => Repo.checkout r ref);; mret true)
               (fun e => Some (log (LogCheckoutFailed ref e);; mret false));
  if negb checked_out then mret None
  else
    try_except
      (let mode := merge_mode item in
       commit ←
         (if decide (mode = MERGER_MERGE)
          then on_repo repo (fun r => Repo.merge r (refspec item) None)
          else if decide (mode = MERGER_MERGE_RESOLVE)
          then on_repo repo
                 (fun r => Repo.merge r (refspec item) (Some "resolve"))
          else if decide (mode = MERGER_CHERRY_PICK)
          then on_repo repo (fun r => Repo.cherryPick r (refspec item))
          else raise (UnsupportedModeException mode));
       mret (Some commit))
      (fun e =>
         match e with
         | Lib (GitCommandError _) =>
             Some (log (LogUnableToMerge item e);; mret None)
         | _ => Some (log (LogMergeException e);; mret None)
         end).

Definition _setGitSsh (connection_name : string) : M unit :=
  s ← get_st;
  let wrapper_name := ".ssh_wrapper_" +:+ connection_name in
  let name := os_path_join (working_root s) wrapper_name in
  isfile ← call (OsPathIsfile name);
  if (isfile : bool) then modify (set_GIT_SSH (Some name))
  else
    s ← get_st;
    match GIT_SSH s with
    | Some _ => modify (set_GIT_SSH None)
    | None => mret tt
    end.

(** [recent\[key\] = commit] and [recent.get(key)] on the dict of the
    running call. *)
Definition recent_set (key : string * string) (c : Commit) : M unit :=
  modify (fun s => set_recent (dict_set key c (recent s)) s).

Definition recent_get (key : string * string) : M (option Commit) :=
  fun s => (Ret (dict_get key (recent s)), s).

(** The loop of [_mergeItem] over [recent.items()]. *)
Definition publish (item : Item) : M (flow (option Commit) unit) :=
  s ← get_st;
  for_in (recent s) tt (fun entry _ =>
    let '((project, branch), mrc) := entry in
    try_except
      (repo ← getRepo project None;
       let zuul_ref := branch +:+ "/" +:+ ref item in
       on_repo repo (fun r => Repo.createZuulRef r zuul_ref (TargetCommit mrc));;
       mret (Next tt))
      (fun e => Some (log (LogSetZuulRefFailed item e);; mret (Return None)))).

(** [_mergeItem] from "# Merge the change" on, the base being known. *)
Definition merge_on_base (item : Item) (base : Commit) : M (option Commit) :=
  let key := (project item, branch item) in
  commit ← _mergeChange item base;
  match commit with
  | None => mret None
  | Some c =>
      recent_set key c;;
      f ← publish item;
      match f with
      | Return r => mret r
      | Next _ => mret (Some c)
      end
  end.

Definition _mergeItem (item : Item) : M (option Commit) :=
  _setGitSsh (connection_name item);;
  repo ← getRepo (project item) (url item);
  let key := (project item, branch item) in
  let zuul_ref := branch item +:+ "/" +:+ ref item in
  commit ← on_repo repo (fun r => Repo.getCommitFromRef r zuul_ref);
  match commit with
  | Some c => recent_set key c;; mret (Some c)
  | None =>
      base ← recent_get key;
      match base with
      | None =>
          was_reset ←
            try_except (on_repo repo Repo.reset;; mret true)
                       (fun e => Some (log (LogResetFailed repo e);; mret false));
          if negb was_reset then mret None
          else
            base ← on_repo repo (fun r => Repo.getBranchHead r (branch item));
            merge_on_base item base
      | Some base => merge_on_base item base
      end
  end.

Definition mergeChanges (items : list Item) : M (option string) :=
  modify (set_recent []);;
  f ← for_in items None (fun item _ =>
         commit ← _mergeItem item;
         match commit with
         | None => mret (Return None)
         | Some c => mret (Next (Some c))
         end);
  match f with
  | Return r => mret r
  | Next None => raise AttributeError
  | Next (Some c) => mret (Some (hexsha c))
  end.

End Methods.
End Merger.

(** ** An in-memory back end

    A small git: per working copy its local heads, its remote-tracking
    references, the references under [refs/zuul], [HEAD] and [FETCH_HEAD].
    Merging [b] into [a] gives the commit named [a+b] unless the pair is
    listed in [conflicts]; cherry-picking gives [a^b].  [faults] lets a
    call fail once: the first entry whose test accepts a call is consumed
    and its exception raised.

    The references are loose ones (one file each; nothing is packed), and
    [ReferenceCreate] follows GitPython's [Reference.create] on those:
    without [force], a reference whose file exists with other contents is
    not replaced and [OSError] is raised; a class with
    [_points_to_commits_only] refuses an object that is not a commit with
    [TypeError].  The two look-ups by short name answer from the references
    under [refs/zuul]: this small git has no tags, and its sample worlds no
    head of the name of a marker. *)

Module Fake.

Record FakeWorld := mkFake {
  git_dirs : list string;
  files : list string;
  origin : list ((string * string) * Commit);
  changes : list ((string * string) * Commit);
  heads : list ((string * string) * Commit);
  zuul_refs : list ((string * string) * Commit);
  HEAD : list (string * Commit);
  FETCH_HEAD : list (string * Commit);
  conflicts : list (Commit * Commit);
  faults : list ((ACall -> bool) * lib_exn)
}.

Definition set_git_dirs (x : list string) (w : FakeWorld) : FakeWorld :=
  mkFake x (files w) (origin w) (changes w) (heads w) (zuul_refs w) (HEAD w)
         (FETCH_HEAD w) (conflicts w) (faults w).

Definition set_heads (x : list ((string * string) * Commit)) (w : FakeWorld)
  : FakeWorld :=
  mkFake (git_dirs w) (files w) (origin w) (changes w) x (zuul_refs w) (HEAD w)
         (FETCH_HEAD w) (conflicts w) (faults w).

Definition set_zuul_refs (x : list ((string * string) * Commit))
  (w : FakeWorld) : FakeWorld :=
  mkFake (git_dirs w) (files w) (origin w) (changes w) (heads w) x (HEAD w)
         (FETCH_HEAD w) (conflicts w) (faults w).

Definition set_HEAD (x : list (string * Commit)) (w : FakeWorld) : FakeWorld :=
  mkFake (git_dirs w) (files w) (origin w) (changes w) (heads w) (zuul_refs w)
         x (FETCH_HEAD w) (conflicts w) (faults w).

Definition set_FETCH_HEAD (x : list (string * Commit)) (w : FakeWorld)
  : FakeWorld :=
  mkFake (git_dirs w) (files w) (origin w) (changes w) (heads w) (zuul_refs w)
         (HEAD w) x (conflicts w) (faults w).

Definition set_faults (x : list ((ACall -> bool) * lib_exn)) (w : FakeWorld)
  : FakeWorld :=
  mkFake (git_dirs w) (files w) (origin w) (changes w) (heads w) (zuul_refs w)
         (HEAD w) (FETCH_HEAD w) (conflicts w) x.

Fixpoint take_fault (c : ACall) (fs : list ((ACall -> bool) * lib_exn))
  : option (lib_exn * list ((ACall -> bool) * lib_exn)) :=
  match fs with
  | [] => None
  | (p, e) :: fs' =>
      if p c then Some (e, fs')
      else match take_fault c fs' with
           | Some (e', rest) => Some (e', (p, e) :: rest)
           | None => None
           end
  end.

Definition resolve (w : FakeWorld) (path : string) (t : Target)
  : option Commit :=
  match t with
  | TargetHEAD => dict_get path (HEAD w)
  | TargetCommit c => Some c
  | TargetRemote r => dict_get (path, r) (origin w)
  | TargetOther _ => None
  end.

Definition remote_heads (w : FakeWorld) (path : string) : list string :=
  omap (fun e : (string * string) * Commit =>
          if decide (e.1.1 = path) then Some e.1.2 else None) (origin w).

Definition combine_heads (op : string) (w : FakeWorld) (path : string)
  : (unit + lib_exn) * FakeWorld :=
  match dict_get path (HEAD w), dict_get path (FETCH_HEAD w) with
  | Some a, Some b =>
      if bool_decide ((a, b) ∈ conflicts w) then (inr (GitCommandError 1), w)
      else (inl tt,
            set_HEAD (dict_set path (mkCommit (hexsha a +:+ op +:+ hexsha b))
                               (HEAD w)) w)
  | _, _ => (inr (GitCommandError 128), w)
  end.

(** The answer of the fake to a call that is not being failed. *)
Definition answer {T} (c : Call T) (w : FakeWorld)
  : (T + lib_exn) * FakeWorld :=
  match c in Call T return (T + lib_exn) * FakeWorld with
  | OsPathExists p =>
      (inl (bool_decide (p ∈ (fun d => os_path_join d ".git") <$> git_dirs w)),
       w)
  | OsPathIsfile p => (inl (bool_decide (p ∈ files w)), w)
  | CloneFrom remote local =>
      if bool_decide (local ∈ git_dirs w) then (inr (GitCommandError 128), w)
      else (inl tt, set_git_dirs (local :: git_dirs w) w)
  | GitRepo path =>
      if bool_decide (path ∈ git_dirs w) then (inl tt, w)
      else (inr (LibError "NoSuchPathError"), w)
  | ConfigSetValue _ _ _ _ => (inl tt, w)
  | ConfigWriter _ => (inl tt, w)
  | ConfigWrite _ => (inl tt, w)
  | ConfigReleaseLock _ => (inl tt, w)
  | RemotesOrigin _ => (inl tt, w)
  | OriginRefs path => (inl (remote_heads w path), w)
  | CreateHead path name t force =>
      match resolve w path t with
      | Some c =>
          if negb force && bool_decide (is_Some (dict_get (path, name) (heads w)))
          then (inr OSError, w)
          else (inl tt, set_heads (dict_set (path, name) c (heads w)) w)
      | None => (inr ValueError, w)
      end
  | SetHeadReference path t =>
      match resolve w path t with
      | Some c => (inl tt, set_HEAD (dict_set path c (HEAD w)) w)
      | None => (inr ValueError, w)
      end
  | GitReset _ _ => (inl tt, w)
  | GitClean _ _ => (inl tt, w)
  | HeadsCommit path branch =>
      match dict_get (path, branch) (heads w) with
      | Some c => (inl c, w)
      | None => (inr IndexError, w)
      end
  | RefsContains path refname =>
      (inl (bool_decide
              (is_Some (dict_get (path, "refs/zuul/" +:+ refname) (zuul_refs w)))),
       w)
  | RefsCommit path refname =>
      match dict_get (path, "refs/zuul/" +:+ refname) (zuul_refs w) with
      | Some c => (inl c, w)
      | None => (inr IndexError, w)
      end
  | HeadCommit path =>
      match dict_get path (HEAD w) with
      | Some c => (inl c, w)
      | None => (inr ValueError, w)
      end
  | GitCherryPick path _ => combine_heads "^" w path
  | GitMerge path _ => combine_heads "+" w path
  | OriginFetch path refspec _ _ =>
      match refspec with
      | None => (inl tt, w)
      | Some r =>
          match dict_get (path, r) (changes w) with
          | Some c => (inl tt, set_FETCH_HEAD (dict_set path c (FETCH_HEAD w)) w)
          | None => (inr (GitCommandError 128), w)
          end
      end
  | GitVersionInfo _ => (inl [2; 30; 0], w)
  | ReferenceCreate path prefix commits_only name t force =>
      let full := prefix +:+ "/" +:+ name in
      match resolve w path t with
      | Some c =>
          match dict_get (path, full) (zuul_refs w) with
          | Some old =>
              if negb force && negb (bool_decide (old = c))
              then (inr OSError, w)
              else (inl full,
                    set_zuul_refs (dict_set (path, full) c (zuul_refs w)) w)
          | None =>
              (inl full, set_zuul_refs (dict_set (path, full) c (zuul_refs w)) w)
          end
      | None => (inr (if commits_only then TypeError else ValueError), w)
      end
  | ReferenceCommit path full =>
      match dict_get (path, full) (zuul_refs w) with
      | Some c => (inl c, w)
      | None => (inr ValueError, w)
      end
  end.

Definition fake_exec (T : Type) (c : Call T) (w : FakeWorld)
  : (T + lib_exn) * FakeWorld :=
  match take_fault (pack c) (faults w) with
  | Some (e, rest) => (inr e, set_faults rest w)
  | None => answer c w
  end.

Definition fake_backend : GitBackend :=
  {| World := FakeWorld; exec := fake_exec |}.

(** Sample values for the constants of [zuul.model]. *)
Definition zuul_model : ZuulModel :=
  {| MERGER_MERGE := 1; MERGER_MERGE_RESOLVE := 2; MERGER_CHERRY_PICK := 3 |}.

(** The local head [b] and the remote reference [r] of the working copy
    [path]. *)
Definition fake_local_head (w : FakeWorld) (path b : string)
  : option Commit := dict_get (path, b) (heads w).

Definition fake_remote_ref (w : FakeWorld) (path r : string)
  : option Commit := dict_get (path, r) (origin w).

(** The reference [refs/zuul/name] of the working copy [path]. *)
Definition fake_marker (w : FakeWorld) (path name : string) : option Commit :=
  dict_get (path, "refs/zuul/" +:+ name) (zuul_refs w).

End Fake.

(** ** Kinds of calls, and what a run may do *)

Inductive kind :=
| KOs         (* os.path tests *)
| KSetup      (* clone, open, configure *)
| KRead       (* reading references and versions *)
| KFetch      (* origin.fetch *)
| KBranch     (* creating local heads *)
| KCheckout   (* moving HEAD, reset --hard, clean: the working tree *)
| KMerge
| KCherryPick
| KMarker.    (* Reference.create *)

#[global] Instance kind_eq_dec : EqDecision kind.
Proof. solve_decision. Defined.

Definition kind_of_call {T} (c : Call T) : kind :=
  match c with
  | OsPathExists _ | OsPathIsfile _ => KOs
  | CloneFrom _ _ | GitRepo _ | ConfigSetValue _ _ _ _ | ConfigWriter _
  | ConfigWrite _ | ConfigReleaseLock _ => KSetup
  | RemotesOrigin _ | OriginRefs _ | HeadsCommit _ _ | RefsContains _ _
  | RefsCommit _ _ | HeadCommit _ | GitVersionInfo _ | ReferenceCommit _ _ =>
      KRead
  | OriginFetch _ _ _ _ => KFetch
  | CreateHead _ _ _ _ => KBranch
  | SetHeadReference _ _ | GitReset _ _ | GitClean _ _ => KCheckout
  | GitMerge _ _ => KMerge
  | GitCherryPick _ _ => KCherryPick
  | ReferenceCreate _ _ _ _ _ _ => KMarker
  end.

Definition kind_of (c : ACall) : kind := kind_of_call (projT2 c).

(** [c] is of one of the kinds [ks]. *)
Definition among (ks : list kind) (c : ACall) : bool :=
  bool_decide (kind_of c ∈ ks).

Section Runs.
Context `{B : GitBackend}.

(** [steps ks (w, l) (w', l')]: the world [w'] and the call list [l'] come
    from [w] and [l] by calls of the kinds [ks] only. *)
Inductive steps (ks : list kind)
  : World * list ACall -> World * list ACall -> Prop :=
| steps_refl x : steps ks x x
| steps_call x w l T (c : Call T) :
    steps ks x (w, l) ->
    kind_of_call c ∈ ks ->
    steps ks x ((exec c w).2, l ++ [pack c]).

(** [within ks s s']: between [s] and [s'] only calls of the kinds [ks]
    were made, no project left the registry and the working root stayed. *)
Definition within (ks : list kind) (s s' : St) : Prop :=
  steps ks (world s, calls s) (world s', calls s') /\
  repos s ⊆ repos s' /\
  working_root s' = working_root s.

(** [calm]: moreover the dict [recent] was left alone; [quiet]: moreover
    the registry is the same. *)
Definition calm (ks : list kind) (s s' : St) : Prop :=
  within ks s s' /\ recent s' = recent s.

Definition quiet (ks : list kind) (s s' : St) : Prop :=
  calm ks s s' /\ repos s' = repos s.

(** [pres R m]: every run of [m] relates its first state to its last. *)
Definition pres (R : St -> St -> Prop) {A} (m : M A) : Prop :=
  forall s r s', m s = (r, s') -> R s s'.

End Runs.

(** ** Vocabulary of the properties *)

Section Vocabulary.
Context `{B : GitBackend} `{ZM : ZuulModel}.

(** The items are processed one after the other and each gives a commit:
    the result is the commit of the last one ([last] when there is none)
    and the state reached. *)
Fixpoint process_all (items : list Item) (last : option Commit) (s : St)
  : option (option Commit * St) :=
  match items with
  | [] => Some (last, s)
  | item :: rest =>
      match Merger._mergeItem item s with
      | (Ret (Some c), s') => process_all rest (Some c) s'
      | _ => None
      end
  end.

(** The body of the loop of [mergeChanges]. *)
Definition each_item (item : Item) (_ : option Commit)
  : M (flow (option string) (option Commit)) :=
  commit ← Merger._mergeItem item;
  match commit with
  | None => mret (Return None)
  | Some c => mret (Next (Some c))
  end.

(** The start of [_mergeItem]: credentials, repository handle, and the
    look-up of the item's own marker reference. *)
Definition find_marker (item : Item) : M (option Commit) :=
  Merger._setGitSsh (connection_name item);;
  repo ← Merger.getRepo (project item) (url item);
  Merger.on_repo repo (fun r =>
    Repo.getCommitFromRef r (branch item +:+ "/" +:+ ref item)).

(** The rest of [_mergeItem] when no marker reference was found: choose
    the base, merge, record, publish.  [repo] is the handle [getRepo]
    gave. *)
Definition merge_unresolved (item : Item) (repo : RepoObj)
  : M (option Commit) :=
  base ← Merger.recent_get (project item, branch item);
  match base with
  | None =>
      was_reset ←
        try_except (Repo.reset repo;; mret true)
          (fun e => Some (log (LogResetFailed (Some repo) e);; mret false));
      if negb was_reset then mret None
      else
        base ← Repo.getBranchHead repo (branch item);
        Merger.merge_on_base item base
  | Some base => Merger.merge_on_base item base
  end.

(** Every project of the cache is in the registry. *)
Definition cache_registered (s : St) : Prop :=
  forall p b c, ((p, b), c) ∈ recent s -> is_Some (repos s !! p).

(** No two registered projects share a working copy. *)
Definition distinct_paths (m : gmap string RepoObj) : Prop :=
  NoDup ((fun e : string * RepoObj => local_path e.2) <$> map_to_list m).

(** A log record that does not report a handle look-up failing in the
    loop over [recent.items()]. *)
Definition found_handle (r : LogRecord) : Prop :=
  match r with
  | LogSetZuulRefFailed _ (NoUrlException _) => False
  | _ => True
  end.

(** The calls of [l] that create local heads all force the head [r] of
    [path] to the remote reference of the same name. *)
Definition heads_follow_origin (path : string) (l : list ACall) : Prop :=
  forall c, c ∈ l -> kind_of c = KBranch ->
    exists r, c = pack (CreateHead path r (TargetRemote r) true).

End Vocabulary.

(** [polite s s']: the records logged between [s] and [s'] report no
    handle look-up failing in the loop over [recent.items()]. *)
Definition polite `{B : GitBackend} (s s' : St) : Prop :=
  exists n, logs s' = logs s ++ n /\ Forall found_handle n.

(** One turn of the loop over [recent.items()]. *)
Definition publish_entry `{B : GitBackend} (item : Item)
  (entry : (string * string) * Commit) (_ : unit)
  : M (flow (option Commit) unit) :=
  let '((project, branch), mrc) := entry in
  try_except
    (repo ← Merger.getRepo project None;
     let zuul_ref := branch +:+ "/" +:+ ref item in
     Merger.on_repo repo (fun r =>
       Repo.createZuulRef r zuul_ref (TargetCommit mrc));;
     mret (Next tt))
    (fun e => Some (log (LogSetZuulRefFailed item e);; mret (Return None))).

(** ** What is assumed of the library, where a property needs it *)

(** The references under [refs/zuul] of a working copy, by the name
    [createZuulRef] is given.  [Reference.create] sets the one it is asked
    for, when it returns, and never another; no other call changes them. *)
Class MarkerLaws `{B : GitBackend} := {
  marker : World -> string -> string -> option Commit;
  marker_create : forall path co name c force w full w',
    exec (ReferenceCreate path ZuulReference._common_path_default co name
            (TargetCommit c) force) w = (inl full, w') ->
    marker w' path name = Some c;
  marker_create_other : forall path co name t force w path' name',
    (path', name') <> (path, name) ->
    marker (exec (ReferenceCreate path ZuulReference._common_path_default co
                    name t force) w).2 path' name' = marker w path' name';
  marker_frame : forall T (c : Call T) w path name,
    kind_of_call c <> KMarker ->
    marker (exec c w).2 path name = marker w path name
}.

(** Looking a reference up by its short name.  [repo.refs] lists the
    references of every namespace (heads, remotes, tags, [refs/zuul]) in
    the order of their paths, and [refname in repo.refs] and
    [repo.refs\[refname\]] go by the short name, the path without its first
    two components: the first reference of that short name answers, a
    marker reference or not.  [named w path n] is the commit of that first
    reference.  Where it is a commit, [in] answers [True]; a commit that
    [repo.refs\[n\].commit] gives is that one; and the path tests, the
    set-up and the reads leave it where it is. *)
Class LookupLaws `{B : GitBackend} := {
  named : World -> string -> string -> option Commit;
  refs_contains_found : forall path name w c b w',
    named w path name = Some c ->
    exec (RefsContains path name) w = (inl b, w') -> b = true;
  refs_commit_named : forall path name w c w',
    exec (RefsCommit path name) w = (inl c, w') ->
    named w path name = Some c;
  named_keeps : forall T (c : Call T) w path name x,
    kind_of_call c ∈ [KOs; KSetup; KRead] ->
    named w path name = Some x ->
    named (exec c w).2 path name = Some x
}.

(** The local heads and the remote-tracking references of a working copy.
    [origin.refs] lists the remote references; [create_head] on a remote
    reference puts the local head on its commit, when it returns, and
    leaves the other heads alone; [repo.heads\[b\].commit] answers from the
    local heads.  A local head that exists stays where it is through the
    set-up, the reads and the calls that move [HEAD] or clean the working
    tree (a clone into a working copy that exists is refused); the reads
    and the calls on heads and on the working tree leave the remote
    references as they are. *)
Class HeadLaws `{B : GitBackend} := {
  local_head : World -> string -> string -> option Commit;
  remote_ref : World -> string -> string -> option Commit;
  origin_refs_lists : forall path w refs w' r,
    exec (OriginRefs path) w = (inl refs, w') ->
    is_Some (remote_ref w path r) -> r ∈ refs;
  create_head_sets : forall path name r force w w',
    exec (CreateHead path name (TargetRemote r) force) w = (inl tt, w') ->
    local_head w' path name = remote_ref w path r;
  create_head_other : forall path name t force w path' name',
    (path', name') <> (path, name) ->
    local_head (exec (CreateHead path name t force) w).2 path' name'
    = local_head w path' name';
  heads_commit_reads : forall path b w c w',
    exec (HeadsCommit path b) w = (inl c, w') ->
    local_head w path b = Some c;
  local_head_keeps : forall T (c : Call T) w path b x,
    kind_of_call c ∈ [KOs; KSetup; KRead; KCheckout] ->
    local_head w path b = Some x ->
    local_head (exec c w).2 path b = Some x;
  remote_ref_frame : forall T (c : Call T) w path r,
    kind_of_call c ∈ [KRead; KBranch; KCheckout] ->
    remote_ref (exec c w).2 path r = remote_ref w path r
}.

(** ** Sample worlds and queues *)

Module Scenario.

#[local] Existing Instance Fake.fake_backend.
#[local] Existing Instance Fake.zuul_model.

Definition c0 : Commit := mkCommit "c0".
Definition d0 : Commit := mkCommit "d0".

(** Two projects on a server; nothing cloned yet.  Project [p1] has the
    changes [refs/changes/1] and [refs/changes/2], project [p2] has
    [refs/changes/3]. *)
Definition world0 : Fake.FakeWorld :=
  Fake.mkFake [] []
    [(("/w/p1", "HEAD"), c0); (("/w/p1", "master"), c0);
     (("/w/p2", "HEAD"), d0); (("/w/p2", "master"), d0)]
    [(("/w/p1", "refs/changes/1"), mkCommit "a");
     (("/w/p1", "refs/changes/2"), mkCommit "b");
     (("/w/p2", "refs/changes/3"), mkCommit "e")]
    [] [] [] [] [] [].

(** A fresh [Merger] on [/w]. *)
Definition fresh (w : Fake.FakeWorld) : St :=
  mkSt w ∅ "/w" "zuul@example.org" "zuul" ∅ 0%nat None [] [] [].

Definition s0 : St := fresh world0.

Definition item1 : Item :=
  mkItem "p1" (Some "git://p1") "master" "Z1" "refs/changes/1" 1 "gerrit".

Definition item2 : Item :=
  mkItem "p1" (Some "git://p1") "master" "Z2" "refs/changes/2" 3 "gerrit".

Definition item3 : Item :=
  mkItem "p2" (Some "git://p2") "master" "Z3" "refs/changes/3" 1 "gerrit".

(** A change on [p1] whose merge mode is none of the three. *)
Definition item_bad_mode : Item :=
  mkItem "p1" (Some "git://p1") "master" "Z9" "refs/changes/1" 7 "gerrit".

(** [p1] cloned, as [getRepo] leaves it. *)
Definition s_p1 : St := (Merger.getRepo "p1" (Some "git://p1") s0).2.

Definition repo1 : RepoObj :=
  mkRepo 0 "git://p1" "/w/p1" "zuul@example.org" "zuul".

(** The same world where the first fetch of a change trips over git's
    progress output. *)
Definition is_change_fetch (c : ACall) : bool :=
  match projT2 c with
  | OriginFetch _ (Some _) _ _ => true
  | _ => false
  end.

Definition s_flaky : St :=
  set_world (Fake.set_faults [(is_change_fetch, AssertionError)] (world s_p1))
            s_p1.

(** The same server, where cherry-picking change 2 onto the merge of
    change 1 conflicts. *)
Definition world_conflict : Fake.FakeWorld :=
  Fake.mkFake [] [] (Fake.origin world0) (Fake.changes world0) [] [] [] []
    [(mkCommit "c0+a", mkCommit "b")] [].

Definition s_conflict : St := fresh world_conflict.

Definition s_conflict1 : St :=
  (Merger._mergeItem item1 (set_recent [] s_conflict)).2.

Definition s_conflict2 : St := (Merger._mergeItem item2 s_conflict1).2.

(** The same server, where writing [refs/zuul/master/Z2] in the working
    copy of [p2] fails once. *)
Definition is_create_on (path name : string) (c : ACall) : bool :=
  match projT2 c with
  | ReferenceCreate p _ _ n _ _ => bool_decide (p = path /\ n = name)
  | _ => false
  end.

Definition s_marker_fault : St :=
  fresh (Fake.set_faults [(is_create_on "/w/p2" "master/Z2", OSError)] world0).

(** The state of [mergeChanges] after changes 1 (on [p1]) and 3 (on
    [p2]) have been merged. *)
Definition s_two : St :=
  (Merger._mergeItem item3
     (Merger._mergeItem item1 (set_recent [] s0)).2).2.

(** A merger that has already processed the queue of change 3 alone. *)
Definition s_seen3 : St := (Merger.mergeChanges [item3] s0).2.

(** A merger that has already processed the queue of change 1 alone. *)
Definition s_seen1 : St := (Merger.mergeChanges [item1] s0).2.

End Scenario.

(** ** Maintenance methods of [Repo] and the constructor of [Merger]

    [hasBranch], [prune], [fetchFrom], [push] and [Merger.__init__] are not
    on the merge path.  Most of them reach library calls of their own
    ([XCall]); these are answered from the same world, and the list
    [xcalls] keeps them, beside the state of the merge path. *)

Inductive XCall : Type -> Type :=
| OriginStaleRefs (path : string) : XCall (list string)
    (* origin.stale_refs, each reference given by its remote_head *)
| RemoteReferenceDelete (path : string) (refs : list string) : XCall unit
    (* git.refs.RemoteReference.delete(repo, *refs) *)
| GitFetch (path repository refspec : string) : XCall unit
    (* repo.git.fetch(repository, refspec) *)
| OriginPush (path refspec : string) : XCall unit
    (* repo.remotes.origin.push(refspec) *)
| OsMakedirs (p : string) : XCall unit
| OpenW (name : string) : XCall nat
    (* open(name, 'w'): the file object *)
| FileWrite (fd : nat) (data : string) : XCall unit
| FileClose (fd : nat) : XCall unit
| OsChmod (name : string) (mode : Z) : XCall unit.

Definition AXCall : Type := sigT XCall.

Definition xpack {T} (c : XCall T) : AXCall := existT T c.

Class MaintenanceBackend `{B : GitBackend} := {
  xexec : forall T, XCall T -> World -> (T + lib_exn) * World
}.
Arguments xexec {_ _ T} c w.

(** A connection, as far as [Merger] looks at it: its [connection_config]
    dict. *)
Record Connection := mkConnection {
  connection_config : list (string * string)
}.

(** The line feed of the two lines written to a wrapper. *)
Definition LF : string := String (Ascii.ascii_of_nat 10) "".

Section Maintenance.
Context `{B : GitBackend} `{XB : !MaintenanceBackend}.

Record XSt := mkXSt {
  st : St;
  xcalls : list AXCall
}.

Definition MX (A : Type) : Type := XSt -> outcome A * XSt.

#[local] Instance MX_ret : MRet MX := fun A a x => (Ret a, x).

#[local] Instance MX_bind : MBind MX := fun A C f m x =>
  match m x with
  | (Ret a, x') => f a x'
  | (Raise e, x') => (Raise e, x')
  end.

(** A computation of the merge path, run inside. *)
Definition lift {A} (m : M A) : MX A := fun x =>
  match m (st x) with
  | (r, s) => (r, mkXSt s (xcalls x))
  end.

(** One call of the maintenance kind, recorded in [xcalls]. *)
Definition xcall {T} (c : XCall T) : MX T := fun x =>
  match xexec c (world (st x)) with
  | (r, w) => (of_lib r, mkXSt (set_world w (st x)) (xcalls x ++ [xpack c]))
  end.

Fixpoint xfor_each {A} (l : list A) (body : A -> MX unit) : MX unit :=
  match l with
  | [] => mret tt
  | a :: l' => body a;; xfor_each l' body
  end.

Definition set_working_root (r : string) (s : St) : St :=
  mkSt (world s) (repos s) r (m_email s) (m_username s)
       (initialized s) (next_oid s) (GIT_SSH s) (recent s) (calls s) (logs s).

Definition set_m_email (e : string) (s : St) : St :=
  mkSt (world s) (repos s) (working_root s) e (m_username s)
       (initialized s) (next_oid s) (GIT_SSH s) (recent s) (calls s) (logs s).

Definition set_m_username (u : string) (s : St) : St :=
  mkSt (world s) (repos s) (working_root s) (m_email s) u
       (initialized s) (next_oid s) (GIT_SSH s) (recent s) (calls s) (logs s).

End Maintenance.

Module RepoMaintenance.
Section Methods.
Context `{B : GitBackend} `{XB : !MaintenanceBackend}.
#[local] Existing Instance MX_ret.
#[local] Existing Instance MX_bind.

Definition prune (self : RepoObj) : MX unit :=
  lift (Repo.createRepoObject self);;
  lift (call (RemotesOrigin (local_path self)));;
  stale_refs ← xcall (OriginStaleRefs (local_path self));
  match stale_refs with
  | [] => mret tt
  | _ :: _ => xcall (RemoteReferenceDelete (local_path self) stale_refs)
  end.

(** [branch in origin.refs]: the list is searched by name, and the names
    [origin.refs] is listed by here are the [remote_head]s. *)
Definition hasBranch (self : RepoObj) (branch : string) : M bool :=
  Repo.createRepoObject self;;
  call (RemotesOrigin (local_path self));;
  refs ← call (OriginRefs (local_path self));
  mret (bool_decide (branch ∈ refs)).

Definition fetchFrom (self : RepoObj) (repository refspec : string)
  : MX unit :=
  lift (Repo.createRepoObject self);;
  xcall (GitFetch (local_path self) repository refspec).

Definition push (self : RepoObj) (local remote : string) : MX unit :=
  lift (Repo.createRepoObject self);;
  lift (call (RemotesOrigin (local_path self)));;
  xcall (OriginPush (local_path self) (local +:+ ":" +:+ remote)).

End Methods.
End RepoMaintenance.

Module MergerInit.
Section Methods.
Context `{B : GitBackend} `{XB : !MaintenanceBackend}.
#[local] Existing Instance MX_ret.
#[local] Existing Instance MX_bind.

Definition _makeSSHWrapper (key merge_root connection_name : string)
  : MX unit :=
  let wrapper_name := ".ssh_wrapper_" +:+ connection_name in
  let name := os_path_join merge_root wrapper_name in
  fd ← xcall (OpenW name);
  xcall (FileWrite fd ("#!/bin/bash" +:+ LF));;
  xcall (FileWrite fd ("ssh -i " +:+ key +:+ " $@" +:+ LF));;
  xcall (FileClose fd);;
  xcall (OsChmod name 493).

(** [connections.items()] is taken in the order the dict gives it. *)
Definition _makeSSHWrappers (working_root : string)
  (connections : list (string * Connection)) : MX unit :=
  xfor_each connections (fun entry =>
    let '(connection_name, connection) := entry in
    let sshkey := dict_get "sshkey" (connection_config connection) in
    if truthy_opt_str sshkey
    then _makeSSHWrapper (default "" sshkey) working_root connection_name
    else mret tt).

Definition __init__ (working_root : string)
  (connections : list (string * Connection)) (email username : string)
  : MX unit :=
  lift (modify (set_repos ∅));;
  lift (modify (set_working_root working_root));;
  there ← lift (call (OsPathExists working_root));
  (if negb there then xcall (OsMakedirs working_root) else mret tt);;
  _makeSSHWrappers working_root connections;;
  lift (modify (set_m_email email));;
  lift (modify (set_m_username username)).

End Methods.
End MergerInit.

(** ** The in-memory back end, with a file system

    The world of [Fake] together with the directories made, the files
    written through file objects, their modes, and the stale references of
    each working copy.  A path made by [os.makedirs] exists, a file opened
    for writing is a file. *)

Module FakeX.

Record XWorld := mkX {
  base : Fake.FakeWorld;
  stale : list (string * list string);
  dirs : list string;
  fds : list (nat * string);
  contents : list (string * string);
  modes : list (string * Z)
}.

Definition set_base (b : Fake.FakeWorld) (w : XWorld) : XWorld :=
  mkX b (stale w) (dirs w) (fds w) (contents w) (modes w).

Definition set_origin (x : list ((string * string) * Commit))
  (w : Fake.FakeWorld) : Fake.FakeWorld :=
  Fake.mkFake (Fake.git_dirs w) (Fake.files w) x (Fake.changes w)
    (Fake.heads w) (Fake.zuul_refs w) (Fake.HEAD w) (Fake.FETCH_HEAD w)
    (Fake.conflicts w) (Fake.faults w).

(** A call of the merge path: the two path tests also see what was made
    and written here; the rest is answered by [Fake]. *)
Definition exec_base (T : Type) (c : Call T) (w : XWorld)
  : (T + lib_exn) * XWorld :=
  match Fake.fake_exec T c (base w) with
  | (r, b) =>
      (match c in Call T return (T + lib_exn) -> (T + lib_exn) with
       | OsPathExists p => fun r =>
           match r with
           | inl there =>
               inl (there || bool_decide (p ∈ dirs w)
                    || bool_decide (p ∈ (contents w).*1))
           | inr e => inr e
           end
       | OsPathIsfile p => fun r =>
           match r with
           | inl there => inl (there || bool_decide (p ∈ (contents w).*1))
           | inr e => inr e
           end
       | _ => fun r => r
       end r,
       set_base b w)
  end.

Definition exec_maintenance (T : Type) (c : XCall T) (w : XWorld)
  : (T + lib_exn) * XWorld :=
  match c in XCall T return (T + lib_exn) * XWorld with
  | OriginStaleRefs path => (inl (default [] (dict_get path (stale w))), w)
  | RemoteReferenceDelete path refs =>
      (inl tt,
       mkX (set_origin
              (filter (fun e : (string * string) * Commit =>
                         ~ (e.1.1 = path /\ e.1.2 ∈ refs))
                      (Fake.origin (base w)))
              (base w))
           (dict_set path
              (filter (fun r => r ∉ refs) (default [] (dict_get path (stale w))))
              (stale w))
           (dirs w) (fds w) (contents w) (modes w))
  | GitFetch path repository refspec =>
      match Fake.answer (OriginFetch path (Some refspec) false false) (base w)
      with
      | (r, b) => (r, set_base b w)
      end
  | OriginPush _ _ => (inl tt, w)
  | OsMakedirs p =>
      if bool_decide (p ∈ dirs w) then (inr OSError, w)
      else (inl tt,
            mkX (base w) (stale w) (p :: dirs w) (fds w) (contents w) (modes w))
  | OpenW name =>
      let fd := length (fds w) in
      (inl fd,
       mkX (base w) (stale w) (dirs w) (fds w ++ [(fd, name)])
           (dict_set name "" (contents w)) (modes w))
  | FileWrite fd data =>
      match dict_get fd (fds w) with
      | Some name =>
          (inl tt,
           mkX (base w) (stale w) (dirs w) (fds w)
               (dict_set name
                  (default "" (dict_get name (contents w)) +:+ data)
                  (contents w))
               (modes w))
      | None => (inr ValueError, w)
      end
  | FileClose fd => (inl tt, w)
  | OsChmod name mode =>
      if bool_decide (name ∈ (contents w).*1)
      then (inl tt,
            mkX (base w) (stale w) (dirs w) (fds w) (contents w)
                (dict_set name mode (modes w)))
      else (inr OSError, w)
  end.

Definition backend : GitBackend :=
  {| World := XWorld; exec := exec_base |}.

Definition maintenance : @MaintenanceBackend backend :=
  @Build_MaintenanceBackend backend exec_maintenance.

(** Whether [p] is a file. *)
Definition is_file (w : XWorld) (p : string) : bool :=
  bool_decide (p ∈ Fake.files (base w)) || bool_decide (p ∈ (contents w).*1).

End FakeX.

(** ** Vocabulary of the further properties *)

Section Vocabulary2.
Context `{B : GitBackend}.

(** Nothing was logged between [s] and [s']. *)
Definition same_logs (s s' : St) : Prop := logs s' = logs s.

(** The process environment and the settings of the merger are the same
    in [s] and [s']. *)
Definition same_env (s s' : St) : Prop :=
  GIT_SSH s' = GIT_SSH s /\ working_root s' = working_root s /\
  m_email s' = m_email s /\ m_username s' = m_username s.

(** [version_info\[:2\] < (1, 9)]. *)
Definition before_1_9 (v : list Z) : bool := tuple_ltb (take 2 v) [1; 9].

End Vocabulary2.

(** ** Vocabulary of the maintenance properties *)

(** The calls through which a file is written. *)
Definition writes_files {T} (c : XCall T) : bool :=
  match c with
  | OpenW _ | FileWrite _ _ | FileClose _ | OsChmod _ _ => true
  | _ => false
  end.

(** Between [s] and [s'] the merge path made calls of the kinds [ks] only,
    and the registry and the dict [recent] are the same. *)
Definition footprint `{B : GitBackend} (ks : list kind) (s s' : St) : Prop :=
  (exists n, calls s' = calls s ++ n /\
     Forall (fun k => kind_of k ∈ ks) n) /\
  repos s' = repos s /\ recent s' = recent s.

(** The calls of [l] all write files. *)
Definition all_write (l : list AXCall) : Prop :=
  Forall (fun k : AXCall => writes_files (projT2 k) = true) l.

(** The path of the wrapper of a connection. *)
Definition wrapper_path (root connection_name : string) : string :=
  os_path_join root (".ssh_wrapper_" +:+ connection_name).

(** The calls that write the wrapper of a connection through the file
    object [fd]. *)
Definition wrapper_calls (root : string) (entry : string * string) (fd : nat)
  : list AXCall :=
  let '(connection_name, key) := entry in
  [xpack (OpenW (wrapper_path root connection_name));
   xpack (FileWrite fd ("#!/bin/bash" +:+ LF));
   xpack (FileWrite fd ("ssh -i " +:+ key +:+ " $@" +:+ LF));
   xpack (FileClose fd);
   xpack (OsChmod (wrapper_path root connection_name) 493)].

(** The connections that have a key, each with its key. *)
Definition keyed (connections : list (string * Connection))
  : list (string * string) :=
  omap (fun entry : string * Connection =>
          match dict_get "sshkey" (connection_config entry.2) with
          | Some key => if truthy_str key then Some (entry.1, key) else None
          | None => None
          end) connections.

(** What is assumed of files: [os.path.isfile] answers from the files
    there are; a file opened for writing is one; opening, writing, closing
    and [chmod] remove no file. *)
Class WrapperLaws `{B : GitBackend} `{XB : !MaintenanceBackend} := {
  is_file : World -> string -> bool;
  isfile_reads : forall p w b w',
    exec (OsPathIsfile p) w = (inl b, w') -> b = is_file w p;
  open_makes_file : forall name w fd w',
    xexec (OpenW name) w = (inl fd, w') -> is_file w' name = true;
  file_kept : forall T (c : XCall T) w p,
    writes_files c = true -> is_file w p = true ->
    is_file (xexec c w).2 p = true
}.

(** ** More sample worlds *)

Module Scenario2.
Import Scenario.

#[local] Existing Instance Fake.fake_backend.
#[local] Existing Instance Fake.zuul_model.

(** The server cannot be reached: every clone fails. *)
Definition is_clone (c : ACall) : bool :=
  match projT2 c with
  | CloneFrom _ _ => true
  | _ => false
  end.

Definition s_unreachable : St :=
  fresh (Fake.set_faults [(is_clone, GitCommandError 128)] world0).

(** A change on a branch the remote does not have. *)
Definition item_no_branch : Item :=
  mkItem "p1" (Some "git://p1") "stable" "Z5" "refs/changes/1" 1 "gerrit".

(** A merger whose wrapper for the connection [gerrit] is on disk, and
    whose environment still names another wrapper. *)
Definition s_wrapped : St :=
  set_GIT_SSH (Some "/w/.ssh_wrapper_old")
    (fresh (Fake.mkFake [] ["/w/.ssh_wrapper_gerrit"] (Fake.origin world0)
              (Fake.changes world0) [] [] [] [] [] [])).

End Scenario2.

Module ScenarioX.

#[local] Existing Instance FakeX.backend.
#[local] Existing Instance FakeX.maintenance.
#[local] Existing Instance Fake.zuul_model.

(** The server of [Scenario], where the branch [gone] of [p1] was deleted
    upstream; no directory and no file yet. *)
Definition xworld0 : FakeX.XWorld :=
  FakeX.mkX
    (FakeX.set_origin ((("/w/p1", "gone"), mkCommit "g") ::
                       Fake.origin Scenario.world0) Scenario.world0)
    [("/w/p1", ["gone"])] [] [] [] [].

(** Before a [Merger] is made. *)
Definition x0 : XSt :=
  mkXSt (mkSt xworld0 ∅ "" "" "" ∅ 0%nat None [] [] []) [].

Definition connections0 : list (string * Connection) :=
  [("gerrit", mkConnection [("server", "review.example.org");
                            ("sshkey", "/keys/gerrit")]);
   ("github", mkConnection [("server", "github.com")]);
   ("mirror", mkConnection [("sshkey", "")]);
   ("build", mkConnection [("sshkey", "/keys/build")])].

(** The [Merger] made on [/w] with these connections. *)
Definition x_made : XSt :=
  (MergerInit.__init__ "/w" connections0 "zuul@example.org" "zuul" x0).2.

(** The same, with [p1] cloned. *)
Definition x_p1 : XSt :=
  (lift (Merger.getRepo "p1" (Some "git://p1")) x_made).2.

(** The queue of change 1 processed: the reset has made the local heads
    [master] and [gone] of [p1]. *)
Definition x_merged : XSt :=
  (lift (Merger.mergeChanges [Scenario.item1]) x_made).2.

(** Then the references of [p1] are pruned: the remote-tracking reference
    of [gone] is deleted. *)
Definition x_pruned : XSt :=
  (RepoMaintenance.prune Scenario.repo1 x_merged).2.

(** A change on the branch that is gone. *)
Definition item_gone : Item :=
  mkItem "p1" (Some "git://p1") "gone" "Z6" "refs/changes/2" 1 "gerrit".

End ScenarioX.

(** ** The in-memory back end, with tags

    The world of [Fake] together with the tags of the server and the tags
    of each working copy.  A fetch with [tags=True] brings the tags of the
    server into the working copy.  The look-ups by short name go through
    the references in the order of their paths, as [repo.refs] lists them:
    [refs/heads], then [refs/tags], then [refs/zuul]; the first reference
    of the name answers.  (Remote-tracking references have short names
    that begin with [origin/] and are left out.) *)

Module FakeT.

Record TWorld := mkT {
  base : Fake.FakeWorld;
  remote_tags : list ((string * string) * Commit);
  tags : list ((string * string) * Commit)
}.

Definition set_base (b : Fake.FakeWorld) (w : TWorld) : TWorld :=
  mkT b (remote_tags w) (tags w).

(** The commit of the first reference of the short name [name]. *)
Definition lookup (w : TWorld) (path name : string) : option Commit :=
  match dict_get (path, name) (Fake.heads (base w)) with
  | Some c => Some c
  | None =>
      match dict_get (path, name) (tags w) with
      | Some c => Some c
      | None => Fake.fake_marker (base w) path name
      end
  end.

(** The tags of the working copy [path] after the tags of its server were
    fetched. *)
Definition fetched_tags (w : TWorld) (path : string)
  : list ((string * string) * Commit) :=
  foldl (fun acc (e : (string * string) * Commit) =>
           if decide (e.1.1 = path) then dict_set e.1 e.2 acc else acc)
        (tags w) (remote_tags w).

Definition answer {T} (c : Call T) (w : TWorld) : (T + lib_exn) * TWorld :=
  match c in Call T
    return (T + lib_exn) * Fake.FakeWorld -> (T + lib_exn) * TWorld with
  | RefsContains path refname => fun _ =>
      (inl (bool_decide (is_Some (lookup w path refname))), w)
  | RefsCommit path refname => fun _ =>
      match lookup w path refname with
      | Some c => (inl c, w)
      | None => (inr IndexError, w)
      end
  | OriginFetch path _ with_tags _ => fun rb =>
      match rb.1 with
      | inl _ =>
          (rb.1,
           mkT rb.2 (remote_tags w)
               (if with_tags then fetched_tags w path else tags w))
      | inr _ => (rb.1, set_base rb.2 w)
      end
  | _ => fun rb => (rb.1, set_base rb.2 w)
  end (Fake.answer c (base w)).

Definition exec_tags (T : Type) (c : Call T) (w : TWorld)
  : (T + lib_exn) * TWorld :=
  match Fake.take_fault (pack c) (Fake.faults (base w)) with
  | Some (e, rest) => (inr e, set_base (Fake.set_faults rest (base w)) w)
  | None => answer c w
  end.

Definition backend : GitBackend :=
  {| World := TWorld; exec := exec_tags |}.

(** The reference [refs/zuul/name] of the working copy [path]. *)
Definition zuul_marker (w : TWorld) (path name : string) : option Commit :=
  Fake.fake_marker (base w) path name.

End FakeT.

Module ScenarioT.

#[local] Existing Instance FakeT.backend.
#[local] Existing Instance Fake.zuul_model.

(** The server of [Scenario], without tags; [p1] cloned. *)
Definition t_p1 : St :=
  (Merger.getRepo "p1" (Some "git://p1")
     (mkSt (FakeT.mkT Scenario.world0 [] []) ∅ "/w" "zuul@example.org" "zuul"
           ∅ 0%nat None [] [] [])).2.

(** Then somebody pushes the tag [master/Z1] to the server of [p1]. *)
Definition t_tagged : St :=
  set_world (FakeT.mkT (FakeT.base (world t_p1))
               [(("/w/p1", "master/Z1"), mkCommit "t")] [])
            t_p1.

End ScenarioT.

(** * Reasoning about runs *)

Section RunLemmas.
Context `{B : GitBackend}.

Lemma bind_run {A C} (m : M A) (f : A -> M C) s :
  (m ≫= f) s =
  match m s with
  | (Ret a, s1) => f a s1
  | (Raise e, s1) => (Raise e, s1)
  end.
Proof. reflexivity. Qed.

Lemma bind_inv {A C} (m : M A) (f : A -> M C) s r s' :
  (m ≫= f) s = (r, s') ->
  (exists a s1, m s = (Ret a, s1) /\ f a s1 = (r, s')) \/
  (exists e, m s = (Raise e, s') /\ r = Raise e).
Proof.
  rewrite bind_run. destruct (m s) as [[a|e] s1]; intros H.
  - left. eauto.
  - right. inversion H; subst. eauto.
Qed.

Lemma try_except_inv {A} (m : M A) h s r s' :
  try_except m h s = (r, s') ->
  (exists a, m s = (Ret a, s') /\ r = Ret a) \/
  (exists e s1, m s = (Raise e, s1) /\
     match h e with
     | Some k => k s1 = (r, s')
     | None => r = Raise e /\ s' = s1
     end).
Proof.
  unfold try_except. destruct (m s) as [[a|e] s1]; intros H.
  - left. inversion H; subst. eauto.
  - right. exists e, s1. split; [done|].
    destruct (h e); [done|]. inversion H; subst. done.
Qed.

Section Pres.
Context (R : St -> St -> Prop) `{!PreOrder R}.

Lemma pres_ret {A} (a : A) : pres R (mret a).
Proof. intros s r s' H. inversion H; subst. reflexivity. Qed.

Lemma pres_raise {A} e : pres R (@raise _ A e).
Proof. intros s r s' H. inversion H; subst. reflexivity. Qed.

Lemma pres_get_st : pres R get_st.
Proof. intros s r s' H. inversion H; subst. reflexivity. Qed.

Lemma pres_bind {A C} (m : M A) (f : A -> M C) :
  pres R m -> (forall a, pres R (f a)) -> pres R (m ≫= f).
Proof.
  intros Hm Hf s r s' H. apply bind_inv in H as [(a & s1 & H1 & H2)|(e & H1 & _)].
  - etrans; [eapply Hm, H1 | eapply Hf, H2].
  - eapply Hm, H1.
Qed.

Lemma pres_try_except {A} (m : M A) h :
  pres R m -> (forall e k, h e = Some k -> pres R k) ->
  pres R (try_except m h).
Proof.
  intros Hm Hh s r s' H.
  apply try_except_inv in H as [(a & H1 & _)|(e & s1 & H1 & H2)].
  - eapply Hm, H1.
  - destruct (h e) as [k|] eqn:E.
    + etrans; [eapply Hm, H1 | eapply Hh; [exact E | exact H2]].
    + destruct H2 as [_ ->]. eapply Hm, H1.
Qed.

Lemma pres_try_finally {A} (m : M A) fin :
  pres R m -> pres R fin -> pres R (try_finally m fin).
Proof.
  intros Hm Hf s r s' H. unfold try_finally in H.
  destruct (m s) as [r1 s1] eqn:E1. destruct (fin s1) as [[u|e] s2] eqn:E2;
    inversion H; subst; (etrans; [eapply Hm, E1 | eapply Hf, E2]).
Qed.

Lemma pres_for_each {A} (l : list A) (body : A -> M unit) :
  (forall x, pres R (body x)) -> pres R (for_each l body).
Proof.
  intros Hb. induction l as [|x l IH]; simpl.
  - apply pres_ret.
  - apply pres_bind; [apply Hb | intros _; exact IH].
Qed.

Lemma pres_for_in {A V W} (l : list A) (v : V)
  (body : A -> V -> M (flow W V)) :
  (forall x v, pres R (body x v)) -> pres R (for_in l v body).
Proof.
  intros Hb. revert v. induction l as [|x l IH]; intros v; simpl.
  - apply pres_ret.
  - apply pres_bind; [apply Hb | intros [r|v']; [apply pres_ret | apply IH]].
Qed.

End Pres.

Lemma pres_weaken (R R' : St -> St -> Prop) {A} (m : M A) :
  (forall s s', R s s' -> R' s s') -> pres R m -> pres R' m.
Proof. intros HR Hm s r s' H. eapply HR, Hm, H. Qed.

(** [steps] and [within] are preorders, and grow with the kinds. *)
Lemma steps_trans ks x y z : steps ks x y -> steps ks y z -> steps ks x z.
Proof.
  intros Hxy Hyz. induction Hyz; [done|].
  apply steps_call; auto.
Qed.

Lemma steps_mono ks ks' x y : ks ⊆ ks' -> steps ks x y -> steps ks' x y.
Proof.
  intros Hsub H. induction H; [apply steps_refl|].
  apply steps_call; auto.
Qed.

Lemma steps_calls ks w l w' l' :
  steps ks (w, l) (w', l') ->
  exists n, l' = l ++ n /\ Forall (fun c => kind_of c ∈ ks) n.
Proof.
  intros H. remember (w, l) as x eqn:Ex. remember (w', l') as y eqn:Ey.
  revert w' l' Ey. induction H as [x|x w1 l1 T c H IH Hk]; intros w' l' Ey; subst.
  - inversion Ey; subst. exists []. rewrite app_nil_r. split; [done|constructor].
  - inversion Ey; subst. destruct (IH eq_refl _ _ eq_refl) as (n & -> & Hn).
    exists (n ++ [pack c]). rewrite app_assoc. split; [done|].
    apply Forall_app. split; [done|]. constructor; [exact Hk|constructor].
Qed.

#[global] Instance within_preorder ks : PreOrder (within ks).
Proof.
  split.
  - intros s. repeat split; [apply steps_refl|done].
  - intros s1 s2 s3 (H1 & H2 & H3) (H4 & H5 & H6). repeat split.
    + eapply steps_trans; eauto.
    + etrans; eauto.
    + congruence.
Qed.

#[global] Instance calm_preorder ks : PreOrder (calm ks).
Proof.
  split.
  - intros s. split; reflexivity.
  - intros s1 s2 s3 [H1 H2] [H3 H4]. split; [by etrans|congruence].
Qed.

#[global] Instance quiet_preorder ks : PreOrder (quiet ks).
Proof.
  split.
  - intros s. split; reflexivity.
  - intros s1 s2 s3 [H1 H2] [H3 H4]. split; [by etrans|congruence].
Qed.

Lemma within_mono ks ks' s s' : ks ⊆ ks' -> within ks s s' -> within ks' s s'.
Proof. intros Hsub (H1 & H2 & H3). repeat split; eauto using steps_mono. Qed.

Lemma within_calls ks s s' :
  within ks s s' ->
  exists n, calls s' = calls s ++ n /\ Forall (fun c => kind_of c ∈ ks) n.
Proof. intros (H & _). eapply steps_calls, H. Qed.

Lemma pres_within_mono ks ks' {A} (m : M A) :
  ks ⊆ ks' -> pres (within ks) m -> pres (within ks') m.
Proof. intros Hsub. apply pres_weaken. intros s s'. by apply within_mono. Qed.

(** The primitive steps. *)
Lemma call_within {T} (c : Call T) ks :
  kind_of_call c ∈ ks -> pres (within ks) (call c).
Proof.
  intros Hk s r s' H. unfold call in H.
  destruct (exec c (world s)) as [r0 w] eqn:E.
  assert (Hs : s' = set_calls (calls s ++ [pack c]) (set_world w s))
    by (destruct r0; inversion H; done).
  subst s'. repeat split; simpl; [|done].
  replace w with (exec c (world s)).2 by (rewrite E; done).
  apply steps_call; [apply steps_refl | exact Hk].
Qed.

Lemma call_quiet {T} (c : Call T) ks :
  kind_of_call c ∈ ks -> pres (quiet ks) (call c).
Proof.
  intros Hk s r s' H. split; [split|]; [eapply call_within; eauto|..];
    unfold call in H; destruct (exec c (world s)) as [[v|e] w];
    inversion H; subst; reflexivity.
Qed.

Lemma modify_pres (R : St -> St -> Prop) f :
  (forall s, R s (f s)) -> pres R (modify f).
Proof. intros Hf s r s' H. inversion H; subst. apply Hf. Qed.

Lemma quiet_refl_on ks s s' :
  world s' = world s -> calls s' = calls s -> repos s' = repos s ->
  working_root s' = working_root s -> recent s' = recent s ->
  quiet ks s s'.
Proof.
  intros Hw Hc Hr Hwr Hre. repeat split; try done.
  - rewrite Hw, Hc. apply steps_refl.
  - by rewrite Hr.
Qed.

Lemma log_quiet ks r : pres (quiet ks) (log r).
Proof. apply modify_pres. intros s. by apply quiet_refl_on. Qed.

Lemma quiet_calm ks ks' s s' : ks ⊆ ks' -> quiet ks s s' -> calm ks' s s'.
Proof. intros Hsub [[H1 H2] _]. split; [by eapply within_mono|done]. Qed.

Lemma quiet_mono ks ks' s s' : ks ⊆ ks' -> quiet ks s s' -> quiet ks' s s'.
Proof. intros Hsub [H1 H2]. split; [|done]. eapply quiet_calm; [done|by split]. Qed.

Lemma calm_mono ks ks' s s' : ks ⊆ ks' -> calm ks s s' -> calm ks' s s'.
Proof. intros Hsub [H1 H2]. split; [by eapply within_mono|done]. Qed.

Lemma calm_within ks ks' s s' : ks ⊆ ks' -> calm ks s s' -> within ks' s s'.
Proof. intros Hsub [H1 _]. by eapply within_mono. Qed.

Lemma quiet_within ks ks' s s' : ks ⊆ ks' -> quiet ks s s' -> within ks' s s'.
Proof. intros Hsub [H1 _]. by eapply calm_within. Qed.

Lemma call_calls {T} (c : Call T) s r s' :
  call c s = (r, s') -> calls s' = calls s ++ [pack c].
Proof.
  unfold call. destruct (exec c (world s)) as [r0 w]. intros H.
  by inversion H; subst.
Qed.

End RunLemmas.

(** Walking through a computation to show that it preserves a relation. *)
Ltac pres_handler :=
  match goal with
  | H : _ = Some _ |- _ => simpl in H; repeat case_match; simplify_eq
  end.

Ltac pres_step leaf :=
  lazymatch goal with
  | |- pres _ (mret _) => apply pres_ret; tc_solve
  | |- pres _ (raise _) => apply pres_raise; tc_solve
  | |- pres _ get_st => apply pres_get_st; tc_solve
  | |- pres _ (_ ≫= _) => apply pres_bind; [tc_solve| |intros ?]
  | |- pres _ (try_except _ _) =>
      apply pres_try_except; [tc_solve| |intros ? ? ?; pres_handler]
  | |- pres _ (try_finally _ _) => apply pres_try_finally; [tc_solve|..]
  | |- pres _ (for_each _ _) => apply pres_for_each; [tc_solve|intros ?]
  | |- pres _ (for_in _ _ _) => apply pres_for_in; [tc_solve|intros ? ?]
  | |- pres _ (if ?b then _ else _) => destruct b
  | |- pres _ (match ?x with _ => _ end) => destruct x
  | |- _ => leaf
  end.

Ltac quiet_leaf :=
  first
    [ apply call_quiet; compute_done
    | apply log_quiet
    | apply modify_pres; intros ?; by apply quiet_refl_on
    | solve [eauto with quiet]
    | eapply pres_weaken; [|solve [eauto with quiet]];
      intros ? ?; apply quiet_mono; compute_done ].

Ltac quiet_auto := repeat pres_step quiet_leaf.

Create HintDb quiet.

Section RepoRuns.
Context `{B : GitBackend}.

Lemma get__initialized_quiet ks self : pres (quiet ks) (Repo.get__initialized self).
Proof. intros s r s' H. inversion H; subst. reflexivity. Qed.

Lemma set__initialized_quiet ks self b :
  pres (quiet ks) (Repo.set__initialized self b).
Proof. apply modify_pres. intros s. by apply quiet_refl_on. Qed.

Hint Resolve get__initialized_quiet set__initialized_quiet : quiet.

Lemma _ensure_cloned_quiet self :
  pres (quiet [KOs; KSetup]) (Repo._ensure_cloned self).
Proof. unfold Repo._ensure_cloned. quiet_auto. Qed.

Hint Resolve _ensure_cloned_quiet : quiet.

Lemma __init___quiet remote local email username :
  pres (quiet [KOs; KSetup]) (Repo.__init__ remote local email username).
Proof.
  unfold Repo.__init__. quiet_auto.
Qed.

Lemma createRepoObject_quiet self :
  pres (quiet [KOs; KSetup]) (Repo.createRepoObject self).
Proof. unfold Repo.createRepoObject. quiet_auto. Qed.

Hint Resolve createRepoObject_quiet : quiet.

Lemma reset_repo_to_head_quiet path :
  pres (quiet [KCheckout]) (reset_repo_to_head path).
Proof. unfold reset_repo_to_head. quiet_auto. Qed.

Hint Resolve reset_repo_to_head_quiet : quiet.

Lemma update_quiet self :
  pres (quiet [KOs; KSetup; KRead; KFetch]) (Repo.update self).
Proof. unfold Repo.update. quiet_auto. Qed.

Hint Resolve update_quiet : quiet.

Lemma reset_quiet self :
  pres (quiet [KOs; KSetup; KRead; KFetch; KBranch; KCheckout])
       (Repo.reset self).
Proof. unfold Repo.reset. quiet_auto. Qed.

Lemma getBranchHead_quiet self branch :
  pres (quiet [KOs; KSetup; KRead]) (Repo.getBranchHead self branch).
Proof. unfold Repo.getBranchHead. quiet_auto. Qed.

Lemma getCommitFromRef_quiet self refname :
  pres (quiet [KOs; KSetup; KRead]) (Repo.getCommitFromRef self refname).
Proof. unfold Repo.getCommitFromRef. quiet_auto. Qed.

Lemma checkout_quiet self ref :
  pres (quiet [KOs; KSetup; KRead; KCheckout]) (Repo.checkout self ref).
Proof. unfold Repo.checkout. quiet_auto. Qed.

Lemma fetch_quiet self ref :
  pres (quiet [KOs; KSetup; KRead; KFetch]) (Repo.fetch self ref).
Proof. unfold Repo.fetch. quiet_auto. Qed.

Hint Resolve fetch_quiet : quiet.

Lemma cherryPick_quiet self ref :
  pres (quiet [KOs; KSetup; KRead; KFetch; KCherryPick])
       (Repo.cherryPick self ref).
Proof. unfold Repo.cherryPick. quiet_auto. Qed.

Lemma merge_quiet self ref strategy :
  pres (quiet [KOs; KSetup; KRead; KFetch; KMerge])
       (Repo.merge self ref strategy).
Proof. unfold Repo.merge. quiet_auto. Qed.

Lemma createZuulRef_quiet self ref commit :
  pres (quiet [KOs; KSetup; KRead; KMarker]) (Repo.createZuulRef self ref commit).
Proof. unfold Repo.createZuulRef. quiet_auto. Qed.

End RepoRuns.

#[global] Hint Resolve get__initialized_quiet set__initialized_quiet
  _ensure_cloned_quiet __init___quiet createRepoObject_quiet
  reset_repo_to_head_quiet update_quiet reset_quiet getBranchHead_quiet
  getCommitFromRef_quiet checkout_quiet fetch_quiet cherryPick_quiet
  merge_quiet createZuulRef_quiet : quiet.

Ltac calm_leaf :=
  first
    [ solve [eauto with calm]
    | eapply pres_weaken; [|solve [eauto with quiet]];
      intros ? ?; apply quiet_calm; compute_done
    | eapply pres_weaken; [|apply call_quiet; compute_done];
      intros ? ?; apply quiet_calm; compute_done
    | eapply pres_weaken; [|apply log_quiet];
      intros ? ?; apply (quiet_calm []); compute_done
    | eapply pres_weaken; [|solve [eauto with calm]];
      intros ? ?; apply calm_mono; compute_done ].

Ltac calm_auto := repeat pres_step calm_leaf.

Create HintDb calm.

Section MergerRuns.
Context `{B : GitBackend} `{ZM : ZuulModel}.

(** [Repo(...)] always gives an object: [__init__] swallows what
    [_ensure_cloned] raises. *)
Lemma __init___returns remote local em un s :
  exists self s',
    Repo.__init__ remote local em un s = (Ret self, s') /\
    local_path self = local /\ remote_url self = remote.
Proof.
  unfold Repo.__init__. rewrite bind_run. simpl.
  rewrite bind_run. simpl. rewrite bind_run. simpl. rewrite bind_run.
  unfold try_except.
  match goal with |- context [Repo._ensure_cloned ?o ?st] =>
    destruct (Repo._ensure_cloned o st) as [[[]|e] s1] end; simpl; eauto.
Qed.

(** What [addProject] does: the object is made, possibly cloned, and then
    registered. *)
Lemma addProject_run p u s :
  exists repo s1,
    Merger.addProject p u s =
      (Ret (Some repo), set_repos (<[p := repo]> (repos s1)) s1) /\
    quiet [KOs; KSetup] s s1 /\
    local_path repo = os_path_join (working_root s) p.
Proof.
  unfold Merger.addProject, try_except. rewrite bind_run. simpl.
  rewrite bind_run.
  destruct (__init___returns u (os_path_join (working_root s) p)
              (m_email s) (m_username s) s) as (repo & s1 & E & Hp & _).
  rewrite E. simpl. exists repo, s1. split; [done|]. split; [|done].
  eapply __init___quiet, E.
Qed.

Lemma getRepo_run p url s :
  (exists repo, repos s !! p = Some repo /\
     Merger.getRepo p url s = (Ret (Some repo), s)) \/
  (repos s !! p = None /\ truthy_opt_str url = false /\
     Merger.getRepo p url s = (Raise (NoUrlException p), s)) \/
  (repos s !! p = None /\ truthy_opt_str url = true /\
     exists repo s1,
       Merger.getRepo p url s =
         (Ret (Some repo), set_repos (<[p := repo]> (repos s1)) s1) /\
       quiet [KOs; KSetup] s s1 /\
       local_path repo = os_path_join (working_root s) p).
Proof.
  unfold Merger.getRepo. rewrite bind_run. simpl.
  destruct (repos s !! p) as [repo|] eqn:E.
  - left. eauto.
  - right. destruct (truthy_opt_str url) eqn:Eu; simpl.
    + right. repeat split; try done. apply addProject_run.
    + left. done.
Qed.

Lemma getRepo_calm p url : pres (calm [KOs; KSetup]) (Merger.getRepo p url).
Proof.
  intros s r s' H.
  destruct (getRepo_run p url s) as
    [(repo & E & Hr)|[(E & Hu & Hr)|(E & Hu & repo & s1 & Hr & Hq & Hp)]];
    rewrite Hr in H; inversion H; subst; try reflexivity.
  destruct Hq as [[(H1 & H2 & H3) H4] H5]. repeat split; simpl; try done.
  rewrite H5. by apply insert_subseteq.
Qed.

(** After [getRepo] the project is registered, and the handle it gives is
    the registered one. *)
Lemma getRepo_registered p url s o s' :
  Merger.getRepo p url s = (Ret o, s') ->
  exists repo, o = Some repo /\ repos s' !! p = Some repo.
Proof.
  intros H.
  destruct (getRepo_run p url s) as
    [(repo & E & Hr)|[(E & Hu & Hr)|(E & Hu & repo & s1 & Hr & Hq & Hp)]];
    rewrite Hr in H; inversion H; subst; eauto.
  exists repo. split; [done|]. simpl. apply lookup_insert_eq.
Qed.

Lemma getRepo_known p url s repo :
  repos s !! p = Some repo -> Merger.getRepo p url s = (Ret (Some repo), s).
Proof.
  intros E. unfold Merger.getRepo. rewrite bind_run. simpl. by rewrite E.
Qed.

Hint Resolve getRepo_calm : calm.

Lemma _setGitSsh_quiet name : pres (quiet [KOs]) (Merger._setGitSsh name).
Proof.
  unfold Merger._setGitSsh. quiet_auto.
Qed.

Lemma updateRepo_calm p url :
  pres (calm [KOs; KSetup; KRead; KFetch]) (Merger.updateRepo p url).
Proof. unfold Merger.updateRepo, Merger.on_repo. calm_auto. Qed.

Lemma _mergeChange_calm item base :
  pres (calm [KOs; KSetup; KRead; KFetch; KCheckout; KMerge; KCherryPick])
       (Merger._mergeChange item base).
Proof. unfold Merger._mergeChange, Merger.on_repo. calm_auto. Qed.

Lemma recent_get_quiet ks key : pres (quiet ks) (Merger.recent_get key).
Proof. intros s r s' H. inversion H; subst. reflexivity. Qed.

Lemma publish_calm item :
  pres (calm [KOs; KSetup; KRead; KMarker]) (Merger.publish item).
Proof. unfold Merger.publish, Merger.on_repo. calm_auto. Qed.

End MergerRuns.

#[global] Hint Resolve getRepo_calm updateRepo_calm _mergeChange_calm
  publish_calm : calm.
#[global] Hint Resolve _setGitSsh_quiet recent_get_quiet : quiet.

(** ** Dicts *)

Section Dicts.
Context {K V : Type} `{EqDecision K}.
Implicit Types (d : list (K * V)) (k : K) (v : V).

Lemma dict_get_set_eq k v d : dict_get k (dict_set k v d) = Some v.
Proof.
  induction d as [|[k' v'] d IH]; simpl.
  - by rewrite decide_True.
  - destruct (decide (k' = k)); simpl.
    + by rewrite decide_True.
    + by rewrite decide_False.
Qed.

Lemma dict_get_set_ne k k' v d :
  k' <> k -> dict_get k' (dict_set k v d) = dict_get k' d.
Proof.
  intros Hne. induction d as [|[k0 v0] d IH]; simpl.
  - by rewrite decide_False.
  - destruct (decide (k0 = k)) as [->|]; simpl.
    + by rewrite !decide_False.
    + destruct (decide (k0 = k')); done.
Qed.

Lemma dict_get_elem k v d : dict_get k d = Some v -> (k, v) ∈ d.
Proof.
  induction d as [|[k' v'] d IH]; simpl; [done|].
  destruct (decide (k' = k)) as [->|].
  - intros [= ->]. apply list_elem_of_here.
  - intros H. apply list_elem_of_further. auto.
Qed.

Lemma dict_set_keys k v d :
  (dict_set k v d).*1 = d.*1 \/
  ((k ∉ d.*1) /\ (dict_set k v d).*1 = d.*1 ++ [k]).
Proof.
  induction d as [|[k' v'] d IH]; csimpl.
  - right. split; [apply not_elem_of_nil|done].
  - destruct (decide (k' = k)) as [->|Hne]; csimpl; [by left|].
    destruct IH as [->|[Hni ->]]; [by left|]. right. split; [|done].
    rewrite elem_of_cons. intros [?|?]; [by subst|done].
Qed.

Lemma dict_set_NoDup k v d : NoDup d.*1 -> NoDup (dict_set k v d).*1.
Proof.
  intros Hd. destruct (dict_set_keys k v d) as [->|[Hni ->]]; [done|].
  apply NoDup_app. repeat split; [done| |apply NoDup_singleton].
  intros x Hx Hx'. apply list_elem_of_singleton in Hx'. by subst.
Qed.

Lemma dict_set_elem k v k' v' d :
  (k', v') ∈ dict_set k v d -> (k', v') = (k, v) \/ (k', v') ∈ d.
Proof.
  induction d as [|[k0 v0] d IH]; simpl.
  - intros H%list_elem_of_singleton. by left.
  - destruct (decide (k0 = k)) as [->|Hne].
    + rewrite !elem_of_cons. intros [?|?]; [by left|right; by right].
    + rewrite !elem_of_cons. intros [?|Hin]; [right; by left|].
      destruct (IH Hin) as [?|?]; [by left|right; by right].
Qed.

Lemma dict_elem_get k v d : NoDup d.*1 -> (k, v) ∈ d -> dict_get k d = Some v.
Proof.
  induction d as [|[k' v'] d IH]; csimpl.
  - intros _ H. by apply elem_of_nil in H.
  - intros Hd H. apply NoDup_cons in Hd as [Hni Hd].
    apply elem_of_cons in H as [[= <- <-]|H].
    + by rewrite decide_True.
    + destruct (decide (k' = k)) as [->|]; [|by apply IH].
      exfalso. apply Hni. apply list_elem_of_fmap. by exists (k, v).
Qed.

End Dicts.

Lemma distinct_paths_inj (m : gmap string RepoObj) p1 p2 r1 r2 :
  distinct_paths m ->
  m !! p1 = Some r1 -> m !! p2 = Some r2 ->
  local_path r1 = local_path r2 -> p1 = p2.
Proof.
  intros Hd H1 H2 Hp.
  apply elem_of_map_to_list, list_elem_of_lookup in H1 as [i Hi].
  apply elem_of_map_to_list, list_elem_of_lookup in H2 as [j Hj].
  assert (i = j) as ->.
  { eapply NoDup_lookup; [exact Hd| |].
    - rewrite list_lookup_fmap. rewrite Hi. done.
    - rewrite list_lookup_fmap. rewrite Hj. simpl. by rewrite Hp. }
  congruence.
Qed.

(** ** The in-memory back end keeps the laws *)

Section FakeLaws.
#[local] Existing Instance Fake.fake_backend.

Lemma fake_exec_refs T (c : Call T) w :
  kind_of_call c <> KMarker ->
  Fake.zuul_refs (Fake.fake_exec T c w).2 = Fake.zuul_refs w.
Proof.
  intros Hk. unfold Fake.fake_exec.
  destruct (Fake.take_fault _ _) as [[e rest]|]; [done|].
  destruct c; simpl in *; try done; unfold Fake.combine_heads;
    repeat case_match; done.
Qed.

Lemma fake_marker_create path co name c force w full w' :
  exec (ReferenceCreate path ZuulReference._common_path_default co name
          (TargetCommit c) force) w = (inl full, w') ->
  Fake.fake_marker w' path name = Some c.
Proof.
  intros H. simpl in H. unfold Fake.fake_exec in H.
  destruct (Fake.take_fault _ _) as [[e rest]|]; [done|].
  simpl in H. unfold Fake.fake_marker.
  repeat case_match; simplify_eq; simpl; apply dict_get_set_eq.
Qed.

Lemma fake_marker_create_other path co name t force w path' name' :
  (path', name') <> (path, name) ->
  Fake.fake_marker
    (exec (ReferenceCreate path ZuulReference._common_path_default co name
             t force) w).2 path' name' = Fake.fake_marker w path' name'.
Proof.
  intros Hne. simpl. unfold Fake.fake_exec.
  destruct (Fake.take_fault _ _) as [[e rest]|]; [done|].
  simpl. unfold Fake.fake_marker.
  assert (Hk : (path', "refs/zuul/" +:+ name') <>
               (path, ZuulReference._common_path_default +:+ "/" +:+ name)).
  { unfold ZuulReference._common_path_default. simpl.
    intros [= -> E]. cbv [String.append] in E. subst. by apply Hne. }
  repeat case_match; simplify_eq; simpl; try done;
    by apply dict_get_set_ne.
Qed.

Lemma fake_marker_frame T (c : Call T) w path name :
  kind_of_call c <> KMarker ->
  Fake.fake_marker (exec c w).2 path name = Fake.fake_marker w path name.
Proof.
  intros Hk. simpl. unfold Fake.fake_marker. by rewrite fake_exec_refs.
Qed.

Definition fake_marker_laws : MarkerLaws :=
  {| marker := Fake.fake_marker;
     marker_create := fake_marker_create;
     marker_create_other := fake_marker_create_other;
     marker_frame := fake_marker_frame |}.

End FakeLaws.

(** The back end with tags keeps them too; there the look-up is the one
    through heads, tags and marker references. *)

Section FakeTLaws.
#[local] Existing Instance FakeT.backend.

Lemma faket_answer_refs T (c : Call T) w :
  kind_of_call c ∈ [KOs; KSetup; KRead] ->
  Fake.heads (FakeT.base (FakeT.answer c w).2) = Fake.heads (FakeT.base w) /\
  FakeT.tags (FakeT.answer c w).2 = FakeT.tags w /\
  Fake.zuul_refs (FakeT.base (FakeT.answer c w).2)
  = Fake.zuul_refs (FakeT.base w).
Proof.
  intros Hk.
  destruct c; simpl in *; try (exfalso; revert Hk; compute_done);
    repeat case_match; simpl; done.
Qed.

Lemma faket_answer_lookup T (c : Call T) w path name :
  kind_of_call c ∈ [KOs; KSetup; KRead] ->
  FakeT.lookup (FakeT.answer c w).2 path name = FakeT.lookup w path name.
Proof.
  intros Hk. destruct (faket_answer_refs T c w Hk) as (H1 & H2 & H3).
  unfold FakeT.lookup, Fake.fake_marker. by rewrite H1, H2, H3.
Qed.

Lemma faket_refs_contains_found path name w c b w' :
  FakeT.lookup w path name = Some c ->
  exec (RefsContains path name) w = (inl b, w') -> b = true.
Proof.
  intros Hm H. simpl in H. unfold FakeT.exec_tags in H.
  destruct (Fake.take_fault _ _) as [[e rest]|]; [done|].
  simpl in H. inversion H; subst. rewrite Hm. done.
Qed.

Lemma faket_refs_commit_named path name w c w' :
  exec (RefsCommit path name) w = (inl c, w') ->
  FakeT.lookup w path name = Some c.
Proof.
  intros H. simpl in H. unfold FakeT.exec_tags in H.
  destruct (Fake.take_fault _ _) as [[e rest]|]; [done|].
  simpl in H. by repeat case_match; simplify_eq.
Qed.

Lemma faket_named_keeps T (c : Call T) w path name x :
  kind_of_call c ∈ [KOs; KSetup; KRead] ->
  FakeT.lookup w path name = Some x ->
  FakeT.lookup (exec c w).2 path name = Some x.
Proof.
  intros Hk Hm. simpl. unfold FakeT.exec_tags.
  destruct (Fake.take_fault _ _) as [[e rest]|]; [done|].
  by rewrite faket_answer_lookup.
Qed.

Definition faket_lookup_laws : LookupLaws :=
  {| named := FakeT.lookup;
     refs_contains_found := faket_refs_contains_found;
     refs_commit_named := faket_refs_commit_named;
     named_keeps := faket_named_keeps |}.

Lemma faket_exec_base T (c : Call T) w :
  FakeT.base (exec c w).2 = (Fake.fake_exec T c (FakeT.base w)).2.
Proof.
  simpl. unfold FakeT.exec_tags, Fake.fake_exec.
  destruct (Fake.take_fault _ _) as [[e rest]|]; [done|].
  destruct c; simpl; repeat case_match; simplify_eq; done.
Qed.

Lemma faket_marker_create path co name c force w full w' :
  exec (ReferenceCreate path ZuulReference._common_path_default co name
          (TargetCommit c) force) w = (inl full, w') ->
  FakeT.zuul_marker w' path name = Some c.
Proof.
  intros H. simpl in H. unfold FakeT.exec_tags in H.
  destruct (Fake.take_fault _ _) as [[e rest]|]; [done|].
  simpl in H. unfold FakeT.zuul_marker, Fake.fake_marker.
  repeat case_match; simplify_eq; simpl; apply dict_get_set_eq.
Qed.

Lemma faket_marker_create_other path co name t force w path' name' :
  (path', name') <> (path, name) ->
  FakeT.zuul_marker
    (exec (ReferenceCreate path ZuulReference._common_path_default co name
             t force) w).2 path' name' = FakeT.zuul_marker w path' name'.
Proof.
  intros Hne. unfold FakeT.zuul_marker. rewrite faket_exec_base.
  by apply (fake_marker_create_other path co name t force).
Qed.

Lemma faket_marker_frame T (c : Call T) w path name :
  kind_of_call c <> KMarker ->
  FakeT.zuul_marker (exec c w).2 path name = FakeT.zuul_marker w path name.
Proof.
  intros Hk. unfold FakeT.zuul_marker. rewrite faket_exec_base.
  by apply (fake_marker_frame T c).
Qed.

Definition faket_marker_laws : MarkerLaws :=
  {| marker := FakeT.zuul_marker;
     marker_create := faket_marker_create;
     marker_create_other := faket_marker_create_other;
     marker_frame := faket_marker_frame |}.

End FakeTLaws.

(** ** The shape of a run of [_mergeItem] and of [mergeChanges] *)

Section ItemRuns.
Context `{B : GitBackend} `{ZM : ZuulModel}.

Lemma find_marker_calm item :
  pres (calm [KOs; KSetup; KRead]) (find_marker item).
Proof. unfold find_marker, Merger.on_repo. calm_auto. Qed.

(** After the look-up the project is registered. *)
Lemma find_marker_registered item s o sp :
  find_marker item s = (Ret o, sp) ->
  exists repo,
    repos sp !! project item = Some repo /\
    exists s1 s2,
      Merger._setGitSsh (connection_name item) s = (Ret tt, s1) /\
      Merger.getRepo (project item) (url item) s1 = (Ret (Some repo), s2) /\
      Repo.getCommitFromRef repo (branch item +:+ "/" +:+ ref item) s2
        = (Ret o, sp).
Proof.
  unfold find_marker. intros H.
  apply bind_inv in H as [([] & s1 & E1 & H)|(e & _ & ?)]; [|done].
  apply bind_inv in H as [(o' & s2 & E2 & H)|(e & _ & ?)]; [|done].
  destruct (getRepo_registered _ _ _ _ _ E2) as (repo & -> & Hreg).
  simpl in H. exists repo. split; [|eauto 10].
  apply getCommitFromRef_quiet in H as [_ Hr]. by rewrite Hr.
Qed.

(** [_mergeItem] is the look-up followed by one of three continuations. *)
Lemma _mergeItem_run item s :
  match find_marker item s with
  | (Raise e, sp) => Merger._mergeItem item s = (Raise e, sp)
  | (Ret (Some c), sp) =>
      Merger._mergeItem item s =
        (Ret (Some c),
         set_recent (dict_set (project item, branch item) c (recent sp)) sp)
  | (Ret None, sp) =>
      exists repo,
        repos sp !! project item = Some repo /\
        Merger._mergeItem item s = merge_unresolved item repo sp
  end.
Proof.
  destruct (find_marker item s) as [[o|e] sp] eqn:E.
  - destruct (find_marker_registered _ _ _ _ E)
      as (repo & Hreg & s1 & s2 & E1 & E2 & E3).
    assert (Hrun : forall k : option RepoObj -> option Commit -> M (option Commit),
      (Merger._setGitSsh (connection_name item);;
       repo ← Merger.getRepo (project item) (url item);
       commit ← Merger.on_repo repo (fun r =>
         Repo.getCommitFromRef r (branch item +:+ "/" +:+ ref item));
       k repo commit) s = k (Some repo) o sp).
    { intros k. rewrite bind_run, E1, bind_run, E2, bind_run. simpl.
      by rewrite E3. }
    unfold Merger._mergeItem. rewrite Hrun. destruct o as [c|]; [done|].
    exists repo. split; [done|]. reflexivity.
  - unfold find_marker in E. unfold Merger._mergeItem.
    rewrite bind_run in *.
    destruct (Merger._setGitSsh _ s) as [[[]|e1] s1]; [|done].
    rewrite bind_run in *.
    destruct (Merger.getRepo _ _ s1) as [[o|e2] s2]; [|done].
    rewrite bind_run. destruct (Merger.on_repo o _ s2) as [[c|e3] s3]; done.
Qed.

(** The loop over [recent.items()] never raises; it either goes through
    or stops on an entry whose failure it has just logged. *)
Lemma publish_loop_outcome item (l : Cache) s r s' :
  for_in l tt (fun entry _ =>
    let '((project, branch), mrc) := entry in
    try_except
      (repo ← Merger.getRepo project None;
       Merger.on_repo repo (fun r =>
         Repo.createZuulRef r (branch +:+ "/" +:+ ref item) (TargetCommit mrc));;
       mret (Next tt))
      (fun e => Some (log (LogSetZuulRefFailed item e);;
                      mret (Return (None : option Commit))))) s = (r, s') ->
  r = Ret (Next tt) \/
  (r = Ret (Return None) /\
   exists n e, logs s' = n ++ [LogSetZuulRefFailed item e]).
Proof.
  revert s. induction l as [|[[p b] mrc] l IH]; intros s H; simpl in H.
  - inversion H. by left.
  - apply bind_inv in H as [(f & s1 & E & H)|(e & E & _)].
    + apply try_except_inv in E as [(a & E & [= <-])|(e & s2 & _ & E)].
      * apply bind_inv in E as [(o & s2 & _ & E)|(e & _ & ?)]; [|done].
        apply bind_inv in E as [(c & s3 & _ & E)|(e & _ & ?)]; [|done].
        inversion E; subst. by apply IH in H.
      * simpl in E. inversion E; subst. inversion H; subst. right.
        split; [done|]. simpl. eauto.
    + apply try_except_inv in E as [(a & _ & ?)|(e' & s2 & _ & E)]; [done|].
      simpl in E. inversion E.
Qed.

Lemma publish_outcome item s r s' :
  Merger.publish item s = (r, s') ->
  r = Ret (Next tt) \/
  (r = Ret (Return None) /\
   exists n e, logs s' = n ++ [LogSetZuulRefFailed item e]).
Proof.
  unfold Merger.publish. rewrite bind_run. simpl.
  apply publish_loop_outcome.
Qed.

(** A run of [merge_on_base] that gives no commit either stopped before
    the markers were written, or logged the marker it could not write. *)
Lemma merge_on_base_failed item base s r s' :
  Merger.merge_on_base item base s = (r, s') ->
  (forall c, r <> Ret (Some c)) ->
  within [KOs; KSetup; KRead; KFetch; KBranch; KCheckout; KMerge; KCherryPick]
         s s' \/
  (r = Ret None /\ exists n e, logs s' = n ++ [LogSetZuulRefFailed item e]).
Proof.
  intros H Hr. unfold Merger.merge_on_base in H.
  apply bind_inv in H as [(o & s1 & E & H)|(e & E & _)].
  - destruct o as [c|].
    + right. apply bind_inv in H as [([] & s2 & E2 & H)|(e & ? & _)]; [|done].
      apply bind_inv in H as [(f & s3 & E3 & H)|(e & E3 & _)].
      * apply publish_outcome in E3 as [[= ->]|([= ->] & Hl)].
        -- inversion H; subst. by destruct (Hr c).
        -- by inversion H; subst.
      * apply publish_outcome in E3 as [?|[? _]]; done.
    + left. inversion H; subst.
      eapply calm_within; [|eapply _mergeChange_calm, E]. compute_done.
  - left. eapply calm_within; [|eapply _mergeChange_calm, E]. compute_done.
Qed.

Lemma try_reset_quiet repo :
  pres (quiet [KOs; KSetup; KRead; KFetch; KBranch; KCheckout])
    (try_except (Repo.reset repo;; mret true)
       (fun e => Some (log (LogResetFailed (Some repo) e);; mret false))).
Proof. quiet_auto. Qed.

Lemma merge_unresolved_failed item repo s r s' :
  merge_unresolved item repo s = (r, s') ->
  (forall c, r <> Ret (Some c)) ->
  within [KOs; KSetup; KRead; KFetch; KBranch; KCheckout; KMerge; KCherryPick]
         s s' \/
  (r = Ret None /\ exists n e, logs s' = n ++ [LogSetZuulRefFailed item e]).
Proof.
  intros H Hr. unfold merge_unresolved in H. rewrite bind_run in H. simpl in H.
  destruct (dict_get _ (recent s)) as [base|].
  { by eapply merge_on_base_failed. }
  apply bind_inv in H as [(b & s1 & E & H)|(e & E & _)].
  - apply try_reset_quiet in E as Hq.
    destruct b; simpl in H.
    + apply bind_inv in H as [(base & s2 & E2 & H)|(e & E2 & _)].
      * apply getBranchHead_quiet in E2.
        destruct (merge_on_base_failed _ _ _ _ _ H Hr) as [Hw|Hl]; [|by right].
        left. etrans; [|exact Hw]. etrans.
        -- eapply quiet_within; [|exact Hq]. compute_done.
        -- eapply quiet_within; [|exact E2]. compute_done.
      * apply getBranchHead_quiet in E2. left. etrans.
        -- eapply quiet_within; [|exact Hq]. compute_done.
        -- eapply quiet_within; [|exact E2]. compute_done.
    + inversion H; subst. left. eapply quiet_within; [|exact Hq]. compute_done.
  - apply try_reset_quiet in E. left. eapply quiet_within; [|exact E].
    compute_done.
Qed.

Lemma _mergeItem_failed item s r s' :
  Merger._mergeItem item s = (r, s') ->
  (forall c, r <> Ret (Some c)) ->
  within [KOs; KSetup; KRead; KFetch; KBranch; KCheckout; KMerge; KCherryPick]
         s s' \/
  (r = Ret None /\ exists n e, logs s' = n ++ [LogSetZuulRefFailed item e]).
Proof.
  intros H Hr. pose proof (_mergeItem_run item s) as Hrun.
  destruct (find_marker item s) as [[[c|]|e] sp] eqn:E;
    apply find_marker_calm in E as Hc.
  - rewrite Hrun in H. inversion H; subst. by destruct (Hr c).
  - destruct Hrun as (repo & _ & Hrun). rewrite Hrun in H.
    destruct (merge_unresolved_failed _ _ _ _ _ H Hr) as [Hw|Hl]; [|by right].
    left. etrans; [|exact Hw]. eapply calm_within; [|exact Hc]. compute_done.
  - rewrite Hrun in H. inversion H; subst. left.
    eapply calm_within; [|exact Hc]. compute_done.
Qed.

Lemma each_item_run item acc s :
  each_item item acc s =
  match Merger._mergeItem item s with
  | (Ret (Some c), s1) => (Ret (Next (Some c)), s1)
  | (Ret None, s1) => (Ret (Return None), s1)
  | (Raise e, s1) => (Raise e, s1)
  end.
Proof.
  unfold each_item. rewrite bind_run.
  by destruct (Merger._mergeItem item s) as [[[c|]|e] s1].
Qed.

Lemma for_in_cons {A W V} (x : A) (l : list A) (v : V)
  (body : A -> V -> M (flow W V)) s :
  for_in (x :: l) v body s =
  match body x v s with
  | (Ret (Return r), s1) => (Ret (Return r), s1)
  | (Ret (Next v'), s1) => for_in l v' body s1
  | (Raise e, s1) => (Raise e, s1)
  end.
Proof.
  simpl. rewrite bind_run. by destruct (body x v s) as [[[r|v']|e] s1].
Qed.

Lemma loop_all items acc s last s' :
  process_all items acc s = Some (last, s') ->
  for_in items acc each_item s = (Ret (Next last), s').
Proof.
  revert acc s. induction items as [|item items IH]; intros acc s H.
  - by inversion H.
  - rewrite for_in_cons, each_item_run. simpl in H.
    destruct (Merger._mergeItem item s) as [[[c|]|e] s1]; try done.
    by apply IH.
Qed.

Lemma loop_next items acc s last s' :
  for_in items acc each_item s = (Ret (Next last), s') ->
  process_all items acc s = Some (last, s').
Proof.
  revert acc s. induction items as [|item items IH]; intros acc s H.
  - by inversion H.
  - rewrite for_in_cons, each_item_run in H. simpl.
    destruct (Merger._mergeItem item s) as [[[c|]|e] s1]; try done.
    by apply IH.
Qed.

Lemma loop_app pre rest acc s last s1 :
  process_all pre acc s = Some (last, s1) ->
  for_in (pre ++ rest) acc each_item s = for_in rest last each_item s1.
Proof.
  revert acc s. induction pre as [|item pre IH]; intros acc s H.
  - by inversion H.
  - rewrite <- app_comm_cons, for_in_cons, each_item_run. simpl in H.
    destruct (Merger._mergeItem item s) as [[[c|]|e] s2]; try done.
    by apply IH.
Qed.

Lemma mergeChanges_loop items s :
  Merger.mergeChanges items s =
  match for_in items None each_item (set_recent [] s) with
  | (Ret (Return r), s') => (Ret r, s')
  | (Ret (Next None), s') => (Raise AttributeError, s')
  | (Ret (Next (Some c)), s') => (Ret (Some (hexsha c)), s')
  | (Raise e, s') => (Raise e, s')
  end.
Proof.
  unfold Merger.mergeChanges. rewrite bind_run. simpl. rewrite bind_run.
  change (fun (item : Item) (_ : option Commit) => _) with each_item.
  destruct (for_in items None each_item (set_recent [] s)) as [[[r|[c|]]|e] s'];
    done.
Qed.

End ItemRuns.

(** ** What gets logged, and the registry invariant *)

Section Polite.
Context `{B : GitBackend}.

#[global] Instance polite_preorder : PreOrder polite.
Proof.
  split.
  - intros s. exists []. by rewrite app_nil_r.
  - intros s1 s2 s3 (n1 & E1 & H1) (n2 & E2 & H2). exists (n1 ++ n2).
    rewrite E2, E1, app_assoc. split; [done|]. by apply Forall_app.
Qed.

Lemma polite_same s s' : logs s' = logs s -> polite s s'.
Proof. intros E. exists []. by rewrite app_nil_r. Qed.

Lemma call_polite {T} (c : Call T) : pres polite (call c).
Proof.
  intros s r s' H. unfold call in H.
  destruct (exec c (world s)) as [r0 w]. inversion H; subst.
  by apply polite_same.
Qed.

Lemma log_polite r : found_handle r -> pres polite (log r).
Proof.
  intros Hr s o s' H. inversion H; subst. exists [r]. split; [done|].
  by constructor.
Qed.

End Polite.

Ltac polite_leaf :=
  first
    [ apply call_polite
    | apply log_polite; exact I
    | apply modify_pres; intros ?; by apply polite_same
    | solve [eauto with polite] ].

Ltac polite_auto := repeat pres_step polite_leaf.

Create HintDb polite.

Section PoliteRuns.
Context `{B : GitBackend} `{ZM : ZuulModel}.

Lemma get__initialized_polite self : pres polite (Repo.get__initialized self).
Proof. intros s r s' H. inversion H; subst. reflexivity. Qed.

Lemma set__initialized_polite self b :
  pres polite (Repo.set__initialized self b).
Proof. apply modify_pres. intros s. by apply polite_same. Qed.

Hint Resolve get__initialized_polite set__initialized_polite : polite.

Lemma _ensure_cloned_polite self : pres polite (Repo._ensure_cloned self).
Proof. unfold Repo._ensure_cloned. polite_auto. Qed.

Hint Resolve _ensure_cloned_polite : polite.

Lemma __init___polite remote local em un :
  pres polite (Repo.__init__ remote local em un).
Proof. unfold Repo.__init__. polite_auto. Qed.

Lemma createRepoObject_polite self : pres polite (Repo.createRepoObject self).
Proof. unfold Repo.createRepoObject. polite_auto. Qed.

Lemma reset_repo_to_head_polite path : pres polite (reset_repo_to_head path).
Proof. unfold reset_repo_to_head. polite_auto. Qed.

Hint Resolve __init___polite createRepoObject_polite
  reset_repo_to_head_polite : polite.

Lemma update_polite self : pres polite (Repo.update self).
Proof. unfold Repo.update. polite_auto. Qed.

Hint Resolve update_polite : polite.

Lemma reset_polite self : pres polite (Repo.reset self).
Proof. unfold Repo.reset. polite_auto. Qed.

Lemma getBranchHead_polite self b : pres polite (Repo.getBranchHead self b).
Proof. unfold Repo.getBranchHead. polite_auto. Qed.

Lemma getCommitFromRef_polite self n :
  pres polite (Repo.getCommitFromRef self n).
Proof. unfold Repo.getCommitFromRef. polite_auto. Qed.

Lemma checkout_polite self c : pres polite (Repo.checkout self c).
Proof. unfold Repo.checkout. polite_auto. Qed.

Lemma fetch_polite self r : pres polite (Repo.fetch self r).
Proof. unfold Repo.fetch. polite_auto. Qed.

Hint Resolve fetch_polite : polite.

Lemma cherryPick_polite self r : pres polite (Repo.cherryPick self r).
Proof. unfold Repo.cherryPick. polite_auto. Qed.

Lemma merge_polite self r st : pres polite (Repo.merge self r st).
Proof. unfold Repo.merge. polite_auto. Qed.

Lemma createZuulRef_polite self n t : pres polite (Repo.createZuulRef self n t).
Proof. unfold Repo.createZuulRef. polite_auto. Qed.

Hint Resolve reset_polite getBranchHead_polite getCommitFromRef_polite
  checkout_polite cherryPick_polite merge_polite createZuulRef_polite : polite.

Lemma getRepo_polite p url : pres polite (Merger.getRepo p url).
Proof. unfold Merger.getRepo, Merger.addProject. polite_auto. Qed.

Hint Resolve getRepo_polite : polite.

Lemma _setGitSsh_polite name : pres polite (Merger._setGitSsh name).
Proof. unfold Merger._setGitSsh. polite_auto. Qed.

Lemma _mergeChange_polite item base : pres polite (Merger._mergeChange item base).
Proof. unfold Merger._mergeChange, Merger.on_repo. polite_auto. Qed.

Hint Resolve _setGitSsh_polite _mergeChange_polite : polite.

Lemma find_marker_polite item : pres polite (find_marker item).
Proof. unfold find_marker, Merger.on_repo. polite_auto. Qed.

(** What [createZuulRef] can raise. *)
Lemma createZuulRef_raises self n t s e s' :
  Repo.createZuulRef self n t s = (Raise e, s') ->
  e = UnboundLocalError \/ exists le, e = Lib le.
Proof.
  unfold Repo.createZuulRef. intros H.
  apply bind_inv in H as [(u & s1 & _ & H)|(e' & H & [= <-])].
  - right. apply bind_inv in H as [(r & s2 & _ & H)|(e' & H & [= <-])];
      unfold call in H; destruct (exec _ _) as [[v|le] w];
      inversion H; eauto.
  - left. unfold Repo.createRepoObject in H.
    apply try_except_inv in H as [(a & _ & ?)|(e' & s2 & _ & H)]; [done|].
    simpl in H. apply bind_inv in H as [(u & s3 & _ & H)|(e'' & H & _)].
    + by inversion H.
    + inversion H.
Qed.

(** The invariant, and the steps that keep it. *)
Lemma calm_registered ks s s' :
  calm ks s s' -> cache_registered s -> cache_registered s'.
Proof.
  intros [(_ & Hsub & _) Hr] Hinv p b c Hin. rewrite Hr in Hin.
  destruct (Hinv _ _ _ Hin) as [x Hx]. exists x.
  eapply lookup_weaken; eauto.
Qed.

Lemma recent_set_registered p b c s repo :
  repos s !! p = Some repo -> cache_registered s ->
  cache_registered (set_recent (dict_set (p, b) c (recent s)) s).
Proof.
  intros Hreg Hinv p' b' c' Hin. simpl in *.
  apply dict_set_elem in Hin as [[= -> -> ->]|Hin]; eauto.
Qed.

Lemma publish_loop_polite item (l : Cache) s r s' :
  (forall p b c, ((p, b), c) ∈ l -> is_Some (repos s !! p)) ->
  for_in l tt (fun entry _ =>
    let '((project, branch), mrc) := entry in
    try_except
      (repo ← Merger.getRepo project None;
       Merger.on_repo repo (fun r =>
         Repo.createZuulRef r (branch +:+ "/" +:+ ref item) (TargetCommit mrc));;
       mret (Next tt))
      (fun e => Some (log (LogSetZuulRefFailed item e);;
                      mret (Return (None : option Commit))))) s = (r, s') ->
  polite s s'.
Proof.
  revert s. induction l as [|[[p b] mrc] l IH]; intros s Hl H.
  - inversion H; subst. reflexivity.
  - destruct (Hl p b mrc) as [repo Hreg]; [apply list_elem_of_here|].
    rewrite for_in_cons in H. unfold try_except in H.
    rewrite bind_run, (getRepo_known _ _ _ _ Hreg), bind_run in H. simpl in H.
    destruct (Repo.createZuulRef repo _ _ s) as [[c|e] s1] eqn:E;
      apply createZuulRef_polite in E as Hp;
      apply createZuulRef_quiet in E as Hq; simpl in H.
    + etrans; [exact Hp|]. eapply IH; [|exact H].
      intros p' b' c' Hin. destruct Hq as [_ Hq]. rewrite Hq.
      eapply Hl. by apply list_elem_of_further.
    + inversion H; subst. etrans; [exact Hp|].
      exists [LogSetZuulRefFailed item e]. split; [done|].
      constructor; [|done].
      apply createZuulRef_raises in E as [->|[le ->]]; exact I.
Qed.

Lemma merge_on_base_inv item base s r s' repo :
  repos s !! project item = Some repo ->
  cache_registered s ->
  Merger.merge_on_base item base s = (r, s') ->
  cache_registered s' /\ polite s s'.
Proof.
  intros Hreg Hinv H. unfold Merger.merge_on_base in H.
  apply bind_inv in H as [(o & s1 & E & H)|(e & E & _)].
  - apply _mergeChange_calm in E as Hc. apply _mergeChange_polite in E as Hp.
    pose proof (calm_registered _ _ _ Hc Hinv) as Hinv1.
    destruct o as [c|]; [|inversion H; subst; done].
    assert (Hreg1 : repos s1 !! project item = Some repo).
    { destruct Hc as [(_ & Hsub & _) _]. eapply lookup_weaken; eauto. }
    rewrite bind_run in H. simpl in H.
    pose proof (recent_set_registered _ (branch item) c _ _ Hreg1 Hinv1) as Hinv2.
    set (s2 := set_recent _ s1) in *.
    rewrite bind_run in H.
    destruct (Merger.publish item s2) as [[f|e] s3] eqn:E3.
    + apply publish_calm in E3 as Hc3.
      assert (Hp3 : polite s2 s3).
      { unfold Merger.publish in E3. rewrite bind_run in E3. simpl in E3.
        eapply publish_loop_polite; [|exact E3]. intros p b c'. apply Hinv2. }
      assert (s' = s3) as -> by (destruct f; by inversion H).
      split; [by eapply calm_registered|].
      etrans; [exact Hp|]. etrans; [|exact Hp3]. by apply polite_same.
    + apply publish_outcome in E3 as [?|[? _]]; done.
  - split.
    + eapply calm_registered; [eapply _mergeChange_calm, E|done].
    + eapply _mergeChange_polite, E.
Qed.

Lemma merge_unresolved_inv item repo s r s' :
  repos s !! project item = Some repo ->
  cache_registered s ->
  merge_unresolved item repo s = (r, s') ->
  cache_registered s' /\ polite s s'.
Proof.
  intros Hreg Hinv H. unfold merge_unresolved in H.
  rewrite bind_run in H. simpl in H.
  destruct (dict_get _ (recent s)) as [base|].
  { by eapply merge_on_base_inv. }
  assert (Hstep : forall ks s1 s2, quiet ks s1 s2 -> polite s1 s2 ->
            repos s1 !! project item = Some repo -> cache_registered s1 ->
            polite s s1 ->
            repos s2 !! project item = Some repo /\ cache_registered s2 /\
            polite s s2).
  { intros ks s1 s2 Hq Hp Hr Hi Hps. split; [|split].
    - destruct Hq as [_ Hq]. by rewrite Hq.
    - eapply calm_registered; [apply Hq|done].
    - by etrans. }
  apply bind_inv in H as [(b & s1 & E & H)|(e & E & _)].
  - destruct (Hstep _ s s1 (try_reset_quiet _ _ _ _ E)) as (Hr1 & Hi1 & Hp1);
      try done.
    { revert E. generalize s, (Ret b : outcome bool), s1.
      change (pres polite (try_except (Repo.reset repo;; mret true)
        (fun e => Some (log (LogResetFailed (Some repo) e);; mret false)))).
      polite_auto. }
    destruct b; simpl in H; [|inversion H; subst; done].
    apply bind_inv in H as [(base & s2 & E2 & H)|(e & E2 & _)].
    + destruct (Hstep _ s1 s2 (getBranchHead_quiet _ _ _ _ _ E2)
                  (getBranchHead_polite _ _ _ _ _ E2) Hr1 Hi1 Hp1)
        as (Hr2 & Hi2 & Hp2).
      destruct (merge_on_base_inv _ _ _ _ _ _ Hr2 Hi2 H) as [Hi3 Hp3].
      split; [done|]. by etrans.
    + destruct (Hstep _ s1 s' (getBranchHead_quiet _ _ _ _ _ E2)
                  (getBranchHead_polite _ _ _ _ _ E2) Hr1 Hi1 Hp1)
        as (Hr2 & Hi2 & Hp2). done.
  - destruct (Hstep _ s s' (try_reset_quiet _ _ _ _ E)) as (Hr1 & Hi1 & Hp1);
      try done.
    revert E. generalize s, (Raise e : outcome bool), s'.
    change (pres polite (try_except (Repo.reset repo;; mret true)
      (fun e => Some (log (LogResetFailed (Some repo) e);; mret false)))).
    polite_auto.
Qed.

Lemma _mergeItem_inv item s r s' :
  cache_registered s ->
  Merger._mergeItem item s = (r, s') ->
  cache_registered s' /\ polite s s'.
Proof.
  intros Hinv H. pose proof (_mergeItem_run item s) as Hrun.
  destruct (find_marker item s) as [[[c|]|e] sp] eqn:E;
    apply find_marker_calm in E as Hc; apply find_marker_polite in E as Hp;
    pose proof (calm_registered _ _ _ Hc Hinv) as Hinv1.
  - rewrite Hrun in H. inversion H; subst.
    destruct (find_marker_registered _ _ _ _ E) as (repo & Hreg & _).
    split; [by eapply recent_set_registered|].
    etrans; [exact Hp|]. by apply polite_same.
  - destruct Hrun as (repo & Hreg & Hrun). rewrite Hrun in H.
    destruct (merge_unresolved_inv _ _ _ _ _ Hreg Hinv1 H). split; [done|].
    by etrans.
  - rewrite Hrun in H. by inversion H; subst.
Qed.

Lemma loop_inv items acc s r s' :
  cache_registered s ->
  for_in items acc each_item s = (r, s') ->
  cache_registered s' /\ polite s s'.
Proof.
  revert acc s. induction items as [|item items IH]; intros acc s Hinv H.
  - inversion H; subst. done.
  - rewrite for_in_cons, each_item_run in H.
    destruct (Merger._mergeItem item s) as [[[c|]|e] s1] eqn:E;
      destruct (_mergeItem_inv _ _ _ _ Hinv E) as [Hi Hp].
    + destruct (IH _ _ Hi H) as [Hi' Hp']. split; [done|]. by etrans.
    + by inversion H; subst.
    + by inversion H; subst.
Qed.

End PoliteRuns.

(** ** Marker references along a run *)

Lemma list_ascii_append (a b : string) :
  String.list_ascii_of_string (a +:+ b) =
  String.list_ascii_of_string a ++ String.list_ascii_of_string b.
Proof.
  induction a as [|x a IH]; [done|].
  change (String.list_ascii_of_string (String x a +:+ b))
    with (x :: String.list_ascii_of_string (a +:+ b)).
  by rewrite IH.
Qed.

Lemma append_inv_tail (a b t : string) : a +:+ t = b +:+ t -> a = b.
Proof.
  intros H. apply (f_equal String.list_ascii_of_string) in H.
  rewrite !list_ascii_append in H. apply app_inv_tail in H.
  apply (f_equal String.string_of_list_ascii) in H.
  by rewrite !String.string_of_list_ascii_of_string in H.
Qed.

Section Markers.
Context `{B : GitBackend} `{ZM : ZuulModel} `{ML : !MarkerLaws}.

Lemma steps_marker ks x y path name :
  steps ks x y -> KMarker ∉ ks -> marker y.1 path name = marker x.1 path name.
Proof.
  intros H Hk. induction H as [|x w l T c H IH Hc]; [done|].
  simpl in *. rewrite marker_frame; [done|]. by intros E; rewrite E in Hc.
Qed.

Lemma within_marker ks s s' path name :
  within ks s s' -> KMarker ∉ ks ->
  marker (world s') path name = marker (world s) path name.
Proof. intros [H _] Hk. by apply (steps_marker _ _ _ path name) in H. Qed.

Lemma quiet_marker ks s s' path name :
  quiet ks s s' -> KMarker ∉ ks ->
  marker (world s') path name = marker (world s) path name.
Proof. intros [[H _] _]. by apply within_marker. Qed.

Lemma call_ret_inv {T} (c : Call T) s v s' :
  call c s = (Ret v, s') ->
  exists w, exec c (world s) = (inl v, w) /\ world s' = w.
Proof.
  unfold call. destruct (exec c (world s)) as [[v'|le] w]; intros H;
    inversion H; subst. eauto.
Qed.

Lemma call_marker {T} (c : Call T) s r s' path name :
  call c s = (r, s') -> kind_of_call c <> KMarker ->
  marker (world s') path name = marker (world s) path name.
Proof.
  intros H Hk. apply (call_quiet c [kind_of_call c]) in H.
  - eapply quiet_marker; [exact H|]. intros E%list_elem_of_singleton. congruence.
  - apply list_elem_of_here.
Qed.

(** [createZuulRef] touches one marker reference only, and when it returns
    that reference points at the commit. *)
Lemma createZuulRef_other self name t s r s' path' name' :
  Repo.createZuulRef self name t s = (r, s') ->
  (path', name') <> (local_path self, name) ->
  marker (world s') path' name' = marker (world s) path' name'.
Proof.
  unfold Repo.createZuulRef. intros H Hne.
  apply bind_inv in H as [(u & s1 & E1 & H)|(e & E1 & _)];
    apply createRepoObject_quiet in E1;
    rewrite <- (quiet_marker _ _ _ path' name' E1) by compute_done; [|done].
  assert (Hc : forall o s2, call (ReferenceCreate (local_path self)
              ZuulReference._common_path_default
              ZuulReference._points_to_commits_only name t false) s1 = (o, s2) ->
            marker (world s2) path' name' = marker (world s1) path' name').
  { intros o s2 E. unfold call in E.
    pose proof (marker_create_other (local_path self)
                  ZuulReference._points_to_commits_only name t false
                  (world s1) path' name' Hne) as Hm.
    destruct (exec _ (world s1)) as [r0 w2]. inversion E; subst. exact Hm. }
  apply bind_inv in H as [(full & s2 & E2 & H)|(e & E2 & _)];
    apply Hc in E2; [|done].
  rewrite <- E2. by eapply call_marker.
Qed.

Lemma createZuulRef_sets self name c s c' s' :
  Repo.createZuulRef self name (TargetCommit c) s = (Ret c', s') ->
  marker (world s') (local_path self) name = Some c.
Proof.
  unfold Repo.createZuulRef. intros H.
  apply bind_inv in H as [(u & s1 & E1 & H)|(e & _ & ?)]; [|done].
  apply bind_inv in H as [(full & s2 & E2 & H)|(e & _ & ?)]; [|done].
  apply call_ret_inv in E2 as (w2 & X2 & Hw). apply marker_create in X2.
  rewrite <- Hw in X2. rewrite <- X2. by eapply call_marker.
Qed.

Lemma publish_run item s :
  Merger.publish item s = for_in (recent s) tt (publish_entry item) s.
Proof. reflexivity. Qed.

Lemma publish_entry_run item p b mrc s :
  publish_entry item ((p, b), mrc) tt s =
  match repos s !! p with
  | None =>
      (Ret (Return None),
       set_logs (logs s ++ [LogSetZuulRefFailed item (NoUrlException p)]) s)
  | Some repo =>
      match Repo.createZuulRef repo (b +:+ "/" +:+ ref item) (TargetCommit mrc) s
      with
      | (Ret _, s1) => (Ret (Next tt), s1)
      | (Raise e, s1) =>
          (Ret (Return None),
           set_logs (logs s1 ++ [LogSetZuulRefFailed item e]) s1)
      end
  end.
Proof.
  unfold publish_entry, try_except. rewrite bind_run.
  unfold Merger.getRepo at 1. rewrite bind_run. simpl.
  destruct (repos s !! p) as [repo|]; simpl; [|done].
  rewrite bind_run. by destruct (Repo.createZuulRef _ _ _ s) as [[c|e] s1].
Qed.

(** The loop leaves alone the marker references none of its entries is
    written to, and neither registers a project nor changes [recent]. *)
Lemma publish_loop_keeps item (l : Cache) s r s' path name :
  for_in l tt (publish_entry item) s = (r, s') ->
  (forall p b c repo, ((p, b), c) ∈ l -> repos s !! p = Some repo ->
     (local_path repo, b +:+ "/" +:+ ref item) <> (path, name)) ->
  marker (world s') path name = marker (world s) path name /\
  repos s' = repos s /\ recent s' = recent s.
Proof.
  revert s. induction l as [|[[p b] mrc] l IH]; intros s H Hl.
  - by inversion H; subst.
  - rewrite for_in_cons, publish_entry_run in H.
    destruct (repos s !! p) as [repo|] eqn:Hreg; [|by inversion H; subst].
    destruct (Repo.createZuulRef repo _ _ s) as [[c|e] s1] eqn:E.
    + apply createZuulRef_quiet in E as Hq. destruct Hq as [[_ Hrec] Hrep].
      apply (createZuulRef_other _ _ _ _ _ _ path name) in E.
      * destruct (IH s1 H) as (Hm & Hr & Hc).
        { intros p' b' c' repo' Hin Hreg'. rewrite Hrep in Hreg'.
          eapply Hl; [|exact Hreg']. by apply list_elem_of_further. }
        split; [congruence|]. split; congruence.
      * intros Heq. eapply Hl; [apply list_elem_of_here|exact Hreg|]. done.
    + inversion H; subst. simpl.
      apply createZuulRef_quiet in E as Hq. destruct Hq as [[_ Hrec] Hrep].
      apply (createZuulRef_other _ _ _ _ _ _ path name) in E; [done|].
      intros Heq. eapply Hl; [apply list_elem_of_here|exact Hreg|]. done.
Qed.

(** When the loop goes through, every entry was written, and an entry no
    later one is written over still stands. *)
Lemma publish_loop_sets item (l : Cache) s s' :
  for_in l tt (publish_entry item) s = (Ret (Next tt), s') ->
  forall i p b c, l !! i = Some ((p, b), c) ->
    exists repo,
      repos s !! p = Some repo /\
      ((forall j p' b' c' repo',
          (i < j)%nat -> l !! j = Some ((p', b'), c') ->
          repos s !! p' = Some repo' ->
          (local_path repo', b' +:+ "/" +:+ ref item) <>
          (local_path repo, b +:+ "/" +:+ ref item)) ->
       marker (world s') (local_path repo) (b +:+ "/" +:+ ref item) = Some c).
Proof.
  revert s. induction l as [|[[p0 b0] c0] l IH]; intros s H i p b c Hi.
  - by destruct i.
  - rewrite for_in_cons, publish_entry_run in H.
    destruct (repos s !! p0) as [repo0|] eqn:Hreg; [|done].
    destruct (Repo.createZuulRef repo0 _ _ s) as [[c1|e] s1] eqn:E; [|done].
    apply createZuulRef_quiet in E as Hq. destruct Hq as [_ Hrep].
    destruct i as [|i]; simpl in Hi.
    + inversion Hi; subst. exists repo0. split; [done|]. intros Hlater.
      apply createZuulRef_sets in E. rewrite <- E.
      eapply publish_loop_keeps; [exact H|].
      intros p' b' c' repo' Hin Hreg'. rewrite Hrep in Hreg'.
      apply list_elem_of_lookup in Hin as [j Hj].
      eapply (Hlater (S j)); [lia|exact Hj|exact Hreg'].
    + destruct (IH s1 H i p b c Hi) as (repo & Hreg' & Hm).
      rewrite Hrep in Hreg'. exists repo. split; [done|]. intros Hlater.
      apply Hm. intros j p' b' c' repo' Hlt Hj Hr'. rewrite Hrep in Hr'.
      eapply (Hlater (S j)); [lia|exact Hj|exact Hr'].
Qed.

(** A merged item: the dict was updated and the loop went through. *)
Lemma merge_on_base_published item base s c s' :
  Merger.merge_on_base item base s = (Ret (Some c), s') ->
  exists s1,
    calm [KOs; KSetup; KRead; KFetch; KCheckout; KMerge; KCherryPick] s s1 /\
    let s2 := set_recent (dict_set (project item, branch item) c (recent s1)) s1
    in for_in (recent s2) tt (publish_entry item) s2 = (Ret (Next tt), s').
Proof.
  unfold Merger.merge_on_base. intros H.
  apply bind_inv in H as [(o & s1 & E & H)|(e & _ & ?)]; [|done].
  destruct o as [c'|]; [|done].
  rewrite bind_run in H. simpl in H. rewrite bind_run in H.
  exists s1. split; [eapply _mergeChange_calm, E|]. cbv zeta.
  rewrite <- publish_run.
  destruct (Merger.publish item _) as [[f|e] s3] eqn:E3; [|done].
  apply publish_outcome in E3 as Ho. destruct Ho as [[= ->]|([= ->] & _)].
  - by inversion H; subst.
  - by inversion H.
Qed.

Lemma publish_loop_same item (l : Cache) s r s' :
  for_in l tt (publish_entry item) s = (r, s') ->
  repos s' = repos s /\ recent s' = recent s.
Proof.
  revert s. induction l as [|[[p b] mrc] l IH]; intros s H.
  - by inversion H; subst.
  - rewrite for_in_cons, publish_entry_run in H.
    destruct (repos s !! p) as [repo|] eqn:Hreg; [|by inversion H; subst].
    destruct (Repo.createZuulRef repo _ _ s) as [[c|e] s1] eqn:E;
      apply createZuulRef_quiet in E as [[_ Hrec] Hrep].
    + destruct (IH s1 H) as [Hr Hc]. split; congruence.
    + by inversion H; subst.
Qed.

Lemma merge_unresolved_published item repo s c s' :
  merge_unresolved item repo s = (Ret (Some c), s') ->
  exists s1,
    calm [KOs; KSetup; KRead; KFetch; KBranch; KCheckout; KMerge; KCherryPick]
         s s1 /\
    let s2 := set_recent (dict_set (project item, branch item) c (recent s1)) s1
    in for_in (recent s2) tt (publish_entry item) s2 = (Ret (Next tt), s').
Proof.
  unfold merge_unresolved. rewrite bind_run. simpl. intros H.
  assert (Hfin : forall s0 base, quiet [KOs; KSetup; KRead; KFetch; KBranch; KCheckout] s s0 ->
            Merger.merge_on_base item base s0 = (Ret (Some c), s') ->
            exists s1,
              calm [KOs; KSetup; KRead; KFetch; KBranch; KCheckout; KMerge;
                    KCherryPick] s s1 /\
              let s2 := set_recent
                          (dict_set (project item, branch item) c (recent s1)) s1
              in for_in (recent s2) tt (publish_entry item) s2
                 = (Ret (Next tt), s')).
  { intros s0 base Hq Hm.
    apply merge_on_base_published in Hm as (s1 & Hc & Hl).
    exists s1. split; [|done]. etrans.
    - eapply quiet_calm; [|exact Hq]. compute_done.
    - eapply calm_mono; [|exact Hc]. compute_done. }
  destruct (dict_get _ (recent s)) as [base|].
  { eapply Hfin; [reflexivity|exact H]. }
  apply bind_inv in H as [(b & s1 & E & H)|(e & _ & ?)]; [|done].
  apply try_reset_quiet in E. destruct b; simpl in H; [|done].
  apply bind_inv in H as [(base & s2 & E2 & H)|(e & _ & ?)]; [|done].
  apply getBranchHead_quiet in E2. eapply Hfin; [|exact H].
  etrans; [exact E|]. eapply quiet_mono; [|exact E2]. compute_done.
Qed.

End Markers.

(** ** Looking a reference up *)

Section Lookup.
Context `{B : GitBackend} `{LL : !LookupLaws}.

Lemma steps_named ks x y path name c :
  steps ks x y -> ks ⊆ [KOs; KSetup; KRead] ->
  named x.1 path name = Some c -> named y.1 path name = Some c.
Proof.
  intros H Hk Hc. induction H as [|x w l T c' H IH Hc']; [done|].
  simpl in *. apply named_keeps; [by apply Hk|by apply IH].
Qed.

Lemma quiet_named ks s s' path name c :
  quiet ks s s' -> ks ⊆ [KOs; KSetup; KRead] ->
  named (world s) path name = Some c ->
  named (world s') path name = Some c.
Proof.
  intros [[[H _] _] _] Hk Hc. by apply (steps_named _ _ _ path name c H Hk).
Qed.

Lemma call_named {T} (k : Call T) s r s' path name c :
  call k s = (r, s') -> kind_of_call k ∈ [KOs; KSetup; KRead] ->
  named (world s) path name = Some c ->
  named (world s') path name = Some c.
Proof.
  intros H Hk Hc. apply (call_quiet k [kind_of_call k]) in H.
  - eapply quiet_named; [exact H| |exact Hc].
    intros x ->%list_elem_of_singleton. exact Hk.
  - apply list_elem_of_here.
Qed.

(** Where a reference of the name is found at [c], [getCommitFromRef]
    gives [c], when it returns. *)
Lemma getCommitFromRef_named self name s c o s' :
  named (world s) (local_path self) name = Some c ->
  Repo.getCommitFromRef self name s = (Ret o, s') -> o = Some c.
Proof.
  unfold Repo.getCommitFromRef. intros Hn H.
  apply bind_inv in H as [(u & s1 & E1 & H)|(e & _ & ?)]; [|done].
  apply createRepoObject_quiet in E1.
  apply (quiet_named _ _ _ _ _ _ E1) in Hn; [|compute_done].
  apply bind_inv in H as [(b & s2 & E2 & H)|(e & _ & ?)]; [|done].
  pose proof (call_named _ _ _ _ _ _ _ E2 ltac:(compute_done) Hn) as Hn2.
  apply call_ret_inv in E2 as (w2 & X2 & _).
  apply (refs_contains_found _ _ _ _ _ _ Hn) in X2. subst b. simpl in H.
  apply bind_inv in H as [(c' & s3 & E3 & H)|(e & _ & ?)]; [|done].
  inversion H; subst.
  apply call_ret_inv in E3 as (w3 & X3 & _). apply refs_commit_named in X3.
  congruence.
Qed.

(** What [getCommitFromRef] has found is still found afterwards. *)
Lemma getCommitFromRef_found self name s c s' :
  Repo.getCommitFromRef self name s = (Ret (Some c), s') ->
  named (world s') (local_path self) name = Some c.
Proof.
  unfold Repo.getCommitFromRef. intros H.
  apply bind_inv in H as [(u & s1 & E1 & H)|(e & _ & ?)]; [|done].
  apply bind_inv in H as [(b & s2 & E2 & H)|(e & _ & ?)]; [|done].
  destruct b; simpl in H; [|done].
  apply bind_inv in H as [(c' & s3 & E3 & H)|(e & _ & ?)]; [|done].
  inversion H; subst.
  eapply call_named; [exact E3|compute_done|].
  apply call_ret_inv in E3 as (w3 & X3 & _). by apply refs_commit_named in X3.
Qed.

End Lookup.

(** ** What [reset] and [getBranchHead] do *)

Section ResetRuns.
Context `{B : GitBackend} `{ZM : ZuulModel}.

Lemma quiet_calls ks s s' :
  quiet ks s s' ->
  exists n, calls s' = calls s ++ n /\ Forall (fun c => kind_of c ∈ ks) n.
Proof. intros [[Hw _] _]. by apply within_calls. Qed.

Lemma update_trace self s u s' :
  Repo.update self s = (Ret u, s') ->
  exists n,
    calls s' = calls s ++ n ++ [pack (OriginFetch (local_path self) None true true)] /\
    Forall (fun c => kind_of c ∈ [KOs; KSetup; KRead; KFetch]) n.
Proof.
  unfold Repo.update. intros H.
  apply bind_inv in H as [(u1 & s1 & E1 & H)|(e & _ & ?)]; [|done].
  apply bind_inv in H as [(u2 & s2 & E2 & H)|(e & _ & ?)]; [|done].
  apply bind_inv in H as [(v & s3 & E3 & H)|(e & _ & ?)]; [|done].
  apply bind_inv in H as [(u4 & s4 & E4 & H)|(e & _ & ?)]; [|done].
  assert (Hq : quiet [KOs; KSetup; KRead; KFetch] s s4).
  { etrans; [eapply quiet_mono; [|eapply createRepoObject_quiet, E1]; compute_done|].
    etrans; [eapply (call_quiet _ [KOs; KSetup; KRead; KFetch]), E2; compute_done|].
    etrans; [eapply (call_quiet _ [KOs; KSetup; KRead; KFetch]), E3; compute_done|].
    destruct (tuple_ltb _ _).
    - eapply (call_quiet _ [KOs; KSetup; KRead; KFetch]), E4. compute_done.
    - inversion E4; subst. reflexivity. }
  apply quiet_calls in Hq as (n & Hn & Hk). apply call_calls in H.
  exists n. by rewrite H, Hn, <- app_assoc.
Qed.

Lemma create_heads_trace path (refs : list string) s r s' :
  for_each refs (fun r =>
    if String.eqb r "HEAD" then mret tt
    else call (CreateHead path r (TargetRemote r) true)) s = (r, s') ->
  exists n, calls s' = calls s ++ n /\
    forall k, k ∈ n ->
      exists h, k = pack (CreateHead path h (TargetRemote h) true).
Proof.
  revert s. induction refs as [|h refs IH]; intros s H; simpl in H.
  - inversion H; subst. exists []. rewrite app_nil_r. split; [done|].
    intros k Hk. by apply elem_of_nil in Hk.
  - apply bind_inv in H as [(u & s1 & E & H)|(e & E & _)].
    + apply IH in H as (n & Hn & Hk). destruct (String.eqb h "HEAD").
      * inversion E; subst. eauto.
      * apply call_calls in E. exists (pack (CreateHead path h (TargetRemote h) true) :: n).
        rewrite Hn, E, <- app_assoc. split; [done|].
        intros k [->|Hin]%elem_of_cons; eauto.
    + destruct (String.eqb h "HEAD"); [inversion E|].
      apply call_calls in E. exists [pack (CreateHead path h (TargetRemote h) true)].
      split; [done|]. intros k [->|Hin]%elem_of_cons; eauto.
      by apply elem_of_nil in Hin.
Qed.

Lemma set_head_quiet path :
  pres (quiet [KRead; KCheckout])
    (try_except
       (refs ← call (OriginRefs path);
        if bool_decide ("HEAD" ∈ refs)
        then call (SetHeadReference path (TargetRemote "HEAD"))
        else raise (Lib IndexError))
       (fun e =>
          match e with
          | Lib IndexError =>
              Some (refs ← call (OriginRefs path);
                    match refs with
                    | r :: _ => call (SetHeadReference path (TargetRemote r))
                    | [] => raise (Lib IndexError)
                    end)
          | _ => None
          end)).
Proof. quiet_auto. Qed.

Lemma reset_repo_to_head_calls path s r s' :
  reset_repo_to_head path s = (r, s') ->
  calls s' = calls s ++ [pack (GitReset path ["--hard"; "HEAD"; "--"])].
Proof.
  unfold reset_repo_to_head. intros H.
  apply try_except_inv in H as [(a & E & _)|(e & s1 & E & H)].
  - by apply call_calls in E.
  - apply call_calls in E. destruct e as [[]| | | |]; simpl in H;
      lazymatch type of H with
      | _ /\ _ => by destruct H as [_ ->]
      | _ => destruct (decide _); inversion H; by subst
      end.
Qed.

(** A [reset] that returns has fetched everything, has forced the local
    heads to the remote references and has ended with [reset --hard] and
    [clean]. *)
Lemma reset_trace self s u s' :
  Repo.reset self s = (Ret u, s') ->
  exists n1 n2,
    calls s' =
      calls s ++ n1 ++ [pack (OriginFetch (local_path self) None true true)]
      ++ n2 ++ [pack (GitReset (local_path self) ["--hard"; "HEAD"; "--"]);
                pack (GitClean (local_path self) ["-x"; "-f"; "-d"])] /\
    heads_follow_origin (local_path self) (n1 ++ n2).
Proof.
  unfold Repo.reset. intros H.
  apply bind_inv in H as [(u1 & s1 & E1 & H)|(e & _ & ?)]; [|done].
  apply bind_inv in H as [(u2 & s2 & E2 & H)|(e & _ & ?)]; [|done].
  apply bind_inv in H as [(u3 & s3 & E3 & H)|(e & _ & ?)]; [|done].
  apply bind_inv in H as [(refs & s4 & E4 & H)|(e & _ & ?)]; [|done].
  apply bind_inv in H as [(u5 & s5 & E5 & H)|(e & _ & ?)]; [|done].
  apply bind_inv in H as [(u6 & s6 & E6 & H)|(e & _ & ?)]; [|done].
  apply bind_inv in H as [(u7 & s7 & E7 & H)|(e & _ & ?)]; [|done].
  apply update_trace in E1 as (n1 & Hn1 & Hk1).
  assert (Hq : quiet [KOs; KSetup; KRead] s1 s4).
  { etrans; [eapply quiet_mono; [|eapply createRepoObject_quiet, E2]; compute_done|].
    etrans; [eapply (call_quiet _ [KOs; KSetup; KRead]), E3; compute_done|].
    eapply (call_quiet _ [KOs; KSetup; KRead]), E4; compute_done. }
  apply quiet_calls in Hq as (a & Ha & Hka).
  apply create_heads_trace in E5 as (n5 & Hn5 & Hk5).
  apply set_head_quiet, quiet_calls in E6 as (b & Hb & Hkb).
  apply reset_repo_to_head_calls in E7. apply call_calls in H.
  exists n1, (a ++ n5 ++ b). split.
  - rewrite H, E7, Hb, Hn5, Ha, Hn1. rewrite <- !app_assoc. done.
  - intros k Hin Hk. rewrite !elem_of_app in Hin.
    rewrite Forall_forall in Hk1, Hka, Hkb.
    destruct Hin as [Hin|[Hin|[Hin|Hin]]].
    + apply Hk1 in Hin. rewrite Hk in Hin. exfalso. revert Hin. compute_done.
    + apply Hka in Hin. rewrite Hk in Hin. exfalso. revert Hin. compute_done.
    + by apply Hk5.
    + apply Hkb in Hin. rewrite Hk in Hin. exfalso. revert Hin. compute_done.
Qed.

Lemma getBranchHead_trace self b s c s' :
  Repo.getBranchHead self b s = (Ret c, s') ->
  exists n,
    calls s' = calls s ++ n ++ [pack (HeadsCommit (local_path self) b)] /\
    Forall (fun k => kind_of k ∈ [KOs; KSetup]) n.
Proof.
  unfold Repo.getBranchHead. intros H.
  apply bind_inv in H as [(u1 & s1 & E1 & H)|(e & _ & ?)]; [|done].
  apply createRepoObject_quiet, quiet_calls in E1 as (n & Hn & Hk).
  apply call_calls in H. exists n. by rewrite H, Hn, <- app_assoc.
Qed.

(** An item that gave a commit left it in the dict under its pair. *)
Lemma success_recorded item s c s' :
  Merger._mergeItem item s = (Ret (Some c), s') ->
  dict_get (project item, branch item) (recent s') = Some c.
Proof.
  intros H. pose proof (_mergeItem_run item s) as Hrun.
  destruct (find_marker item s) as [[[c0|]|e] sp] eqn:E.
  - rewrite Hrun in H. inversion H; subst. simpl. apply dict_get_set_eq.
  - destruct Hrun as (repo & _ & Hrun). rewrite Hrun in H.
    apply merge_unresolved_published in H as (s1 & _ & Hloop).
    cbv zeta in Hloop. apply publish_loop_same in Hloop as [_ Hrec].
    rewrite Hrec. simpl. apply dict_get_set_eq.
  - rewrite Hrun in H. done.
Qed.

End ResetRuns.

(** ** Local heads along a reset *)

Section Heads.
Context `{B : GitBackend} `{ZM : ZuulModel} `{HL : !HeadLaws}.

Lemma steps_local_head ks x y path b c :
  steps ks x y -> ks ⊆ [KOs; KSetup; KRead; KCheckout] ->
  local_head x.1 path b = Some c -> local_head y.1 path b = Some c.
Proof.
  intros H Hk Hc. induction H as [|x w l T c' H IH Hc']; [done|].
  simpl in *. apply local_head_keeps; [by apply Hk|by apply IH].
Qed.

Lemma steps_remote_ref ks x y path r :
  steps ks x y -> ks ⊆ [KRead; KBranch; KCheckout] ->
  remote_ref y.1 path r = remote_ref x.1 path r.
Proof.
  intros H Hk. induction H as [|x w l T c H IH Hc]; [done|].
  simpl in *. rewrite remote_ref_frame; [by apply IH|by apply Hk].
Qed.

Lemma quiet_local_head ks s s' path b c :
  quiet ks s s' -> ks ⊆ [KOs; KSetup; KRead; KCheckout] ->
  local_head (world s) path b = Some c ->
  local_head (world s') path b = Some c.
Proof.
  intros [[[H _] _] _] Hk Hc.
  by apply (steps_local_head _ _ _ path b c H Hk).
Qed.

Lemma quiet_remote_ref ks s s' path r :
  quiet ks s s' -> ks ⊆ [KRead; KBranch; KCheckout] ->
  remote_ref (world s') path r = remote_ref (world s) path r.
Proof.
  intros [[[H _] _] _] Hk. by apply (steps_remote_ref _ _ _ path r) in H.
Qed.

(** The loop of [reset] over [origin.refs]: when it goes through, the
    local head of every listed reference but [HEAD] is on the commit of
    the remote reference, and no remote reference has moved. *)
Lemma create_heads_sync path (refs : list string) s u s' b :
  for_each refs (fun r =>
    if String.eqb r "HEAD" then mret tt
    else call (CreateHead path r (TargetRemote r) true)) s = (Ret u, s') ->
  (forall r, remote_ref (world s') path r = remote_ref (world s) path r) /\
  (b ∈ refs -> b <> "HEAD" ->
   local_head (world s') path b = remote_ref (world s') path b).
Proof.
  revert s. induction refs as [|h refs IH]; intros s H; simpl in H.
  - inversion H; subst. split; [done|]. intros Hin. by apply elem_of_nil in Hin.
  - apply bind_inv in H as [([] & s1 & E & H)|(e & _ & ?)]; [|done].
    destruct (IH _ H) as [Hrem Hloc].
    destruct (String.eqb_spec h "HEAD") as [->|Hh].
    + inversion E; subst. split; [done|].
      intros [->|Hin]%elem_of_cons Hb; [done|by apply Hloc].
    + assert (Hrem1 : forall r,
                remote_ref (world s1) path r = remote_ref (world s) path r).
      { intros r. apply (call_quiet _ [KBranch]) in E; [|compute_done].
        apply (quiet_remote_ref _ _ _ path r) in E; [done|compute_done]. }
      split; [intros r; by rewrite Hrem, Hrem1|].
      intros Hin Hb. destruct (decide (b ∈ refs)) as [Hin'|Hni]; [by apply Hloc|].
      apply elem_of_cons in Hin as [->|Hin]; [|done].
      assert (Hkeep : local_head (world s') path h = local_head (world s1) path h).
      { clear -H Hni HL. revert s1 H. induction refs as [|x refs IH];
          intros s1 H; simpl in H.
        - by inversion H; subst.
        - apply not_elem_of_cons in Hni as [Hne Hni].
          apply bind_inv in H as [([] & s2 & E & H)|(e & _ & ?)]; [|done].
          rewrite (IH Hni _ H). destruct (String.eqb x "HEAD").
          + by inversion E; subst.
          + unfold call in E.
            pose proof (create_head_other path x (TargetRemote x) true
                          (world s1) path h) as Ho.
            destruct (exec _ (world s1)) as [r0 w]. inversion E; subst.
            simpl in *. apply Ho. congruence. }
      rewrite Hkeep, Hrem, Hrem1.
      apply call_ret_inv in E as (w & X & <-). by apply create_head_sets in X.
Qed.

(** After a [reset] that returns, the head read for a branch the remote
    has is the commit of its remote-tracking reference. *)
Lemma reset_then_branch_head self b s u s2 base s3 :
  Repo.reset self s = (Ret u, s2) ->
  Repo.getBranchHead self b s2 = (Ret base, s3) ->
  b <> "HEAD" ->
  is_Some (remote_ref (world s2) (local_path self) b) ->
  remote_ref (world s2) (local_path self) b = Some base.
Proof.
  intros Hreset Hhead Hb Hsome.
  unfold Repo.getBranchHead in Hhead.
  apply bind_inv in Hhead as [(u1 & t1 & G1 & Hhead)|(e & _ & ?)]; [|done].
  apply call_ret_inv in Hhead as (w & X & _).
  apply heads_commit_reads in X.
  apply createRepoObject_quiet in G1.
  unfold Repo.reset in Hreset.
  apply bind_inv in Hreset as [(u1' & s1 & E1 & H)|(e & _ & ?)]; [|done].
  apply bind_inv in H as [(u2 & s2' & E2 & H)|(e & _ & ?)]; [|done].
  apply bind_inv in H as [(u3 & s3' & E3 & H)|(e & _ & ?)]; [|done].
  apply bind_inv in H as [(refs & s4 & E4 & H)|(e & _ & ?)]; [|done].
  apply bind_inv in H as [(u5 & s5 & E5 & H)|(e & _ & ?)]; [|done].
  apply bind_inv in H as [(u6 & s6 & E6 & H)|(e & _ & ?)]; [|done].
  apply bind_inv in H as [(u7 & s7 & E7 & H)|(e & _ & ?)]; [|done].
  assert (Htail : quiet [KRead; KCheckout] s5 s2).
  { etrans; [eapply set_head_quiet, E6|].
    etrans; [eapply quiet_mono; [|eapply reset_repo_to_head_quiet, E7];
             compute_done|].
    eapply (call_quiet _ [KRead; KCheckout]), H. compute_done. }
  destruct u5. destruct (create_heads_sync _ _ _ _ _ b E5) as [Hrem5 Hloc5].
  assert (Hq4 : quiet [KRead] s3' s4)
    by (eapply (call_quiet _ [KRead]), E4; compute_done).
  assert (Hrem_tail : remote_ref (world s2) (local_path self) b
                      = remote_ref (world s5) (local_path self) b).
  { by rewrite (quiet_remote_ref _ _ _ _ _ Htail) by compute_done. }
  assert (Hin : b ∈ refs).
  { apply call_ret_inv in E4 as (w4 & X4 & _).
    eapply origin_refs_lists; [exact X4|].
    rewrite <- (quiet_remote_ref _ _ _ _ _ Hq4) by compute_done.
    by rewrite <- Hrem5, <- Hrem_tail. }
  destruct Hsome as [c Hc]. rewrite Hc. f_equal.
  assert (Hl5 : local_head (world s5) (local_path self) b = Some c).
  { by rewrite (Hloc5 Hin Hb), <- Hrem_tail. }
  apply (quiet_local_head _ _ _ _ _ _ Htail) in Hl5; [|compute_done].
  apply (quiet_local_head _ _ _ _ _ _ G1) in Hl5; [|compute_done].
  congruence.
Qed.

End Heads.

(** The in-memory back end keeps the laws of heads. *)
Section FakeHeads.
#[local] Existing Instance Fake.fake_backend.

Lemma fake_origin_refs_lists path w refs w' r :
  exec (OriginRefs path) w = (inl refs, w') ->
  is_Some (Fake.fake_remote_ref w path r) -> r ∈ refs.
Proof.
  intros H [c Hc]. simpl in H. unfold Fake.fake_exec in H.
  destruct (Fake.take_fault _ _) as [[e rest]|]; [done|].
  simpl in H. inversion H; subst. unfold Fake.remote_heads.
  apply dict_get_elem in Hc. apply list_elem_of_omap.
  exists ((path, r), c). split; [done|]. simpl. by rewrite decide_True.
Qed.

Lemma fake_create_head_sets path name r force w w' :
  exec (CreateHead path name (TargetRemote r) force) w = (inl tt, w') ->
  Fake.fake_local_head w' path name = Fake.fake_remote_ref w path r.
Proof.
  intros H. simpl in H. unfold Fake.fake_exec in H.
  destruct (Fake.take_fault _ _) as [[e rest]|]; [done|].
  simpl in H. unfold Fake.fake_local_head, Fake.fake_remote_ref.
  destruct (dict_get (path, r) (Fake.origin w)) as [c|]; [|done].
  destruct (negb force && _); [done|]. inversion H; subst. simpl.
  apply dict_get_set_eq.
Qed.

Lemma fake_create_head_other path name t force w path' name' :
  (path', name') <> (path, name) ->
  Fake.fake_local_head (exec (CreateHead path name t force) w).2 path' name'
  = Fake.fake_local_head w path' name'.
Proof.
  intros Hne. simpl. unfold Fake.fake_exec.
  destruct (Fake.take_fault _ _) as [[e rest]|]; [done|].
  simpl. unfold Fake.fake_local_head.
  destruct (Fake.resolve w path t) as [c|]; [|done].
  destruct (negb force && _); [done|]. simpl. by apply dict_get_set_ne.
Qed.

Lemma fake_heads_commit_reads path b w c w' :
  exec (HeadsCommit path b) w = (inl c, w') ->
  Fake.fake_local_head w path b = Some c.
Proof.
  intros H. simpl in H. unfold Fake.fake_exec in H.
  destruct (Fake.take_fault _ _) as [[e rest]|]; [done|].
  simpl in H. unfold Fake.fake_local_head.
  destruct (dict_get _ _) as [c'|]; by inversion H.
Qed.

Lemma fake_local_head_keeps T (c : Call T) w path b x :
  kind_of_call c ∈ [KOs; KSetup; KRead; KCheckout] ->
  Fake.fake_local_head w path b = Some x ->
  Fake.fake_local_head (exec c w).2 path b = Some x.
Proof.
  intros Hk Hx.
  assert (E : Fake.fake_local_head (exec c w).2 path b
              = Fake.fake_local_head w path b); [|by rewrite E].
  clear Hx. simpl. unfold Fake.fake_exec, Fake.fake_local_head.
  destruct (Fake.take_fault _ _) as [[e rest]|]; [done|].
  destruct c; simpl in *; try done; try (exfalso; revert Hk; compute_done);
    unfold Fake.combine_heads; repeat case_match; done.
Qed.

Lemma fake_remote_ref_frame T (c : Call T) w path r :
  kind_of_call c ∈ [KRead; KBranch; KCheckout] ->
  Fake.fake_remote_ref (exec c w).2 path r = Fake.fake_remote_ref w path r.
Proof.
  intros _. simpl. unfold Fake.fake_exec, Fake.fake_remote_ref.
  destruct (Fake.take_fault _ _) as [[e rest]|]; [done|].
  destruct c; simpl in *; try done; unfold Fake.combine_heads;
    repeat case_match; done.
Qed.

Definition fake_head_laws : HeadLaws :=
  {| local_head := Fake.fake_local_head;
     remote_ref := Fake.fake_remote_ref;
     origin_refs_lists := fake_origin_refs_lists;
     create_head_sets := fake_create_head_sets;
     create_head_other := fake_create_head_other;
     heads_commit_reads := fake_heads_commit_reads;
     local_head_keeps := fake_local_head_keeps;
     remote_ref_frame := fake_remote_ref_frame |}.

End FakeHeads.

(** * Properties of the merger *)

Section Properties.
Context `{B : GitBackend} `{ZM : ZuulModel}.

(** ** Empty queue *)

(** C9.  On the empty queue the loop body never runs, [commit] is still
    [None] when [commit.hexsha] is evaluated, and [mergeChanges] raises
    [AttributeError]: it does not return [None]. *)
Theorem mergeChanges_empty_queue (s : St) :
  Merger.mergeChanges [] s = (Raise AttributeError, set_recent [] s).
Proof. reflexivity. Qed.

(** ** [updateRepo] *)

(** C6, as the code has it.  When the project is registered, or a url is
    given, [updateRepo] returns normally whatever [Repo.update] does, and an
    exception of [Repo.update] is logged.  (With neither, the exception of
    [getRepo] leaves [updateRepo].) *)
Theorem updateRepo_swallows (p : string) (url : option string) (s : St) :
  is_Some (repos s !! p) \/ truthy_opt_str url = true ->
  exists s',
    Merger.updateRepo p url s = (Ret tt, s') /\
    forall repo s1 e s2,
      Merger.getRepo p url s = (Ret (Some repo), s1) ->
      Repo.update repo s1 = (Raise e, s2) ->
      s' = set_logs (logs s2 ++ [LogUpdateFailed p e]) s2.
Proof.
  intros Hreg. unfold Merger.updateRepo. rewrite bind_run.
  assert (exists repo s1, Merger.getRepo p url s = (Ret (Some repo), s1))
    as (repo & s1 & E).
  { destruct (getRepo_run p url s) as
      [(repo & _ & Hr)|[(E & Hu & _)|(_ & _ & repo & s1 & Hr & _)]]; eauto.
    destruct Hreg as [[x Hx]|Hu']; congruence. }
  rewrite E. unfold try_except. simpl.
  destruct (Repo.update repo s1) as [[[]|e] s2] eqn:Eu.
  - eexists. split; [done|]. intros ? ? ? ? [= <- <-]. congruence.
  - eexists. split; [done|]. intros ? ? ? ? [= <- <-]. congruence.
Qed.

(** ** Unsupported merge mode *)

(** C5, as the code has it.  Take an item whose merge mode is none of the
    three.  (1) When its project is registered, or the item has a url,
    [getRepo] gives the handle and [_mergeChange] checks out the base
    before it looks at the mode.  If the checkout raises, [_mergeChange]
    logs the failure of the checkout and returns [None]: the mode is never
    looked at.  If the checkout returns, the unsupported mode is raised,
    caught and logged, and [_mergeChange] returns [None].  Either way
    nothing is called after the checkout: the calls are path tests,
    set-up, reads and those of the checkout; nothing is fetched, merged or
    cherry-picked.  (2) When the project is not registered and the item
    has no url, the exception of [getRepo] leaves [_mergeChange]. *)
Theorem _mergeChange_unsupported_mode (item : Item) (base : Commit) (s : St) :
  merge_mode item <> MERGER_MERGE ->
  merge_mode item <> MERGER_MERGE_RESOLVE ->
  merge_mode item <> MERGER_CHERRY_PICK ->
  (is_Some (repos s !! project item) \/ truthy_opt_str (url item) = true ->
   exists repo s1,
     Merger.getRepo (project item) (url item) s = (Ret (Some repo), s1) /\
     forall r2 s2,
       Repo.checkout repo base s1 = (r2, s2) ->
       Merger._mergeChange item base s =
         (Ret None,
          set_logs
            (logs s2 ++
             [match r2 with
              | Ret _ =>
                  LogMergeException (UnsupportedModeException (merge_mode item))
              | Raise e => LogCheckoutFailed base e
              end]) s2) /\
       exists n, calls s2 = calls s ++ n /\
         Forall (fun c => kind_of c ∈ [KOs; KSetup; KRead; KCheckout]) n) /\
  (repos s !! project item = None -> truthy_opt_str (url item) = false ->
   Merger._mergeChange item base s
   = (Raise (NoUrlException (project item)), s)).
Proof.
  intros H1 H2 H3. split.
  - intros Hreg.
    assert (exists repo s1,
              Merger.getRepo (project item) (url item) s
              = (Ret (Some repo), s1)) as (repo & s1 & E).
    { destruct (getRepo_run (project item) (url item) s) as
        [(repo & _ & Hr)|[(E & Hu & _)|(_ & _ & repo & s1 & Hr & _)]]; eauto.
      destruct Hreg as [[x Hx]|Hu']; congruence. }
    exists repo, s1. split; [done|]. intros r2 s2 E2. split.
    + unfold Merger._mergeChange. rewrite bind_run, E, bind_run.
      unfold try_except at 1. rewrite bind_run. unfold Merger.on_repo.
      rewrite E2. destruct r2 as [c|e]; simpl; [|done].
      rewrite !decide_False by done. done.
    + apply getRepo_calm in E as [Hw1 _]. apply checkout_quiet in E2 as [[Hw2 _] _].
      apply within_calls in Hw1 as (n1 & Hn1 & Hk1).
      apply within_calls in Hw2 as (n2 & Hn2 & Hk2).
      exists (n1 ++ n2). rewrite Hn2, Hn1, app_assoc. split; [done|].
      apply Forall_app. split; [|done].
      eapply Forall_impl; [exact Hk1|]. intros c Hc. simpl in *.
      revert Hc. generalize (kind_of c). intros k.
      intros [->|[->|Hk%elem_of_nil]%elem_of_cons]%elem_of_cons;
        [compute_done..|done].
  - intros Hreg Hu. unfold Merger._mergeChange. rewrite bind_run.
    destruct (getRepo_run (project item) (url item) s) as
      [(repo & Hr & _)|[(_ & _ & ->)|(_ & Hu' & _)]]; [congruence|done|congruence].
Qed.

(** ** The retry of [fetch] *)

(** C8.  Once the repository object and its remote are at hand ([s1]), the
    refspec is fetched.  If that first [origin.fetch] returns, or raises
    anything but [AssertionError], its outcome is the outcome of [fetch]
    and it was the only fetch.  If it raises [AssertionError], exactly one
    more [origin.fetch] is made and its outcome, whatever it is, is the
    outcome of [fetch].  Nothing was fetched before [s1]. *)
Theorem fetch_retries_once (self : RepoObj) (ref : string) (s s1 : St) :
  let path := local_path self in
  let c := OriginFetch path (Some ref) false false in
  (Repo.createRepoObject self;; call (RemotesOrigin path)) s = (Ret tt, s1) ->
  forall r1 w1, exec c (world s1) = (r1, w1) ->
  (exists n, calls s1 = calls s ++ n /\
     Forall (fun c => kind_of c ∈ [KOs; KSetup; KRead]) n) /\
  match r1 with
  | inr AssertionError =>
      forall r2 w2, exec c w1 = (r2, w2) ->
      Repo.fetch self ref s =
        (of_lib r2, set_calls (calls s1 ++ [pack c; pack c]) (set_world w2 s1))
  | _ =>
      Repo.fetch self ref s =
        (of_lib r1, set_calls (calls s1 ++ [pack c]) (set_world w1 s1))
  end.
Proof.
  intros path c Hpre r1 w1 E1. split.
  - assert (Hq : pres (quiet [KOs; KSetup; KRead])
                   (Repo.createRepoObject self;; call (RemotesOrigin path)))
      by quiet_auto.
    apply Hq in Hpre as [[Hw _] _]. by apply within_calls in Hw.
  - apply bind_inv in Hpre as [(u & sa & Ea & Eb)|(e & _ & ?)]; [|done].
    assert (Hrun : forall k : M unit,
      (Repo.createRepoObject self;; call (RemotesOrigin path);; k) s = k s1).
    { intros k. rewrite bind_run, Ea, bind_run, Eb. done. }
    assert (Hc1 : call c s1 =
              (of_lib r1, set_calls (calls s1 ++ [pack c]) (set_world w1 s1)))
      by (unfold call; rewrite E1; done).
    unfold Repo.fetch. fold path. fold c. rewrite Hrun.
    unfold try_except. rewrite Hc1.
    destruct r1 as [[]|e]; simpl; [done|].
    destruct e; simpl; try done.
    intros r2 w2 E2. unfold call. simpl. rewrite E2.
    unfold set_calls, set_world. simpl. by rewrite <- app_assoc.
Qed.

(** ** Fail fast *)

(** C1, as the code has it.  (1) A commit identifier is returned only when
    every item gave a commit, and it is the [hexsha] of the last one.
    (2) When the items before [item] gave a commit and [item] returns
    [None], [mergeChanges] returns [None] in the very state [item] left:
    nothing after it is processed.  (3) An item that returns [None] either
    made no [Reference.create] call at all, or failed while writing the
    marker references and logged it.  (4) When the items before [item]
    gave a commit and [item] raises, [mergeChanges] raises the same
    exception in the very state [item] left: it does not return [None],
    and nothing after the item is processed.  (5) An item that raises made
    no [Reference.create] call. *)
Theorem mergeChanges_fail_fast :
  (forall items s h s',
     Merger.mergeChanges items s = (Ret (Some h), s') ->
     exists c,
       process_all items None (set_recent [] s) = Some (Some c, s') /\
       h = hexsha c) /\
  (forall pre item post s last s1 s2,
     process_all pre None (set_recent [] s) = Some (last, s1) ->
     Merger._mergeItem item s1 = (Ret None, s2) ->
     Merger.mergeChanges (pre ++ item :: post) s = (Ret None, s2)) /\
  (forall item s s',
     Merger._mergeItem item s = (Ret None, s') ->
     (exists n, calls s' = calls s ++ n /\
        Forall (fun c => kind_of c <> KMarker) n) \/
     (exists n e, logs s' = n ++ [LogSetZuulRefFailed item e])) /\
  (forall pre item post s last s1 e s2,
     process_all pre None (set_recent [] s) = Some (last, s1) ->
     Merger._mergeItem item s1 = (Raise e, s2) ->
     Merger.mergeChanges (pre ++ item :: post) s = (Raise e, s2)) /\
  (forall item s e s',
     Merger._mergeItem item s = (Raise e, s') ->
     exists n, calls s' = calls s ++ n /\
       Forall (fun c => kind_of c <> KMarker) n).
Proof.
  assert (Hclean : forall s s',
    within [KOs; KSetup; KRead; KFetch; KBranch; KCheckout; KMerge;
            KCherryPick] s s' ->
    exists n, calls s' = calls s ++ n /\
      Forall (fun c => kind_of c <> KMarker) n).
  { intros s s' Hw. apply within_calls in Hw as (n & Hn & Hk).
    exists n. split; [done|].
    eapply Forall_impl; [exact Hk|]. intros c Hc Heq. simpl in Hc.
    rewrite Heq in Hc. revert Hc. compute_done. }
  split; [|split; [|split; [|split]]].
  - intros items s h s' H. rewrite mergeChanges_loop in H.
    destruct (for_in _ _ _ _) as [[[r|[c|]]|e] s1] eqn:E; try done.
    + inversion H; subst.
      destruct items as [|item items]; [done|].
      rewrite for_in_cons, each_item_run in E.
      destruct (Merger._mergeItem item _) as [[[c|]|e] s2]; [|done..].
      clear -E. exfalso. revert c s2 E.
      induction items as [|i items IH]; intros c s2 E; [done|].
      rewrite for_in_cons, each_item_run in E.
      destruct (Merger._mergeItem i _) as [[[c'|]|e] s3]; [|done..]. eauto.
    + inversion H; subst. exists c. split; [|done]. by apply loop_next.
  - intros pre item post s last s1 s2 Hpre Hitem.
    rewrite mergeChanges_loop, (loop_app _ _ _ _ _ _ Hpre).
    by rewrite for_in_cons, each_item_run, Hitem.
  - intros item s s' H.
    destruct (_mergeItem_failed _ _ _ _ H) as [Hw|[_ Hl]]; [done| |by right].
    left. by apply Hclean.
  - intros pre item post s last s1 e s2 Hpre Hitem.
    rewrite mergeChanges_loop, (loop_app _ _ _ _ _ _ Hpre).
    by rewrite for_in_cons, each_item_run, Hitem.
  - intros item s e s' H.
    destruct (_mergeItem_failed _ _ _ _ H) as [Hw|[? _]]; [done| |done].
    by apply Hclean.
Qed.

(** ** The registry covers the cache *)

(** C10.  (1) [_mergeItem] keeps every project of [recent] registered.
    (2) So does a whole [mergeChanges], from any state, and none of the
    records it logs reports a handle look-up without url failing in the
    loop over [recent.items()].  (3) Where the projects of [recent] are
    registered, [getRepo] gives the handle of each of them, with any url
    or none, and changes nothing. *)
Theorem cached_projects_registered :
  (forall item s r s',
     cache_registered s -> Merger._mergeItem item s = (r, s') ->
     cache_registered s') /\
  (forall items s r s',
     Merger.mergeChanges items s = (r, s') ->
     cache_registered s' /\
     exists n, logs s' = logs s ++ n /\ Forall found_handle n) /\
  (forall s p b c url,
     cache_registered s -> ((p, b), c) ∈ recent s ->
     exists repo, Merger.getRepo p url s = (Ret (Some repo), s)).
Proof.
  split; [|split].
  - intros item s r s' Hinv H. by destruct (_mergeItem_inv _ _ _ _ Hinv H).
  - intros items s r s' H. rewrite mergeChanges_loop in H.
    destruct (for_in _ _ _ _) as [r1 s1] eqn:E.
    apply loop_inv in E as [Hi Hp].
    + assert (s' = s1) as ->.
      { destruct r1 as [[?|[?|]]|?]; by inversion H. }
      done.
    + intros p b c Hin. simpl in Hin. by apply elem_of_nil in Hin.
  - intros s p b c url Hinv Hin. destruct (Hinv _ _ _ Hin) as [repo Hreg].
    exists repo. by apply getRepo_known.
Qed.

(** ** Marker references of a merged item *)

(** C2, as the code has it.  When an item was merged (its own marker
    reference was not found) and gave a commit, every pair of [recent] has
    the marker reference [branch/ref] of that item in the working copy of
    its project, at the commit the dict holds for the pair.  [recent] is a
    dict (no key twice) and the registered projects have their own working
    copies. *)
Theorem markers_after_merged_item `{ML : !MarkerLaws}
  (item : Item) (s : St) (c : Commit) (s' : St) :
  Merger._mergeItem item s = (Ret (Some c), s') ->
  (find_marker item s).1 = Ret None ->
  NoDup (recent s).*1 ->
  distinct_paths (repos s') ->
  forall p b mrc,
    dict_get (p, b) (recent s') = Some mrc ->
    exists repo,
      repos s' !! p = Some repo /\
      marker (world s') (local_path repo) (b +:+ "/" +:+ ref item) = Some mrc.
Proof.
  intros H Hfm Hnd Hdp p b mrc Hget.
  pose proof (_mergeItem_run item s) as Hrun.
  destruct (find_marker item s) as [[[c0|]|e] sp] eqn:E; try done.
  destruct Hrun as (repo0 & Hreg0 & Hrun). rewrite Hrun in H.
  apply find_marker_calm in E as [_ Hrec].
  apply merge_unresolved_published in H as (s1 & [_ Hrec1] & Hloop).
  cbv zeta in Hloop. set (s2 := set_recent _ s1) in *.
  destruct (publish_loop_same _ _ _ _ _ Hloop) as [Hrep' Hrec'].
  assert (Hnd2 : NoDup (recent s2).*1).
  { simpl. apply dict_set_NoDup. by rewrite Hrec1, Hrec. }
  clearbody s2. rewrite Hrec' in Hget. apply dict_get_elem in Hget.
  apply list_elem_of_lookup in Hget as [i Hi].
  destruct (publish_loop_sets _ _ _ _ Hloop i p b mrc Hi) as (repo & Hreg & Hm).
  exists repo. rewrite Hrep'. split; [done|]. apply Hm.
  intros j p' b' c' repo' Hlt Hj Hreg' [= Hpath Hname].
  rewrite <- Hrep' in Hreg, Hreg'.
  pose proof (distinct_paths_inj _ _ _ _ _ Hdp Hreg' Hreg Hpath) as ->.
  apply append_inv_tail in Hname as ->.
  assert (i = j); [|lia].
  eapply NoDup_lookup; [exact Hnd2| |].
  - rewrite list_lookup_fmap. rewrite Hi. done.
  - rewrite list_lookup_fmap. rewrite Hj. done.
Qed.

(** ** An item already resolved *)

(** C4, as the code has it.  The look-up of [branch/ref] goes by short
    name through all the references of the repository ([named]), not
    through [refs/zuul] alone.  (1) When the look-up gives a commit,
    [_mergeItem] records it in [recent] under the item's pair and returns
    it; up to then only path tests, the set-up of the repository object
    and reads were made.  (2) When a reference of the short name
    [branch/ref] is found at a commit in the working copy of the item's
    registered project, [_mergeItem] returns that commit, recorded in
    [recent], unless a call of the look-up raises; either way nothing but
    path tests, set-up and reads is done.  (3) After a [mergeChanges] over
    one item has returned an identifier, and where the reference then
    found under the marker's short name is the marker reference itself, a
    second [mergeChanges] over the same item returns the same identifier,
    unless a call of the look-up raises, and makes no check-out, fetch,
    merge or cherry-pick. *)
Theorem resolved_item_short_circuit `{ML : !MarkerLaws} `{LL : !LookupLaws} :
  (forall item s c sp,
     find_marker item s = (Ret (Some c), sp) ->
     Merger._mergeItem item s =
       (Ret (Some c),
        set_recent (dict_set (project item, branch item) c (recent sp)) sp) /\
     recent sp = recent s /\
     exists n, calls sp = calls s ++ n /\
       Forall (fun k => kind_of k ∈ [KOs; KSetup; KRead]) n) /\
  (forall item s repo c r s',
     repos s !! project item = Some repo ->
     named (world s) (local_path repo) (branch item +:+ "/" +:+ ref item)
       = Some c ->
     Merger._mergeItem item s = (r, s') ->
     ((r = Ret (Some c) /\
       dict_get (project item, branch item) (recent s') = Some c) \/
      exists e, r = Raise e) /\
     exists n, calls s' = calls s ++ n /\
       Forall (fun k => kind_of k ∈ [KOs; KSetup; KRead]) n) /\
  (forall item s0 h s1 repo r2 s2,
     Merger.mergeChanges [item] s0 = (Ret (Some h), s1) ->
     repos s1 !! project item = Some repo ->
     named (world s1) (local_path repo) (branch item +:+ "/" +:+ ref item)
     = marker (world s1) (local_path repo) (branch item +:+ "/" +:+ ref item) ->
     Merger.mergeChanges [item] s1 = (r2, s2) ->
     (r2 = Ret (Some h) \/ exists e, r2 = Raise e) /\
     exists n, calls s2 = calls s1 ++ n /\
       Forall (fun k => kind_of k ∈ [KOs; KSetup; KRead]) n).
Proof.
  assert (Hfound : forall item s repo c r s',
     repos s !! project item = Some repo ->
     named (world s) (local_path repo) (branch item +:+ "/" +:+ ref item)
       = Some c ->
     Merger._mergeItem item s = (r, s') ->
     ((r = Ret (Some c) /\
       dict_get (project item, branch item) (recent s') = Some c) \/
      exists e, r = Raise e) /\
     exists n, calls s' = calls s ++ n /\
       Forall (fun k => kind_of k ∈ [KOs; KSetup; KRead]) n).
  { intros item s repo c r s' Hreg Hm H.
    pose proof (_mergeItem_run item s) as Hrun.
    destruct (find_marker item s) as [[o|e] sp] eqn:E;
      apply find_marker_calm in E as Hc.
    - destruct (find_marker_registered _ _ _ _ E)
        as (repo' & _ & s1 & s2 & E1 & E2 & E3).
      apply _setGitSsh_quiet in E1 as Hq1.
      assert (Hreg1 : repos s1 !! project item = Some repo).
      { destruct Hq1 as [_ Hq1]. by rewrite Hq1. }
      rewrite (getRepo_known _ _ _ _ Hreg1) in E2. inversion E2; subst.
      apply (quiet_named _ _ _ _ _ _ Hq1) in Hm; [|compute_done].
      apply (getCommitFromRef_named _ _ _ _ _ _ Hm) in E3.
      subst o. rewrite Hrun in H. inversion H; subst.
      split.
      + left. split; [done|]. simpl. apply dict_get_set_eq.
      + simpl. destruct Hc as [Hw _]. by apply within_calls in Hw.
    - rewrite Hrun in H. inversion H; subst. split; [eauto|].
      destruct Hc as [Hw _]. by apply within_calls in Hw. }
  split; [|split; [exact Hfound|]].
  - intros item s c sp E. pose proof (_mergeItem_run item s) as Hrun.
    rewrite E in Hrun. split; [done|].
    apply find_marker_calm in E as [Hw Hr]. split; [done|].
    by apply within_calls in Hw.
  - intros item s0 h s1 repo r2 s2 H1 Hreg Hsame H2.
    assert (exists c,
              h = hexsha c /\
              named (world s1) (local_path repo)
                (branch item +:+ "/" +:+ ref item) = Some c)
      as (c & -> & Hm).
    { rewrite mergeChanges_loop, for_in_cons, each_item_run in H1.
      destruct (Merger._mergeItem item (set_recent [] s0))
        as [[[c|]|e] s1'] eqn:E; [|done..].
      simpl in H1. inversion H1; subst. exists c. split; [done|].
      pose proof (_mergeItem_run item (set_recent [] s0)) as Hrun.
      destruct (find_marker item (set_recent [] s0)) as [[[c0|]|e] sp] eqn:Ef.
      - rewrite Hrun in E. inversion E; subst.
        destruct (find_marker_registered _ _ _ _ Ef)
          as (repo' & Hreg' & sa & sb & _ & _ & E3).
        simpl in Hreg. rewrite Hreg in Hreg'. inversion Hreg'; subst repo'.
        simpl. by apply getCommitFromRef_found in E3.
      - destruct Hrun as (repo0 & Hreg0 & Hrun). rewrite Hrun in E.
        apply find_marker_calm in Ef as [_ Hrec].
        apply merge_unresolved_published in E as (sa & [_ Hreca] & Hloop).
        cbv zeta in Hloop. set (sb := set_recent _ sa) in Hloop.
        assert (Hl : recent sb = [((project item, branch item), c)])
          by (unfold sb; simpl; by rewrite Hreca, Hrec).
        clearbody sb. rewrite Hl in Hloop.
        destruct (publish_loop_sets _ _ _ _ Hloop 0%nat (project item)
                    (branch item) c eq_refl) as (repo' & Hreg' & Hm).
        destruct (publish_loop_same _ _ _ _ _ Hloop) as [Hrep _].
        rewrite <- Hrep, Hreg in Hreg'. inversion Hreg'; subst repo'.
        rewrite Hsame. apply Hm.
        intros j p' b' c' repo' Hlt Hj. destruct j; [lia|done].
      - rewrite Hrun in E. done. }
    rewrite mergeChanges_loop, for_in_cons, each_item_run in H2.
    destruct (Merger._mergeItem item (set_recent [] s1)) as [r s'] eqn:E.
    destruct (Hfound item (set_recent [] s1) repo c r s' Hreg Hm E)
      as [[[-> _]|[e ->]] Hcalls].
    + simpl in H2. inversion H2; subst. split; [by left|done].
    + inversion H2; subst. split; [eauto|done].
Qed.

(** ** [createZuulRef] *)

(** C7, as the code has it.  (1) When [createZuulRef] returns, the marker
    reference points at the commit.  (2) The only [Reference.create] made
    is the one of the class [ZuulReference] ([refs/zuul], commits only)
    for that name and target, without [force].  (3) The answer of the
    library to that one call decides, once the repository object is at
    hand ([s1]): an exception of [Reference.create] is the outcome of
    [createZuulRef], with no further call (no second attempt, none with
    [force]); when [Reference.create] returns, the commit of the
    reference is read, and the outcome of that read is the outcome of
    [createZuulRef]. *)
Theorem createZuulRef_creates `{ML : !MarkerLaws} :
  (forall self name c s c' s',
     Repo.createZuulRef self name (TargetCommit c) s = (Ret c', s') ->
     marker (world s') (local_path self) name = Some c) /\
  (forall self name t s r s',
     Repo.createZuulRef self name t s = (r, s') ->
     exists n, calls s' = calls s ++ n /\
       forall k, k ∈ n -> kind_of k = KMarker ->
         k = pack (ReferenceCreate (local_path self) "refs/zuul" true name t
                     false)) /\
  (forall self name t s s1,
     Repo.createRepoObject self s = (Ret tt, s1) ->
     let k := ReferenceCreate (local_path self) "refs/zuul" true name t false in
     forall r1 w1, exec k (world s1) = (r1, w1) ->
     match r1 with
     | inr e =>
         Repo.createZuulRef self name t s =
           (Raise (Lib e), set_calls (calls s1 ++ [pack k]) (set_world w1 s1))
     | inl full =>
         let k2 := ReferenceCommit (local_path self) full in
         forall r2 w2, exec k2 w1 = (r2, w2) ->
         Repo.createZuulRef self name t s =
           (of_lib r2,
            set_calls (calls s1 ++ [pack k; pack k2]) (set_world w2 s1))
     end).
Proof.
  split; [|split].
  - intros self name c s c' s' H. by eapply createZuulRef_sets.
  - intros self name t s r s' H. unfold Repo.createZuulRef in H.
    assert (Hpre : forall s1 (n1 : list ACall) n2,
              calls s1 = calls s ++ n1 ->
              Forall (fun k => kind_of k ∈ [KOs; KSetup]) n1 ->
              calls s' = calls s1 ++ n2 ->
              (forall k, k ∈ n2 -> kind_of k = KMarker ->
                 k = pack (ReferenceCreate (local_path self) "refs/zuul" true
                             name t false)) ->
              exists n, calls s' = calls s ++ n /\
                forall k, k ∈ n -> kind_of k = KMarker ->
                  k = pack (ReferenceCreate (local_path self) "refs/zuul" true
                              name t false)).
    { intros s1 n1 n2 H1 Hk1 H2 Hk2. exists (n1 ++ n2).
      rewrite H2, H1, app_assoc. split; [done|].
      intros k [Hin|Hin]%elem_of_app Hk; [|by apply Hk2].
      rewrite Forall_forall in Hk1. apply Hk1 in Hin. rewrite Hk in Hin.
      exfalso. revert Hin. compute_done. }
    apply bind_inv in H as [(u & s1 & E1 & H)|(e & E1 & _)];
      apply createRepoObject_quiet in E1 as [[Hw _] _];
      apply within_calls in Hw as (n1 & Hn1 & Hk1).
    + apply bind_inv in H as [(full & s2 & E2 & H)|(e & E2 & _)];
        apply call_calls in E2.
      * apply call_calls in H.
        eapply (Hpre s1 n1); [exact Hn1|exact Hk1| |].
        { rewrite H, E2, <- app_assoc. reflexivity. }
        intros k [->|[->|Hin]%elem_of_cons]%elem_of_cons Hk; try done.
        by apply elem_of_nil in Hin.
      * eapply (Hpre s1 n1); [exact Hn1|exact Hk1|exact E2|].
        intros k [->|Hin]%elem_of_cons Hk; [done|].
        by apply elem_of_nil in Hin.
    + apply (Hpre s' n1 [] Hn1 Hk1); [by rewrite app_nil_r|].
      intros k Hin. by apply elem_of_nil in Hin.
  - intros self name t s s1 E0 k r1 w1 E1.
    unfold Repo.createZuulRef. rewrite bind_run, E0, bind_run.
    unfold ZuulReference._common_path_default,
      ZuulReference._points_to_commits_only. fold k.
    assert (Hc1 : call k s1 =
              (of_lib r1, set_calls (calls s1 ++ [pack k]) (set_world w1 s1)))
      by (unfold call; rewrite E1; done).
    rewrite Hc1. destruct r1 as [full|e]; simpl; [|done].
    intros r2 w2 E2. unfold call. simpl. rewrite E2.
    unfold set_calls, set_world. simpl. by rewrite <- app_assoc.
Qed.

(** ** The base of a merge *)


End Properties.

Section Samples.
#[local] Existing Instance Fake.fake_backend.
#[local] Existing Instance Fake.zuul_model.
Import Scenario.

Lemma updateRepo_swallows_witness :
  exists s',
    Merger.updateRepo "p1" (Some "git://p1") s0 = (Ret tt, s') /\
    forall repo s1 e s2,
      Merger.getRepo "p1" (Some "git://p1") s0 = (Ret (Some repo), s1) ->
      Repo.update repo s1 = (Raise e, s2) ->
      s' = set_logs (logs s2 ++ [LogUpdateFailed "p1" e]) s2.
Proof. apply (updateRepo_swallows "p1" (Some "git://p1") s0). right. reflexivity. Defined.

(** Refreshing a project the merger has never seen, without a url: the
    exception of [getRepo] comes out of [updateRepo]. *)
Lemma updateRepo_raises_without_url :
  Merger.updateRepo "p1" None s0 = (Raise (NoUrlException "p1"), s0) /\
  ~ (exists s', Merger.updateRepo "p1" None s0 = (Ret tt, s')).
Proof.
  assert (E : Merger.updateRepo "p1" None s0 = (Raise (NoUrlException "p1"), s0))
    by (vm_compute; reflexivity).
  split; [exact E|]. intros [s' H]. rewrite E in H. discriminate.
Qed.

(** An unsupported mode on a cloned project: the base is checked out
    ([HEAD] moved, [reset --hard]) before the mode is refused. *)
Lemma _mergeChange_unsupported_checks_out :
  let run := Merger._mergeChange item_bad_mode c0 s_p1 in
  let made := drop (length (calls s_p1)) (calls run.2) in
  run.1 = Ret None /\
  made = [pack (OsPathExists "/w/p1/.git"); pack (GitRepo "/w/p1");
          pack (SetHeadReference "/w/p1" (TargetCommit c0));
          pack (GitReset "/w/p1" ["--hard"; "HEAD"; "--"]);
          pack (HeadCommit "/w/p1")] /\
  ~ Forall (fun c => kind_of c = KOs) made.
Proof.
  vm_compute. split; [reflexivity|]. split; [reflexivity|].
  intros H. inversion H as [|? ? _ H']. inversion H' as [|? ? Hk _].
  discriminate Hk.
Qed.

(** On the cloned project the checkout goes through and the mode is what
    gets logged. *)
Lemma _mergeChange_unsupported_mode_witness :
  let run := Merger._mergeChange item_bad_mode c0 s_p1 in
  run.1 = Ret None /\
  last (logs run.2) = Some (LogMergeException (UnsupportedModeException 7)).
Proof.
  assert (H1 : merge_mode item_bad_mode <> MERGER_MERGE)
    by (vm_compute; discriminate).
  assert (H2 : merge_mode item_bad_mode <> MERGER_MERGE_RESOLVE)
    by (vm_compute; discriminate).
  assert (H3 : merge_mode item_bad_mode <> MERGER_CHERRY_PICK)
    by (vm_compute; discriminate).
  pose proof (_mergeChange_unsupported_mode item_bad_mode c0 s_p1 H1 H2 H3)
    as [HA _].
  assert (Hreg : is_Some (repos s_p1 !! project item_bad_mode) \/
                 truthy_opt_str (url item_bad_mode) = true)
    by (right; reflexivity).
  destruct (HA Hreg) as (repo & s1 & E & Hc).
  destruct (Repo.checkout repo c0 s1) as [r2 s2] eqn:E2.
  destruct (Hc r2 s2 eq_refl) as [Hm _].
  assert (r2 = Ret (mkCommit "c0")) as ->.
  { assert (E' : Merger.getRepo (project item_bad_mode) (url item_bad_mode) s_p1
                 = (Ret (Some repo1), s_p1)) by (vm_compute; reflexivity).
    rewrite E' in E. injection E as <- <-.
    apply (f_equal fst) in E2. vm_compute in E2. by rewrite <- E2. }
  simpl. rewrite Hm. simpl. split; [done|]. by rewrite last_snoc.
Defined.

(** The first fetch of the change trips once; the second goes through. *)
Lemma fetch_retries_once_witness :
  (Repo.fetch repo1 "refs/changes/1" s_flaky).1 = Ret tt /\
  length (calls (Repo.fetch repo1 "refs/changes/1" s_flaky).2) =
    (length (calls s_flaky) + 5)%nat.
Proof.
  destruct ((Repo.createRepoObject repo1;; call (RemotesOrigin "/w/p1")) s_flaky)
    as [r0 s1] eqn:E0.
  assert (r0 = Ret tt) as ->.
  { apply (f_equal fst) in E0. vm_compute in E0. congruence. }
  destruct (exec (OriginFetch "/w/p1" (Some "refs/changes/1") false false) (world s1))
    as [r1 w1] eqn:E1.
  assert (r1 = inr AssertionError) as ->.
  { apply (f_equal snd) in E0. simpl in E0. subst s1.
    apply (f_equal fst) in E1. vm_compute in E1. congruence. }
  destruct (exec (OriginFetch "/w/p1" (Some "refs/changes/1") false false) w1)
    as [r2 w2] eqn:E2.
  assert (r2 = inl tt) as ->.
  { apply (f_equal snd) in E0. simpl in E0. subst s1.
    apply (f_equal snd) in E1. simpl in E1. subst w1.
    apply (f_equal fst) in E2. vm_compute in E2. congruence. }
  pose proof (fetch_retries_once repo1 "refs/changes/1" s_flaky s1 E0 _ _ E1)
    as [_ H].
  simpl in H. rewrite (H _ _ E2). simpl. split; [done|].
  apply (f_equal snd) in E0. simpl in E0. subst s1.
  vm_compute. reflexivity.
Defined.

(** The second of three changes cannot be cherry-picked: the call returns
    [None] in the state that change left, and no marker was written for
    it. *)
Lemma mergeChanges_fail_fast_witness :
  Merger.mergeChanges [item1; item2; item3] s_conflict = (Ret None, s_conflict2)
  /\ ((exists n, calls s_conflict2 = calls s_conflict1 ++ n /\
         Forall (fun c => kind_of c <> KMarker) n) \/
      (exists n e, logs s_conflict2 = n ++ [LogSetZuulRefFailed item2 e])).
Proof.
  destruct mergeChanges_fail_fast as (_ & Hb & Hc & _ & _). split.
  - apply (Hb [item1] item2 [item3] s_conflict (Some (mkCommit "c0+a"))
             s_conflict1 s_conflict2); vm_compute; reflexivity.
  - apply (Hc item2 s_conflict1 s_conflict2). vm_compute. reflexivity.
Defined.

(** Three changes, on [p1], [p2] and [p1] again.  When the third is
    published, its marker is written in [p1] and the write in [p2] fails:
    the call returns [None], yet [refs/zuul/master/Z2] now exists in the
    working copy of the failed item's own project. *)
Lemma marker_written_for_failed_item :
  let run := Merger.mergeChanges [item1; item3; item2] s_marker_fault in
  run.1 = Ret None /\
  Fake.fake_marker (world s_marker_fault) "/w/p1" "master/Z2" = None /\
  Fake.fake_marker (world run.2) "/w/p1" "master/Z2"
    = Some (mkCommit "c0+a^b") /\
  last (logs run.2) = Some (LogSetZuulRefFailed item2 (Lib OSError)).
Proof. vm_compute. repeat split; reflexivity. Qed.

(** After a queue over two projects both are registered, and the handle of
    a cached project is found without a url. *)
Lemma cached_projects_registered_witness :
  let s' := (Merger.mergeChanges [item1; item3] s0).2 in
  cache_registered s' /\
  exists repo, Merger.getRepo "p1" None s' = (Ret (Some repo), s').
Proof.
  destruct cached_projects_registered as (_ & H2 & H3).
  destruct (Merger.mergeChanges [item1; item3] s0) as [r s'] eqn:E.
  destruct (H2 _ _ _ _ E) as [Hi _]. simpl. split; [exact Hi|].
  apply (H3 s' "p1" "master" (mkCommit "c0+a") None Hi).
  replace (recent s') with (recent (Merger.mergeChanges [item1; item3] s0).2)
    by (by rewrite E).
  vm_compute. apply list_elem_of_here.
Defined.

(** Change 2 (on [p1]) merged after changes 1 and 3: the pair of [p2],
    which change 2 does not touch, gets the marker [master/Z2] at its
    cached commit. *)
Lemma markers_after_merged_item_witness :
  let s' := (Merger._mergeItem item2 s_two).2 in
  exists repo,
    repos s' !! "p2" = Some repo /\
    Fake.fake_marker (world s') (local_path repo)
      ("master" +:+ "/" +:+ ref item2) = Some (mkCommit "d0+e").
Proof.
  assert (Hget : dict_get ("p2", "master")
                   (recent (Merger._mergeItem item2 s_two).2)
                 = Some (mkCommit "d0+e")) by (vm_compute; reflexivity).
  destruct (Merger._mergeItem item2 s_two) as [r s'] eqn:E.
  assert (r = Ret (Some (mkCommit "c0+a^b"))) as ->.
  { apply (f_equal fst) in E. vm_compute in E. congruence. }
  pose proof (markers_after_merged_item (ML := fake_marker_laws)
                item2 s_two (mkCommit "c0+a^b") s' E) as H.
  assert (H1 : (find_marker item2 s_two).1 = Ret None)
    by (vm_compute; reflexivity).
  assert (H2 : NoDup (recent s_two).*1).
  { vm_compute. apply (bool_decide_unpack _). vm_compute. exact I. }
  assert (H3 : distinct_paths (repos s')).
  { apply (f_equal (fun x => repos x.2)) in E. simpl in E. rewrite <- E.
    unfold distinct_paths. vm_compute.
    apply (bool_decide_unpack _). vm_compute. exact I. }
  exact (H H1 H2 H3 "p2" "master" (mkCommit "d0+e") Hget).
Defined.

(** A merger that has seen change 3 before is given the queue of changes
    1 and 3.  Change 3 is found resolved and succeeds; the pair of [p1] is
    in the dict, and no marker [master/Z3] is written for it. *)
Lemma no_marker_after_resolved_item :
  let s1 := (Merger._mergeItem item1 (set_recent [] s_seen3)).2 in
  let run := Merger._mergeItem item3 s1 in
  run.1 = Ret (Some (mkCommit "d0+e")) /\
  dict_get ("p1", "master") (recent run.2) = Some (mkCommit "c0+a") /\
  Fake.fake_marker (world run.2) "/w/p1" "master/Z3" = None /\
  Merger.mergeChanges [item1; item3] s_seen3 = (Ret (Some "d0+e"), run.2).
Proof. vm_compute. repeat split; reflexivity. Qed.

(** A marker reference that does not exist yet is created. *)
Lemma createZuulRef_creates_witness :
  let run := Repo.createZuulRef repo1 "master/Z7" (TargetCommit c0) s_p1 in
  Fake.fake_marker (world run.2) "/w/p1" "master/Z7" = Some c0.
Proof.
  destruct (createZuulRef_creates (ML := fake_marker_laws)) as (H1 & _ & _).
  destruct (Repo.createZuulRef repo1 "master/Z7" (TargetCommit c0) s_p1)
    as [r s'] eqn:E.
  assert (r = Ret c0) as ->.
  { apply (f_equal fst) in E. vm_compute in E. by rewrite <- E. }
  exact (H1 repo1 "master/Z7" c0 s_p1 c0 s' E).
Defined.

(** The marker of change 1 exists and points at the merge.  Asked to put
    it on another commit, [createZuulRef] raises [OSError] and the marker
    stays where it was. *)
Lemma createZuulRef_does_not_overwrite :
  let run := Repo.createZuulRef repo1 "master/Z1" (TargetCommit c0) s_seen1 in
  Fake.fake_marker (world s_seen1) "/w/p1" "master/Z1"
    = Some (mkCommit "c0+a") /\
  run.1 = Raise (Lib OSError) /\
  Fake.fake_marker (world run.2) "/w/p1" "master/Z1" = Some (mkCommit "c0+a").
Proof. vm_compute. repeat split; reflexivity. Qed.


End Samples.

Section SamplesT.
#[local] Existing Instance FakeT.backend.
#[local] Existing Instance Fake.zuul_model.
Import Scenario ScenarioT.

(** The queue of change 1, twice, where the look-up goes through heads,
    tags and marker references and no tag is in the way. *)
Lemma resolved_item_short_circuit_witness :
  let first := Merger.mergeChanges [item1] t_p1 in
  let second := Merger.mergeChanges [item1] first.2 in
  first.1 = Ret (Some "c0+a") /\
  second.1 = Ret (Some "c0+a") /\
  exists n, calls second.2 = calls first.2 ++ n /\
    Forall (fun k => kind_of k ∈ [KOs; KSetup; KRead]) n.
Proof.
  destruct (resolved_item_short_circuit (ML := faket_marker_laws)
              (LL := faket_lookup_laws)) as (_ & _ & H3).
  destruct (Merger.mergeChanges [item1] t_p1) as [r1 s1] eqn:E1.
  assert (r1 = Ret (Some "c0+a")) as ->.
  { apply (f_equal fst) in E1. vm_compute in E1. by rewrite <- E1. }
  assert (Hs1 : s1 = (Merger.mergeChanges [item1] t_p1).2) by (by rewrite E1).
  assert (Hreg : repos s1 !! project item1 = Some repo1).
  { rewrite Hs1. vm_compute. reflexivity. }
  assert (Hsame :
    FakeT.lookup (world s1) (local_path repo1)
      (branch item1 +:+ "/" +:+ ref item1)
    = FakeT.zuul_marker (world s1) (local_path repo1)
        (branch item1 +:+ "/" +:+ ref item1)).
  { rewrite Hs1. vm_compute. reflexivity. }
  cbv zeta. cbn [fst snd].
  destruct (Merger.mergeChanges [item1] s1) as [r2 s2] eqn:E2.
  destruct (H3 item1 t_p1 "c0+a" s1 repo1 r2 s2 E1 Hreg Hsame E2) as [_ Hc].
  cbn [fst snd]. split; [done|]. split; [|exact Hc].
  apply (f_equal fst) in E2. rewrite Hs1 in E2. vm_compute in E2.
  by rewrite <- E2.
Defined.

(** The tag [master/Z1] is on the server when the queue of change 1 is
    processed.  The first call finds no reference of that name, fetches
    (the tag comes along), merges and writes the marker.  The second call
    over the same queue finds the tag before the marker and returns the
    commit of the tag. *)
Lemma tag_shadows_marker :
  let first := Merger.mergeChanges [item1] t_tagged in
  let second := Merger.mergeChanges [item1] first.2 in
  first.1 = Ret (Some "c0+a") /\
  Fake.fake_marker (FakeT.base (world first.2)) "/w/p1" "master/Z1"
    = Some (mkCommit "c0+a") /\
  FakeT.lookup (world first.2) "/w/p1" "master/Z1" = Some (mkCommit "t") /\
  second.1 = Ret (Some "t") /\
  Fake.fake_marker (FakeT.base (world second.2)) "/w/p1" "master/Z1"
    = Some (mkCommit "c0+a").
Proof. vm_compute. repeat split; reflexivity. Qed.

End SamplesT.

Section SamplesStale.
#[local] Existing Instance FakeX.backend.
#[local] Existing Instance FakeX.maintenance.
#[local] Existing Instance Fake.zuul_model.
Import Scenario ScenarioX.


End SamplesStale.

(** * Further properties of the code *)

(** Running a computation call by call. *)
Ltac norm_st H :=
  unfold set_world, set_repos, set_initialized, set_next_oid, set_GIT_SSH,
    set_recent, set_calls, set_logs in H;
  cbn [world repos working_root m_email m_username initialized next_oid
       GIT_SSH recent calls logs] in H.

Ltac run_call H :=
  match type of H with
  | context [call ?c ?s] =>
      let E := fresh "E" in
      unfold call at 1 in H;
      destruct (exec c (world s)) as [[?|?] ?] eqn:E;
      cbn [of_lib] in H; norm_st H
  end.

Ltac run_step H :=
  first
    [ rewrite bind_run in H
    | progress unfold try_finally in H
    | run_call H
    | match type of H with
      | context [if ?b then _ else _] =>
          lazymatch b with
          | true => fail
          | false => fail
          | _ => destruct b eqn:?
          end
      end
    | progress unfold Repo.set__initialized, modify, mret, M_ret in H ].

Ltac find_pre :=
  lazymatch goal with
  | |- exists pre, ?n = _ =>
      first
        [ exists (take 0 n); reflexivity | exists (take 1 n); reflexivity
        | exists (take 2 n); reflexivity | exists (take 3 n); reflexivity
        | exists (take 4 n); reflexivity | exists (take 5 n); reflexivity
        | exists (take 6 n); reflexivity | exists (take 7 n); reflexivity ]
  end.

Ltac not_among H :=
  exfalso;
  repeat (apply elem_of_cons in H as [H|H]; [done|]);
  by apply elem_of_nil in H.

Section Frames.
Context `{B : GitBackend}.

#[global] Instance same_logs_preorder : PreOrder same_logs.
Proof.
  split; [done|]. intros s1 s2 s3 H1 H2. unfold same_logs in *. congruence.
Qed.

#[global] Instance same_env_preorder : PreOrder same_env.
Proof.
  split; [done|]. intros s1 s2 s3 (?&?&?&?) (?&?&?&?).
  unfold same_env. repeat split; congruence.
Qed.

Lemma call_same_logs {T} (c : Call T) : pres same_logs (call c).
Proof.
  intros s r s' H. unfold call in H.
  destruct (exec c (world s)) as [r0 w]. by inversion H; subst.
Qed.

Lemma call_same_env {T} (c : Call T) : pres same_env (call c).
Proof.
  intros s r s' H. unfold call in H.
  destruct (exec c (world s)) as [r0 w]. by inversion H; subst.
Qed.

Lemma log_same_env r : pres same_env (log r).
Proof. intros s o s' H. by inversion H; subst. Qed.

End Frames.

Create HintDb logs.
Create HintDb env.

Ltac logs_leaf :=
  first
    [ apply call_same_logs
    | apply modify_pres; intros ?; reflexivity
    | intros ? ? ? [= <- <-]; reflexivity
    | solve [eauto with logs] ].

Ltac logs_auto := repeat pres_step logs_leaf.

Ltac env_leaf :=
  first
    [ apply call_same_env
    | apply log_same_env
    | apply modify_pres; intros ?; done
    | intros ? ? ? [= <- <-]; reflexivity
    | solve [eauto with env] ].

Ltac env_auto := repeat pres_step env_leaf.

Section RepoFrames.
Context `{B : GitBackend} `{ZM : ZuulModel}.

Lemma _ensure_cloned_same_logs self : pres same_logs (Repo._ensure_cloned self).
Proof. unfold Repo._ensure_cloned, Repo.get__initialized, Repo.set__initialized. logs_auto. Qed.

Lemma _ensure_cloned_same_env self : pres same_env (Repo._ensure_cloned self).
Proof. unfold Repo._ensure_cloned, Repo.get__initialized, Repo.set__initialized. env_auto. Qed.

Hint Resolve _ensure_cloned_same_env : env.

Lemma __init___same_env remote local em un :
  pres same_env (Repo.__init__ remote local em un).
Proof. unfold Repo.__init__, Repo.set__initialized. env_auto. Qed.

Lemma createRepoObject_same_env self : pres same_env (Repo.createRepoObject self).
Proof. unfold Repo.createRepoObject. env_auto. Qed.

Hint Resolve __init___same_env createRepoObject_same_env : env.

Lemma reset_repo_to_head_same_env path : pres same_env (reset_repo_to_head path).
Proof. unfold reset_repo_to_head. env_auto. Qed.

Hint Resolve reset_repo_to_head_same_env : env.

Lemma update_same_env self : pres same_env (Repo.update self).
Proof. unfold Repo.update. env_auto. Qed.

Hint Resolve update_same_env : env.

Lemma reset_same_env self : pres same_env (Repo.reset self).
Proof. unfold Repo.reset. env_auto. Qed.

Lemma getBranchHead_same_env self b : pres same_env (Repo.getBranchHead self b).
Proof. unfold Repo.getBranchHead. env_auto. Qed.

Lemma getCommitFromRef_same_env self n :
  pres same_env (Repo.getCommitFromRef self n).
Proof. unfold Repo.getCommitFromRef. env_auto. Qed.

Lemma checkout_same_env self c : pres same_env (Repo.checkout self c).
Proof. unfold Repo.checkout. env_auto. Qed.

Lemma fetch_same_env self r : pres same_env (Repo.fetch self r).
Proof. unfold Repo.fetch. env_auto. Qed.

Hint Resolve fetch_same_env : env.

Lemma cherryPick_same_env self r : pres same_env (Repo.cherryPick self r).
Proof. unfold Repo.cherryPick. env_auto. Qed.

Lemma merge_same_env self r st : pres same_env (Repo.merge self r st).
Proof. unfold Repo.merge. env_auto. Qed.

Lemma createZuulRef_same_env self n t : pres same_env (Repo.createZuulRef self n t).
Proof. unfold Repo.createZuulRef. env_auto. Qed.

Hint Resolve reset_same_env getBranchHead_same_env getCommitFromRef_same_env
  checkout_same_env cherryPick_same_env merge_same_env createZuulRef_same_env
  : env.

Lemma getRepo_same_env p url : pres same_env (Merger.getRepo p url).
Proof. unfold Merger.getRepo, Merger.addProject. env_auto. Qed.

Hint Resolve getRepo_same_env : env.

Lemma _mergeChange_same_env item base :
  pres same_env (Merger._mergeChange item base).
Proof. unfold Merger._mergeChange, Merger.on_repo. env_auto. Qed.

Lemma publish_same_env item : pres same_env (Merger.publish item).
Proof. unfold Merger.publish, Merger.on_repo. env_auto. Qed.

Hint Resolve _mergeChange_same_env publish_same_env : env.

Lemma merge_on_base_same_env item base :
  pres same_env (Merger.merge_on_base item base).
Proof. unfold Merger.merge_on_base, Merger.recent_set. env_auto. Qed.

End RepoFrames.

Section RepoFacts.
Context `{B : GitBackend} `{ZM : ZuulModel}.

Lemma pack_CloneFrom_inj u l u' l' :
  pack (CloneFrom u l) = pack (CloneFrom u' l') -> u = u' /\ l = l'.
Proof.
  intros H. split.
  - by apply (f_equal (fun c => match projT2 c with
                                | CloneFrom x _ => x | _ => "" end)) in H.
  - by apply (f_equal (fun c => match projT2 c with
                                | CloneFrom _ x => x | _ => "" end)) in H.
Qed.

(** The flag [_initialized] after [_ensure_cloned]. *)
Lemma _ensure_cloned_flag self s r s' :
  Repo._ensure_cloned self s = (r, s') ->
  match r with
  | Ret _ => oid self ∈ initialized s'
  | Raise _ => initialized s' = initialized s
  end.
Proof.
  intros H. unfold Repo._ensure_cloned in H.
  rewrite bind_run in H. run_call H; [|by inversion H; subst].
  rewrite bind_run in H. unfold Repo.get__initialized in H.
  cbn [initialized] in H.
  destruct (bool_decide (oid self ∈ initialized s)) eqn:Hinit;
    [apply bool_decide_eq_true in Hinit|]; destruct b; cbn [andb negb] in H.
  1:{ by inversion H; subst. }
  all: repeat run_step H; inversion H; subst; clear H; simpl; try done.
  all: set_solver.
Qed.

(** What [createRepoObject] raises, and what it logs then. *)
Lemma createRepoObject_raise self s e s' :
  Repo.createRepoObject self s = (Raise e, s') ->
  e = UnboundLocalError /\
  exists e0 s1,
    s' = set_logs (logs s1 ++ [LogCreateRepoObjectFailed (local_path self) e0]) s1
    /\ logs s1 = logs s /\ quiet [KOs; KSetup] s s1.
Proof.
  unfold Repo.createRepoObject. intros H.
  apply try_except_inv in H as [(a & _ & ?)|(e0 & s1 & E & H)]; [done|].
  simpl in H. rewrite bind_run in H. simpl in H. inversion H; subst.
  split; [done|]. exists e0, s1. split; [done|].
  assert (Hl : pres same_logs
                 (Repo._ensure_cloned self;; call (GitRepo (local_path self)))).
  { apply pres_bind; [tc_solve|apply _ensure_cloned_same_logs|].
    intros _. apply call_same_logs. }
  assert (Hq : pres (quiet [KOs; KSetup])
                 (Repo._ensure_cloned self;; call (GitRepo (local_path self))))
    by quiet_auto.
  split; [eapply Hl, E|eapply Hq, E].
Qed.

End RepoFacts.

Section FurtherProperties.
Context `{B : GitBackend} `{ZM : ZuulModel}.

(** ** [reset_repo_to_head] *)

(** X1.  [reset_repo_to_head] runs [git reset --hard HEAD --] once.  It
    returns when git does, and also when git fails with exit status 1;
    any other failure of the call is raised to the caller. *)
Theorem reset_repo_to_head_tolerates_status_1 (path : string) (s : St) :
  let c := GitReset path ["--hard"; "HEAD"; "--"] in
  reset_repo_to_head path s =
    (match (exec c (world s)).1 with
     | inl _ => Ret tt
     | inr (GitCommandError 1) => Ret tt
     | inr e => Raise (Lib e)
     end,
     set_calls (calls s ++ [pack c]) (set_world (exec c (world s)).2 s)).
Proof.
  intros c. unfold reset_repo_to_head, try_except, call. fold c.
  destruct (exec c (world s)) as [[[]|e] w]; simpl; [done|].
  destruct e as [st| | | | | |]; simpl; try done.
  destruct (decide (st <> 1)) as [Hne|Heq].
  - destruct st as [|[]|]; try done.
  - apply dec_stable in Heq. subst st. done.
Qed.

(** ** [_ensure_cloned] *)

(** X2.  [_ensure_cloned] first tests for [<local_path>/.git].  When the
    object is initialised and the directory is there, nothing else is
    done.  [clone_from] is called only when the test said the directory is
    missing, and only from the object's remote to its local path.  Once
    [config_writer.write()] is reached, the lock is released right after
    it, also when the write fails.  The flag [_initialized] is set when
    the method returns and left alone when it raises. *)
Theorem _ensure_cloned_behaviour (self : RepoObj) (s : St) (r : outcome unit)
  (s' : St) :
  let path := local_path self in
  let probe := OsPathExists (os_path_join path ".git") in
  Repo._ensure_cloned self s = (r, s') ->
  exists n,
    calls s' = calls s ++ pack probe :: n /\
    (oid self ∈ initialized s -> (exec probe (world s)).1 = inl true ->
     n = [] /\ r = Ret tt /\ initialized s' = initialized s) /\
    (forall u l, pack (CloneFrom u l) ∈ n ->
       (exec probe (world s)).1 = inl false /\
       u = remote_url self /\ l = path) /\
    (pack (ConfigWrite path) ∈ n ->
     exists pre,
       n = pre ++ [pack (ConfigWrite path); pack (ConfigReleaseLock path)]) /\
    match r with
    | Ret _ => oid self ∈ initialized s'
    | Raise _ => initialized s' = initialized s
    end.
Proof.
  intros path probe. subst path probe. intros H.
  unfold Repo._ensure_cloned in H.
  rewrite bind_run in H. run_call H; [|inversion H; subst; simpl].
  2:{ exists []. split; [done|]. split; [done|].
      split; [intros u l' Hin; by apply elem_of_nil in Hin|].
      split; [intros Hin; by apply elem_of_nil in Hin|done]. }
  rewrite bind_run in H. unfold Repo.get__initialized in H.
  cbn [initialized] in H. cbn [fst].
  destruct (bool_decide (oid self ∈ initialized s)) eqn:Hinit;
    [apply bool_decide_eq_true in Hinit|apply bool_decide_eq_false in Hinit];
    destruct b; cbn [andb negb] in H.
  1:{ inversion H; subst. simpl. exists []. split; [done|].
      split; [done|]. split; [intros u l Hin; by apply elem_of_nil in Hin|].
      split; [intros Hin; by apply elem_of_nil in Hin|done]. }
  all: repeat run_step H; inversion H; subst; clear H; simpl.
  all: eexists; (split; [rewrite <- ?app_assoc; simpl; reflexivity|]).
  all: split; [try done|].
  all: split;
    [intros cu cl Hin;
     first [ not_among Hin
           | apply elem_of_cons in Hin as [Hin|Hin];
             [apply pack_CloneFrom_inj in Hin as [-> ->]; done|not_among Hin] ]|].
  all: split; [intros Hin; first [find_pre | not_among Hin]|].
  all: try done.
  all: set_solver.
Qed.

(** ** [createRepoObject] *)

(** X3.  Whatever goes wrong while the repository object is set up,
    [createRepoObject] logs it and then fails on [return repo] with
    [UnboundLocalError]: the caller never sees the original exception.
    Every method that starts with [createRepoObject] fails the same way,
    in the state [createRepoObject] left, without another call. *)
Theorem createRepoObject_masks (self : RepoObj) (s : St) (e : exn) (s' : St) :
  Repo.createRepoObject self s = (Raise e, s') ->
  e = UnboundLocalError /\
  (exists e0,
     logs s' = logs s ++ [LogCreateRepoObjectFailed (local_path self) e0]) /\
  (exists n, calls s' = calls s ++ n /\
     Forall (fun k => kind_of k ∈ [KOs; KSetup]) n) /\
  Repo.update self s = (Raise UnboundLocalError, s') /\
  Repo.reset self s = (Raise UnboundLocalError, s') /\
  (forall b, Repo.getBranchHead self b s = (Raise UnboundLocalError, s')) /\
  (forall n, Repo.getCommitFromRef self n s = (Raise UnboundLocalError, s')) /\
  (forall c, Repo.checkout self c s = (Raise UnboundLocalError, s')) /\
  (forall r, Repo.fetch self r s = (Raise UnboundLocalError, s')) /\
  (forall r, Repo.cherryPick self r s = (Raise UnboundLocalError, s')) /\
  (forall r st, Repo.merge self r st s = (Raise UnboundLocalError, s')) /\
  (forall n t, Repo.createZuulRef self n t s = (Raise UnboundLocalError, s')).
Proof.
  intros H. destruct (createRepoObject_raise _ _ _ _ H)
    as (-> & e0 & s1 & -> & Hl & Hq).
  split; [done|]. split; [exists e0; simpl; by rewrite Hl|].
  split; [simpl; by apply quiet_calls in Hq|].
  assert (Hu : Repo.update self s = (Raise UnboundLocalError,
            set_logs (logs s1 ++ [LogCreateRepoObjectFailed (local_path self) e0]) s1))
    by (unfold Repo.update; by rewrite bind_run, H).
  split; [done|]. split; [unfold Repo.reset; by rewrite bind_run, Hu|].
  repeat split; intros;
    unfold Repo.getBranchHead, Repo.getCommitFromRef, Repo.checkout,
      Repo.fetch, Repo.cherryPick, Repo.merge, Repo.createZuulRef;
    by rewrite bind_run, H.
Qed.

End FurtherProperties.

Section EnvFacts.
Context `{B : GitBackend} `{ZM : ZuulModel}.

(** What [_setGitSsh] does, by the answer of its one call. *)
Lemma _setGitSsh_run conn s r s' :
  let name := os_path_join (working_root s) (".ssh_wrapper_" +:+ conn) in
  let c := OsPathIsfile name in
  Merger._setGitSsh conn s = (r, s') ->
  calls s' = calls s ++ [pack c] /\
  world s' = (exec c (world s)).2 /\
  match (exec c (world s)).1 with
  | inl b => r = Ret tt /\ GIT_SSH s' = if b then Some name else None
  | inr e => r = Raise (Lib e) /\ GIT_SSH s' = GIT_SSH s
  end.
Proof.
  intros name c H.
  unfold Merger._setGitSsh in H. rewrite bind_run in H. simpl in H.
  rewrite bind_run in H. fold name in H. fold c in H. unfold call in H.
  destruct (exec c (world s)) as [[[]|e] w]; simpl in H.
  - by inversion H; subst.
  - rewrite bind_run in H. simpl in H.
    by destruct (GIT_SSH s) eqn:Eg; inversion H; subst.
  - by inversion H; subst.
Qed.

End EnvFacts.

Section FurtherProperties2.
Context `{B : GitBackend} `{ZM : ZuulModel}.

(** ** [addProject] and [getRepo] *)

(** X4.  [addProject] cannot fail: [Repo.__init__] swallows every
    exception of the clone, so the [except] clause of [addProject] is never
    entered.  The new object is registered under the project (replacing a
    former one), its working copy is [working_root/project]; when setting
    it up failed, the object is registered all the same, [isInitialized]
    says [False], and the failure is logged. *)
Theorem addProject_always_registers (p u : string) (s : St) :
  exists repo s',
    Merger.addProject p u s = (Ret (Some repo), s') /\
    repos s' = <[p := repo]> (repos s) /\
    repo = mkRepo (next_oid s) u (os_path_join (working_root s) p)
             (m_email s) (m_username s) /\
    ((Repo.isInitialized repo s' = (Ret true, s') /\ logs s' = logs s) \/
     (Repo.isInitialized repo s' = (Ret false, s') /\
      exists e, logs s' = logs s ++ [LogInitFailed u e])) /\
    exists n, calls s' = calls s ++ n /\
      Forall (fun k => kind_of k ∈ [KOs; KSetup]) n.
Proof.
  unfold Merger.addProject, try_except. rewrite bind_run. simpl.
  rewrite bind_run. unfold Repo.__init__. rewrite bind_run. simpl.
  rewrite bind_run. simpl. rewrite bind_run. simpl. rewrite bind_run.
  unfold try_except.
  match goal with
  | |- context [Repo._ensure_cloned ?o ?st] =>
      destruct (Repo._ensure_cloned o st) as [r s1] eqn:E
  end.
  pose proof (_ensure_cloned_flag _ _ _ _ E) as Hflag.
  pose proof (_ensure_cloned_same_logs _ _ _ _ E) as Hlogs.
  pose proof (_ensure_cloned_quiet _ _ _ _ E) as Hq.
  destruct Hq as [[Hw _] Hrep]. apply within_calls in Hw as (n & Hn & Hk).
  unfold same_logs in Hlogs. simpl in *.
  destruct r as [[]|e]; simpl; rewrite ?bind_run; simpl;
    eexists _, _; (split; [reflexivity|]); simpl;
    rewrite Hrep; (split; [done|]); (split; [done|]).
  - split; [left|eauto]. split; [|done].
    unfold Repo.isInitialized, Repo.get__initialized. simpl.
    by rewrite bool_decide_eq_true_2.
  - split; [|eauto]. right. rewrite Hlogs. split; [|eauto].
    unfold Repo.isInitialized, Repo.get__initialized. simpl.
    rewrite bool_decide_eq_false_2; [done|]. rewrite Hflag.
    intros [_ Hx]%elem_of_difference. apply Hx. by apply elem_of_singleton.
Qed.

(** X5.  [getRepo] gives a registered handle.  (1) When it returns, the
    project is registered with the handle returned, and asking again, with
    any url or none, gives the same handle and changes nothing.  (2) A
    handle that is registered is never replaced or dropped by [getRepo].
    (3) [getRepo] raises only for a project that is not registered when
    the url is [None] or empty, and changes nothing then. *)
Theorem getRepo_registry :
  (forall p url s o s',
     Merger.getRepo p url s = (Ret o, s') ->
     exists repo,
       o = Some repo /\ repos s' !! p = Some repo /\
       forall url', Merger.getRepo p url' s' = (Ret (Some repo), s')) /\
  (forall p url s r s' q x,
     Merger.getRepo p url s = (r, s') ->
     repos s !! q = Some x -> repos s' !! q = Some x) /\
  (forall p url s e s',
     Merger.getRepo p url s = (Raise e, s') ->
     e = NoUrlException p /\ s' = s /\ repos s !! p = None /\
     truthy_opt_str url = false).
Proof.
  split; [|split].
  - intros p url s o s' H.
    destruct (getRepo_registered _ _ _ _ _ H) as (repo & -> & Hreg).
    exists repo. split; [done|]. split; [done|].
    intros url'. by apply getRepo_known.
  - intros p url s r s' q x H Hq.
    apply getRepo_calm in H as [(_ & Hsub & _) _].
    eapply lookup_weaken; eauto.
  - intros p url s e s' H.
    destruct (getRepo_run p url s) as
      [(repo & E & Hr)|[(E & Hu & Hr)|(E & Hu & repo & s1 & Hr & Hq & Hp)]];
      rewrite Hr in H; by inversion H; subst.
Qed.

(** ** [_setGitSsh] *)

(** X6.  (1) [_setGitSsh] asks once whether the wrapper
    [working_root/.ssh_wrapper_<connection>] is a file.  If it is,
    [GIT_SSH] is set to it; if it is not, [GIT_SSH] is unset, whatever it
    was before; if the test raises, the environment is left alone.
    (2) Nothing else in [_mergeItem] touches [GIT_SSH]: when the test
    answers, the environment [_mergeItem] leaves is the one of the item's
    own connection. *)
Theorem _setGitSsh_follows_connection :
  (forall conn s r s',
     let name := os_path_join (working_root s) (".ssh_wrapper_" +:+ conn) in
     let c := OsPathIsfile name in
     Merger._setGitSsh conn s = (r, s') ->
     calls s' = calls s ++ [pack c] /\
     world s' = (exec c (world s)).2 /\
     match (exec c (world s)).1 with
     | inl b => r = Ret tt /\ GIT_SSH s' = if b then Some name else None
     | inr e => r = Raise (Lib e) /\ GIT_SSH s' = GIT_SSH s
     end) /\
  (forall item s r s' b,
     let name := os_path_join (working_root s)
                   (".ssh_wrapper_" +:+ connection_name item) in
     Merger._mergeItem item s = (r, s') ->
     (exec (OsPathIsfile name) (world s)).1 = inl b ->
     GIT_SSH s' = if b then Some name else None).
Proof.
  pose proof _setGitSsh_run as H1.
  split; [exact H1|].
  intros item s r s' b name H Hb.
  destruct (Merger._setGitSsh (connection_name item) s) as [r1 s1] eqn:E.
  destruct (H1 _ _ _ _ E) as (_ & _ & Hm).
  fold name in Hm. rewrite Hb in Hm. destruct Hm as [-> Henv].
  rewrite <- Henv. clear Henv.
  assert (Hrest : pres same_env
    (repo ← Merger.getRepo (project item) (url item);
     commit ← Merger.on_repo repo (fun r =>
       Repo.getCommitFromRef r (branch item +:+ "/" +:+ ref item));
     match commit with
     | Some c => Merger.recent_set (project item, branch item) c;; mret (Some c)
     | None =>
         base ← Merger.recent_get (project item, branch item);
         match base with
         | None =>
             was_reset ←
               try_except (Merger.on_repo repo Repo.reset;; mret true)
                 (fun e => Some (log (LogResetFailed repo e);; mret false));
             if negb was_reset then mret None
             else
               base ← Merger.on_repo repo (fun r =>
                        Repo.getBranchHead r (branch item));
               Merger.merge_on_base item base
         | Some base => Merger.merge_on_base item base
         end
     end)).
  { unfold Merger.on_repo, Merger.recent_set, Merger.recent_get.
    pose proof merge_on_base_same_env.
    pose proof getRepo_same_env.
    pose proof getCommitFromRef_same_env.
    pose proof reset_same_env.
    pose proof getBranchHead_same_env.
    env_auto. }
  unfold Merger._mergeItem in H. rewrite bind_run, E in H.
  cbv beta zeta in H. apply Hrest in H. by destruct H as [-> _].
Qed.

End FurtherProperties2.

Section Traces.
Context `{B : GitBackend} `{ZM : ZuulModel}.

Lemma Forall_kinds_mono (ks ks' : list kind) (n : list ACall) :
  ks ⊆ ks' ->
  Forall (fun k => kind_of k ∈ ks) n -> Forall (fun k => kind_of k ∈ ks') n.
Proof.
  intros Hsub H. eapply Forall_impl; [exact H|]. intros k. apply Hsub.
Qed.

Lemma checkout_trace self ref s c s' :
  Repo.checkout self ref s = (Ret c, s') ->
  exists n,
    calls s' = calls s ++ n
      ++ [pack (SetHeadReference (local_path self) (TargetCommit ref));
          pack (GitReset (local_path self) ["--hard"; "HEAD"; "--"]);
          pack (HeadCommit (local_path self))] /\
    Forall (fun k => kind_of k ∈ [KOs; KSetup]) n.
Proof.
  unfold Repo.checkout. intros H.
  apply bind_inv in H as [(u1 & s1 & E1 & H)|(e & _ & ?)]; [|done].
  apply bind_inv in H as [(u2 & s2 & E2 & H)|(e & _ & ?)]; [|done].
  apply bind_inv in H as [(u3 & s3 & E3 & H)|(e & _ & ?)]; [|done].
  apply createRepoObject_quiet, quiet_calls in E1 as (n & Hn & Hk).
  apply call_calls in E2, H. apply reset_repo_to_head_calls in E3.
  exists n. split; [|done]. rewrite H, E3, E2, Hn, <- !app_assoc. done.
Qed.

Lemma fetch_trace self ref s u s' :
  Repo.fetch self ref s = (Ret u, s') ->
  exists n,
    calls s' = calls s ++ n
      ++ [pack (OriginFetch (local_path self) (Some ref) false false)] /\
    Forall (fun k => kind_of k ∈ [KOs; KSetup; KRead; KFetch]) n.
Proof.
  unfold Repo.fetch. intros H.
  apply bind_inv in H as [(u1 & s1 & E1 & H)|(e & _ & ?)]; [|done].
  apply bind_inv in H as [(u2 & s2 & E2 & H)|(e & _ & ?)]; [|done].
  assert (Hq : quiet [KOs; KSetup; KRead; KFetch] s s2).
  { etrans; [eapply quiet_mono; [|eapply createRepoObject_quiet, E1];
             compute_done|].
    eapply (call_quiet _ [KOs; KSetup; KRead; KFetch]), E2. compute_done. }
  apply quiet_calls in Hq as (n & Hn & Hk).
  apply try_except_inv in H as [(a & E3 & _)|(e & s3 & E3 & H)].
  - apply call_calls in E3. exists n. split; [|done].
    by rewrite E3, Hn, <- app_assoc.
  - destruct e as [[]| | | |]; simpl in H; try (by destruct H).
    apply call_calls in E3, H.
    exists (n ++ [pack (OriginFetch (local_path self) (Some ref) false false)]).
    split; [by rewrite H, E3, Hn, <- !app_assoc|].
    apply Forall_app. split; [done|]. constructor; [compute_done|done].
Qed.

Lemma merge_trace self ref strategy s c s' :
  Repo.merge self ref strategy s = (Ret c, s') ->
  exists n,
    calls s' = calls s ++ n
      ++ [pack (OriginFetch (local_path self) (Some ref) false false);
          pack (GitMerge (local_path self)
                  ((if truthy_opt_str strategy
                    then ["-s"; default "" strategy] else [])
                   ++ ["FETCH_HEAD"]));
          pack (HeadCommit (local_path self))] /\
    Forall (fun k => kind_of k ∈ [KOs; KSetup; KRead; KFetch]) n.
Proof.
  unfold Repo.merge. intros H.
  apply bind_inv in H as [(u1 & s1 & E1 & H)|(e & _ & ?)]; [|done].
  apply bind_inv in H as [(u2 & s2 & E2 & H)|(e & _ & ?)]; [|done].
  apply bind_inv in H as [(u3 & s3 & E3 & H)|(e & _ & ?)]; [|done].
  apply createRepoObject_quiet, quiet_calls in E1 as (n1 & Hn1 & Hk1).
  apply fetch_trace in E2 as (n2 & Hn2 & Hk2).
  apply call_calls in E3, H. exists (n1 ++ n2). split.
  - rewrite H, E3, Hn2, Hn1, <- !app_assoc. done.
  - apply Forall_app. split; [|done].
    eapply Forall_kinds_mono; [|exact Hk1]. compute_done.
Qed.

Lemma cherryPick_trace self ref s c s' :
  Repo.cherryPick self ref s = (Ret c, s') ->
  exists n,
    calls s' = calls s ++ n
      ++ [pack (OriginFetch (local_path self) (Some ref) false false);
          pack (GitCherryPick (local_path self) "FETCH_HEAD");
          pack (HeadCommit (local_path self))] /\
    Forall (fun k => kind_of k ∈ [KOs; KSetup; KRead; KFetch]) n.
Proof.
  unfold Repo.cherryPick. intros H.
  apply bind_inv in H as [(u1 & s1 & E1 & H)|(e & _ & ?)]; [|done].
  apply bind_inv in H as [(u2 & s2 & E2 & H)|(e & _ & ?)]; [|done].
  apply bind_inv in H as [(u3 & s3 & E3 & H)|(e & _ & ?)]; [|done].
  apply createRepoObject_quiet, quiet_calls in E1 as (n1 & Hn1 & Hk1).
  apply fetch_trace in E2 as (n2 & Hn2 & Hk2).
  apply call_calls in E3, H. exists (n1 ++ n2). split.
  - rewrite H, E3, Hn2, Hn1, <- !app_assoc. done.
  - apply Forall_app. split; [|done].
    eapply Forall_kinds_mono; [|exact Hk1]. compute_done.
Qed.

(** With its project registered, [_mergeChange] returns. *)
Lemma _mergeChange_returns item base s repo :
  repos s !! project item = Some repo ->
  exists o s', Merger._mergeChange item base s = (Ret o, s').
Proof.
  intros Hreg. unfold Merger._mergeChange.
  rewrite bind_run, (getRepo_known _ _ _ _ Hreg), bind_run.
  destruct (try_except _ _ s) as [[[]|e] s1] eqn:E1.
  - simpl. unfold try_except.
    match goal with |- context [(?m ≫= _) s1] =>
      rewrite (bind_run m); destruct (m s1) as [[c|e] s2] end; simpl.
    + eauto.
    + destruct e as [[]| | | |]; simpl; rewrite bind_run; simpl; eauto.
  - simpl. eauto.
  - apply try_except_inv in E1 as [(a & _ & ?)|(e' & s2 & _ & Hh)]; [done|].
    simpl in Hh. rewrite bind_run in Hh. simpl in Hh. inversion Hh.
Qed.

Lemma merge_on_base_returns item base s repo :
  repos s !! project item = Some repo ->
  exists o s', Merger.merge_on_base item base s = (Ret o, s').
Proof.
  intros Hreg. unfold Merger.merge_on_base. rewrite bind_run.
  destruct (_mergeChange_returns item base s repo Hreg) as (o & s1 & ->).
  destruct o as [c|]; [|simpl; eauto].
  rewrite bind_run. simpl. rewrite bind_run.
  destruct (Merger.publish item _) as [rp s2] eqn:Ep.
  apply publish_outcome in Ep as [->|[-> _]]; simpl; eauto.
Qed.

(** What an item does to the dict [recent]. *)
Lemma merge_on_base_recent item base s r s' :
  Merger.merge_on_base item base s = (r, s') ->
  recent s' = recent s \/
  exists c, recent s' = dict_set (project item, branch item) c (recent s).
Proof.
  unfold Merger.merge_on_base. intros H.
  apply bind_inv in H as [(o & s1 & E & H)|(e & E & _)];
    apply _mergeChange_calm in E as [_ Hrec]; [|by left].
  destruct o as [c|]; [|inversion H; subst; by left].
  rewrite bind_run in H. simpl in H. rewrite bind_run in H.
  destruct (Merger.publish item _) as [rp s2] eqn:Ep.
  apply publish_calm in Ep as [_ Hrec2]. simpl in Hrec2.
  right. exists c. rewrite <- Hrec.
  destruct rp as [[?|?]|?]; inversion H; subst; done.
Qed.

Lemma _mergeItem_recent item s r s' :
  Merger._mergeItem item s = (r, s') ->
  recent s' = recent s \/
  exists c, recent s' = dict_set (project item, branch item) c (recent s).
Proof.
  intros H. pose proof (_mergeItem_run item s) as Hrun.
  destruct (find_marker item s) as [[[c|]|e] sp] eqn:E;
    apply find_marker_calm in E as [_ Hrec].
  - rewrite Hrun in H. inversion H; subst. right. exists c. simpl.
    by rewrite Hrec.
  - destruct Hrun as (repo & _ & Hrun). rewrite Hrun in H. rewrite <- Hrec.
    unfold merge_unresolved in H. rewrite bind_run in H. simpl in H.
    destruct (dict_get _ (recent sp)) as [base|].
    { by eapply merge_on_base_recent. }
    apply bind_inv in H as [(b & s1 & E1 & H)|(e & E1 & _)];
      apply try_reset_quiet in E1 as [[_ Hr1] _]; [|left; congruence].
    destruct b; simpl in H; [|inversion H; subst; by left].
    apply bind_inv in H as [(base & s2 & E2 & H)|(e & E2 & _)];
      apply getBranchHead_quiet in E2 as [[_ Hr2] _]; [|left; congruence].
    apply merge_on_base_recent in H. rewrite Hr2, Hr1 in H. done.
  - rewrite Hrun in H. inversion H; subst. by left.
Qed.

End Traces.

Section FurtherProperties3.
Context `{B : GitBackend} `{ZM : ZuulModel}.

(** ** [update] *)

(** X7.  (1) An [update] that returns has asked git for its version once
    the repository object and its remote were at hand ([s1]), and has then
    fetched: with a git before 1.9 twice, a plain [origin.fetch()]
    followed by [origin.fetch(tags=True, force=True)]; otherwise only the
    latter.  (2) The test [version_info\[:2\] < (1, 9)] holds exactly for
    the versions [(a, b, ...)] with [a < 1], or [a = 1] and [b < 9]. *)
Theorem update_fetch_policy :
  (forall self s u s',
     let path := local_path self in
     Repo.update self s = (Ret u, s') ->
     exists s1 v,
       (Repo.createRepoObject self;; call (RemotesOrigin path)) s
         = (Ret tt, s1) /\
       (exec (GitVersionInfo path) (world s1)).1 = inl v /\
       calls s' =
         calls s1 ++ pack (GitVersionInfo path)
           :: (if before_1_9 v
               then [pack (OriginFetch path None false false)] else [])
           ++ [pack (OriginFetch path None true true)]) /\
  (forall a b rest,
     before_1_9 (a :: b :: rest) = true <-> a < 1 \/ (a = 1 /\ b < 9)).
Proof.
  split.
  - intros self s u s' path H. unfold Repo.update in H. fold path in H.
    apply bind_inv in H as [([] & sa & Ea & H)|(e & _ & ?)]; [|done].
    apply bind_inv in H as [([] & s1 & Eb & H)|(e & _ & ?)]; [|done].
    exists s1. rewrite bind_run, Ea, Eb.
    apply bind_inv in H as [(v & s2 & Ev & H)|(e & _ & ?)]; [|done].
    exists v. split; [done|].
    apply call_calls in Ev as Hc2. apply call_ret_inv in Ev as (w & Ev & _).
    rewrite Ev. split; [done|].
    apply bind_inv in H as [([] & s3 & E3 & H)|(e & _ & ?)]; [|done].
    apply call_calls in H. rewrite H. unfold before_1_9.
    destruct (tuple_ltb _ _).
    + apply call_calls in E3. rewrite E3, Hc2, <- !app_assoc. done.
    + inversion E3; subst. rewrite Hc2, <- !app_assoc. done.
  - intros a b rest. unfold before_1_9. simpl.
    destruct (Z.ltb_spec a 1); [split; [lia|done]|].
    destruct (Z.ltb_spec 1 a); [split; [done|lia]|].
    destruct (Z.ltb_spec b 9); [split; [lia|done]|].
    destruct (Z.ltb_spec 9 b); split; try done; lia.
Qed.

(** ** [_mergeChange] *)

(** X8.  A [_mergeChange] that gives a commit has checked out the base
    ([HEAD] on the base commit, [reset --hard], reading [HEAD]), then
    fetched the item's refspec from [origin], then combined: a plain
    [git merge FETCH_HEAD] for [MERGER_MERGE], [git merge -s resolve
    FETCH_HEAD] for [MERGER_MERGE_RESOLVE], [git cherry-pick FETCH_HEAD]
    for [MERGER_CHERRY_PICK] (the first of the three that equals the mode),
    and it ends by reading [HEAD].  The mode is one of the three. *)
Theorem _mergeChange_dispatch (item : Item) (base : Commit) (s : St)
  (repo : RepoObj) (c : Commit) (s' : St) :
  let path := local_path repo in
  let mode := merge_mode item in
  repos s !! project item = Some repo ->
  Merger._mergeChange item base s = (Ret (Some c), s') ->
  (mode = MERGER_MERGE \/ mode = MERGER_MERGE_RESOLVE \/
   mode = MERGER_CHERRY_PICK) /\
  exists n1 n2,
    calls s' =
      calls s ++ n1
      ++ [pack (SetHeadReference path (TargetCommit base));
          pack (GitReset path ["--hard"; "HEAD"; "--"]);
          pack (HeadCommit path)]
      ++ n2
      ++ [pack (OriginFetch path (Some (refspec item)) false false);
          (if decide (mode = MERGER_MERGE)
           then pack (GitMerge path ["FETCH_HEAD"])
           else if decide (mode = MERGER_MERGE_RESOLVE)
           then pack (GitMerge path ["-s"; "resolve"; "FETCH_HEAD"])
           else pack (GitCherryPick path "FETCH_HEAD"));
          pack (HeadCommit path)] /\
    Forall (fun k => kind_of k ∈ [KOs; KSetup]) n1 /\
    Forall (fun k => kind_of k ∈ [KOs; KSetup; KRead; KFetch]) n2.
Proof.
  intros path mode Hreg H. unfold Merger._mergeChange in H.
  rewrite bind_run, (getRepo_known _ _ _ _ Hreg), bind_run in H.
  destruct (try_except _ _ s) as [[[]|e] s1] eqn:E1 in H; [|done..].
  apply try_except_inv in E1 as [(a1 & E1 & _)|(e & s2 & _ & Hh)].
  2:{ simpl in Hh. rewrite bind_run in Hh. simpl in Hh. inversion Hh. }
  apply bind_inv in E1 as [(c1 & s2 & E1 & Hr)|(e & _ & ?)]; [|done].
  inversion Hr; subst s2. clear Hr. simpl in E1.
  apply checkout_trace in E1 as (n1 & Hn1 & Hk1). fold path in Hn1.
  simpl in H. fold mode in H.
  apply try_except_inv in H as [(a2 & H & _)|(e & s2 & _ & Hh)].
  2:{ destruct e as [[]| | | |]; simpl in Hh; rewrite bind_run in Hh;
        simpl in Hh; inversion Hh. }
  apply bind_inv in H as [(c2 & s2 & H & Hr)|(e & _ & ?)]; [|done].
  inversion Hr; subst. clear Hr.
  assert (Hfin : forall op n2,
            calls s' = calls s1 ++ n2
              ++ [pack (OriginFetch path (Some (refspec item)) false false);
                  op; pack (HeadCommit path)] ->
            Forall (fun k => kind_of k ∈ [KOs; KSetup; KRead; KFetch]) n2 ->
            exists n1 n2,
              calls s' =
                calls s ++ n1
                ++ [pack (SetHeadReference path (TargetCommit base));
                    pack (GitReset path ["--hard"; "HEAD"; "--"]);
                    pack (HeadCommit path)]
                ++ n2
                ++ [pack (OriginFetch path (Some (refspec item)) false false);
                    op; pack (HeadCommit path)] /\
              Forall (fun k => kind_of k ∈ [KOs; KSetup]) n1 /\
              Forall (fun k => kind_of k ∈ [KOs; KSetup; KRead; KFetch]) n2).
  { intros op n2 Hn2 Hk2. exists n1, n2. split; [|done].
    rewrite Hn2, Hn1, <- !app_assoc. done. }
  destruct (decide (mode = MERGER_MERGE)) as [Hm|Hm].
  { split; [by left|]. simpl in H.
    apply merge_trace in H as (n2 & Hn2 & Hk2). by eapply Hfin. }
  destruct (decide (mode = MERGER_MERGE_RESOLVE)) as [Hm2|Hm2].
  { split; [right; by left|]. simpl in H.
    apply merge_trace in H as (n2 & Hn2 & Hk2). by eapply Hfin. }
  destruct (decide (mode = MERGER_CHERRY_PICK)) as [Hm3|Hm3]; [|done].
  split; [right; by right|]. simpl in H.
  apply cherryPick_trace in H as (n2 & Hn2 & Hk2). by eapply Hfin.
Qed.

(** X9.  [_mergeChange] does not raise when the project is registered or
    the item carries a url: a failed checkout, a merge conflict and any
    other exception all end in [None], each with its own log record
    ([GitCommandError] as "Unable to merge", the others as "Exception
    while merging a change"). *)
Theorem _mergeChange_never_raises (item : Item) (base : Commit) (s : St) :
  is_Some (repos s !! project item) \/ truthy_opt_str (url item) = true ->
  exists o s',
    Merger._mergeChange item base s = (Ret o, s') /\
    (o = None ->
     exists l,
       (exists e, logs s' = l ++ [LogCheckoutFailed base e]) \/
       (exists st,
          logs s' = l ++ [LogUnableToMerge item (Lib (GitCommandError st))]) \/
       (exists e, logs s' = l ++ [LogMergeException e] /\
          forall st, e <> Lib (GitCommandError st))).
Proof.
  intros Hreg. unfold Merger._mergeChange. rewrite bind_run.
  assert (exists repo s1,
            Merger.getRepo (project item) (url item) s = (Ret (Some repo), s1))
    as (repo & s1 & ->).
  { destruct (getRepo_run (project item) (url item) s) as
      [(repo & _ & Hr)|[(E & Hu & _)|(_ & _ & repo & s1 & Hr & _)]]; eauto.
    destruct Hreg as [[x Hx]|Hu']; congruence. }
  rewrite bind_run. unfold try_except at 1. rewrite bind_run. simpl.
  destruct (Repo.checkout repo base s1) as [[c1|e1] s2]; simpl.
  2:{ eexists _, _. split; [done|]. intros _. eexists. left. eauto. }
  unfold try_except.
  match goal with |- context [(?m ≫= _) s2] =>
    rewrite (bind_run m); destruct (m s2) as [[c|e] s3] end; simpl.
  { eexists _, _. split; [done|]. done. }
  assert (Hcase : (exists st, e = Lib (GitCommandError st)) \/
                  forall st, e <> Lib (GitCommandError st)).
  { destruct e as [[]| | | |]; eauto. }
  destruct Hcase as [[st ->]|Hne].
  - simpl. rewrite bind_run. simpl. eexists _, _. split; [done|].
    intros _. eexists. right. left. eauto.
  - assert (Hh : forall k1 k2 : M (option Commit),
        match e with
        | Lib (GitCommandError _) => Some k1
        | _ => Some k2
        end = Some k2).
    { intros k1 k2. destruct e as [[]| | | |]; try done. by destruct (Hne status). }
    rewrite Hh. rewrite bind_run. simpl. eexists _, _. split; [done|].
    intros _. eexists. right. right. eauto.
Qed.

(** ** Items that raise *)

(** X10.  [_mergeItem] lets an exception out only from its first steps
    (the wrapper test, [getRepo], the look-up of the item's marker) or from
    reading the branch head after a reset.  (1) An item that raises has not
    touched the dict [recent], and has made no merge, no cherry-pick and no
    [Reference.create].  (2) [mergeChanges] does not catch it: when the
    items before gave their commits and the item raises, [mergeChanges]
    raises the same exception in the state the item left, and processes
    nothing after it. *)
Theorem _mergeItem_raises_early :
  (forall item s e s',
     Merger._mergeItem item s = (Raise e, s') ->
     recent s' = recent s /\
     exists n, calls s' = calls s ++ n /\
       Forall (fun k => kind_of k ∈
                 [KOs; KSetup; KRead; KFetch; KBranch; KCheckout]) n) /\
  (forall pre item post s last s1 e s2,
     process_all pre None (set_recent [] s) = Some (last, s1) ->
     Merger._mergeItem item s1 = (Raise e, s2) ->
     Merger.mergeChanges (pre ++ item :: post) s = (Raise e, s2)).
Proof.
  split.
  - intros item s e s' H. pose proof (_mergeItem_run item s) as Hrun.
    destruct (find_marker item s) as [[[c|]|e0] sp] eqn:E;
      apply find_marker_calm in E as Hc.
    + rewrite Hrun in H. done.
    + destruct Hrun as (repo & Hreg & Hrun). rewrite Hrun in H.
      unfold merge_unresolved in H. rewrite bind_run in H. simpl in H.
      destruct (dict_get _ (recent sp)) as [base|].
      { destruct (merge_on_base_returns item base sp repo Hreg)
          as (o & s2 & Hret). congruence. }
      apply bind_inv in H as [(b & s1 & E1 & H)|(e1 & E1 & _)].
      2:{ apply try_except_inv in E1 as [(a & _ & ?)|(e2 & s2 & _ & Hh)];
            [done|].
          simpl in Hh. rewrite bind_run in Hh. simpl in Hh. inversion Hh. }
      apply try_reset_quiet in E1 as Hq1.
      destruct b; simpl in H; [|done].
      apply bind_inv in H as [(base & s2 & E2 & H)|(e2 & E2 & _)].
      { apply getBranchHead_quiet in E2 as [_ Hrep2].
        destruct Hq1 as [_ Hrep1].
        destruct (merge_on_base_returns item base s2 repo) as (o & s3 & Hret);
          [by rewrite Hrep2, Hrep1|congruence]. }
      apply getBranchHead_quiet in E2 as Hq2.
      assert (Hq : quiet [KOs; KSetup; KRead; KFetch; KBranch; KCheckout] sp s').
      { etrans; [exact Hq1|]. eapply quiet_mono; [|exact Hq2]. compute_done. }
      destruct Hc as [Hw Hrec]. destruct Hq as [[Hw' Hrec'] _].
      split; [congruence|]. apply within_calls.
      etrans; [eapply within_mono; [|exact Hw]; compute_done|exact Hw'].
    + rewrite Hrun in H. inversion H; subst. destruct Hc as [Hw Hrec].
      split; [done|]. apply within_calls.
      eapply within_mono; [|exact Hw]. compute_done.
  - intros pre item post s last s1 e s2 Hpre Hitem.
    rewrite mergeChanges_loop, (loop_app _ _ _ _ _ _ Hpre).
    by rewrite for_in_cons, each_item_run, Hitem.
Qed.

(** ** The dict [recent] *)

(** X11.  (1) An item changes the dict [recent] at most by assigning a
    commit to its own pair [(project, branch)].  (2) So the commit an item
    has given stays in the dict, under the item's pair, until a later item
    of the same pair gives another: if no later item of the queue is on
    that pair, it is there at the end.  (3) The keys of the dict at the
    end of [mergeChanges] are pairs of items of the queue, none twice. *)
Theorem recent_holds_latest :
  (forall item s r s',
     Merger._mergeItem item s = (r, s') ->
     recent s' = recent s \/
     exists c, recent s' = dict_set (project item, branch item) c (recent s)) /\
  (forall item s c s1 post last s',
     Merger._mergeItem item s = (Ret (Some c), s1) ->
     process_all post (Some c) s1 = Some (last, s') ->
     (forall j, j ∈ post ->
        (project j, branch j) <> (project item, branch item)) ->
     dict_get (project item, branch item) (recent s') = Some c) /\
  (forall items s r s',
     Merger.mergeChanges items s = (r, s') ->
     NoDup (recent s').*1 /\
     forall k, k ∈ (recent s').*1 ->
       exists i, i ∈ items /\ k = (project i, branch i)).
Proof.
  split; [exact _mergeItem_recent|]. split.
  - intros item s c s1 post last s' H Hpost Hother.
    apply success_recorded in H.
    set (key := (project item, branch item)) in *. clearbody key.
    revert H Hpost. generalize (Some c) at 2 as acc. clear s. revert s1.
    induction post as [|j post IH]; intros s1 acc Hget Hpost.
    + by inversion Hpost; subst.
    + simpl in Hpost.
      destruct (Merger._mergeItem j s1) as [[[cj|]|e] s2] eqn:Ej; try done.
      eapply IH; [| |exact Hpost].
      * intros j' Hj'. apply Hother. by apply list_elem_of_further.
      * apply _mergeItem_recent in Ej as [->|[c' ->]]; [done|].
        rewrite dict_get_set_ne; [done|].
        intros Heq. eapply Hother; [apply list_elem_of_here|]. done.
  - intros items s r s' H. rewrite mergeChanges_loop in H.
    destruct (for_in _ _ _ _) as [r1 s1] eqn:E.
    assert (s' = s1) as ->.
    { destruct r1 as [[?|[?|]]|?]; by inversion H. }
    clear H.
    assert (Hloop : forall items acc s r1 s1,
              for_in items acc each_item s = (r1, s1) ->
              (NoDup (recent s).*1 -> NoDup (recent s1).*1) /\
              forall k, k ∈ (recent s1).*1 ->
                k ∈ (recent s).*1 \/
                exists i, i ∈ items /\ k = (project i, branch i)).
    { clear. induction items as [|i items IH]; intros acc s r1 s1 H.
      - inversion H; subst. split; [done|]. by left.
      - rewrite for_in_cons, each_item_run in H.
        destruct (Merger._mergeItem i s) as [ri s2] eqn:Ei.
        assert (Hstep : (NoDup (recent s).*1 -> NoDup (recent s2).*1) /\
                  forall k, k ∈ (recent s2).*1 ->
                    k ∈ (recent s).*1 \/ k = (project i, branch i)).
        { apply _mergeItem_recent in Ei as [->|[c' ->]]; [by split; [|left]|].
          split; [apply dict_set_NoDup|]. intros k Hk.
          destruct (dict_set_keys (project i, branch i) c' (recent s))
            as [Hs|[_ Hs]]; rewrite Hs in Hk; [by left|].
          apply elem_of_app in Hk as [?|Hk%list_elem_of_singleton]; eauto. }
        destruct Hstep as [Hnd Hkeys].
        assert (Hend : forall s3, s3 = s2 ->
                  (NoDup (recent s).*1 -> NoDup (recent s3).*1) /\
                  forall k, k ∈ (recent s3).*1 ->
                    k ∈ (recent s).*1 \/
                    exists i0, i0 ∈ i :: items /\ k = (project i0, branch i0)).
        { intros s3 ->. split; [done|]. intros k Hk.
          destruct (Hkeys k Hk) as [?|Heq]; [by left|right]. subst k.
          exists i. split; [apply list_elem_of_here|done]. }
        destruct ri as [[c|]|e]; try (apply Hend; by inversion H).
        destruct (IH _ _ _ _ H) as [Hnd' Hkeys']. split; [eauto|].
        intros k Hk. destruct (Hkeys' k Hk) as [Hk2|(i0 & Hi0 & ->)].
        + destruct (Hkeys k Hk2) as [?|Heq]; [by left|right]. subst k.
          exists i. split; [apply list_elem_of_here|done].
        + right. exists i0. split; [by apply list_elem_of_further|done]. }
    destruct (Hloop _ _ _ _ _ E) as [Hnd Hkeys]. split.
    + apply Hnd. simpl. constructor.
    + intros k Hk. destruct (Hkeys k Hk) as [Hk'|?]; [|done].
      simpl in Hk'. by apply elem_of_nil in Hk'.
Qed.

End FurtherProperties3.

(** ** Runs of the maintenance methods *)

Section XRuns.
Context `{B : GitBackend} `{XB : !MaintenanceBackend}.
#[local] Existing Instance MX_ret.
#[local] Existing Instance MX_bind.

Lemma xbind_run {A C} (m : MX A) (f : A -> MX C) x :
  (m ≫= f) x =
  match m x with
  | (Ret a, x1) => f a x1
  | (Raise e, x1) => (Raise e, x1)
  end.
Proof. reflexivity. Qed.

Lemma xbind_inv {A C} (m : MX A) (f : A -> MX C) x r x' :
  (m ≫= f) x = (r, x') ->
  (exists a x1, m x = (Ret a, x1) /\ f a x1 = (r, x')) \/
  (exists e, m x = (Raise e, x') /\ r = Raise e).
Proof.
  rewrite xbind_run. destruct (m x) as [[a|e] x1]; intros H.
  - left. eauto.
  - right. inversion H; subst. eauto.
Qed.

Lemma lift_inv {A} (m : M A) x r x' :
  lift m x = (r, x') ->
  exists s', m (st x) = (r, s') /\ x' = mkXSt s' (xcalls x).
Proof.
  unfold lift. destruct (m (st x)) as [r0 s']. intros [= <- <-]. eauto.
Qed.

Lemma xcall_inv {T} (c : XCall T) x r x' :
  xcall c x = (r, x') ->
  r = of_lib (xexec c (world (st x))).1 /\
  x' = mkXSt (set_world (xexec c (world (st x))).2 (st x))
         (xcalls x ++ [xpack c]).
Proof.
  unfold xcall. destruct (xexec c (world (st x))) as [r0 w].
  by intros [= <- <-].
Qed.

End XRuns.

Section MaintenanceProperties.
Context `{B : GitBackend} `{ZM : ZuulModel} `{XB : !MaintenanceBackend}.
#[local] Existing Instance MX_ret.
#[local] Existing Instance MX_bind.

Lemma origin_at_hand_quiet self :
  pres (quiet [KOs; KSetup; KRead])
    (Repo.createRepoObject self;; call (RemotesOrigin (local_path self))).
Proof. quiet_auto. Qed.

Lemma quiet_footprint ks ks' s s' :
  ks ⊆ ks' -> quiet ks s s' -> footprint ks' s s'.
Proof.
  intros Hsub Hq. apply (quiet_mono _ _ _ _ Hsub) in Hq.
  split; [by apply quiet_calls in Hq|]. by destruct Hq as [[_ ?] ?].
Qed.

Lemma footprint_set_world ks s s' w :
  footprint ks s s' -> footprint ks s (set_world w s').
Proof. done. Qed.

(** ** [prune] *)

(** X12.  [prune] sets up the repository object and its remote and asks
    for the stale references.  If the answer is empty it returns without
    deleting anything; otherwise it makes one [RemoteReference.delete], of
    exactly the references answered, and its outcome is the outcome of
    that call.  On the side of the merge path it only tests paths, sets up
    and reads. *)
Theorem prune_deletes_what_is_stale (self : RepoObj) (x : XSt)
  (r : outcome unit) (x' : XSt) :
  let path := local_path self in
  RepoMaintenance.prune self x = (r, x') ->
  footprint [KOs; KSetup; KRead] (st x) (st x') /\
  match (Repo.createRepoObject self;; call (RemotesOrigin path)) (st x) with
  | (Raise e, s1) => r = Raise e /\ x' = mkXSt s1 (xcalls x)
  | (Ret _, s1) =>
      match xexec (OriginStaleRefs path) (world s1) with
      | (inr e, w) =>
          r = Raise (Lib e) /\
          xcalls x' = xcalls x ++ [xpack (OriginStaleRefs path)]
      | (inl [], w) =>
          r = Ret tt /\
          xcalls x' = xcalls x ++ [xpack (OriginStaleRefs path)]
      | (inl refs, w) =>
          r = of_lib (xexec (RemoteReferenceDelete path refs) w).1 /\
          xcalls x' =
            xcalls x ++ [xpack (OriginStaleRefs path);
                         xpack (RemoteReferenceDelete path refs)]
      end
  end.
Proof.
  intros path H. unfold RepoMaintenance.prune in H. fold path in H.
  rewrite bind_run.
  apply xbind_inv in H as [([] & x1 & E1 & H)|(e & E1 & ->)];
    apply lift_inv in E1 as (s1 & E1 & ->); rewrite E1.
  2:{ split; [|done]. simpl.
      eapply quiet_footprint; [|eapply createRepoObject_quiet, E1].
      compute_done. }
  apply xbind_inv in H as [([] & x2 & E2 & H)|(e & E2 & ->)];
    apply lift_inv in E2 as (s2 & E2 & ->); simpl in E2; rewrite E2.
  2:{ split; [|done]. simpl.
      eapply quiet_footprint; [reflexivity|]. eapply origin_at_hand_quiet.
      by rewrite bind_run, E1. }
  assert (Hq : footprint [KOs; KSetup; KRead] (st x) s2).
  { eapply quiet_footprint; [reflexivity|]. eapply origin_at_hand_quiet.
    by rewrite bind_run, E1. }
  apply xbind_inv in H as [(refs & x3 & E3 & H)|(e & E3 & ->)];
    apply xcall_inv in E3 as [Hr ->]; simpl in *.
  - destruct (xexec (OriginStaleRefs path) (world s2)) as [[refs'|e] w];
      simpl in Hr; [|done]. inversion Hr; subst refs'.
    destruct refs as [|ref refs].
    + by inversion H; subst.
    + apply xcall_inv in H as [-> ->]. simpl. split; [done|].
      by rewrite <- app_assoc.
  - destruct (xexec (OriginStaleRefs path) (world s2)) as [[refs'|e'] w];
      simpl in Hr; [done|]. by inversion Hr; subst.
Qed.

(** ** [hasBranch], [fetchFrom], [push] *)


End MaintenanceProperties.

(** ** The constructor of [Merger] and the wrappers *)

Section InitRuns.
Context `{B : GitBackend} `{ZM : ZuulModel} `{XB : !MaintenanceBackend}.
#[local] Existing Instance MX_ret.
#[local] Existing Instance MX_bind.

Lemma _makeSSHWrapper_run key root name x r x' :
  MergerInit._makeSSHWrapper key root name x = (r, x') ->
  exists w new,
    st x' = set_world w (st x) /\
    xcalls x' = xcalls x ++ new /\ all_write new /\
    (r = Ret tt -> exists fd, new = wrapper_calls root (name, key) fd).
Proof.
  unfold MergerInit._makeSSHWrapper. intros H.
  apply xbind_inv in H as [(fd & x1 & E1 & H)|(e & E1 & ->)];
    apply xcall_inv in E1 as [Hr1 ->].
  2:{ eexists _, [_]. repeat split; [by constructor|done]. }
  apply xbind_inv in H as [([] & x2 & E2 & H)|(e & E2 & ->)];
    apply xcall_inv in E2 as [Hr2 ->]; simpl.
  2:{ eexists _, [_; _]. rewrite <- app_assoc.
      repeat split; [by repeat constructor|done]. }
  apply xbind_inv in H as [([] & x3 & E3 & H)|(e & E3 & ->)];
    apply xcall_inv in E3 as [Hr3 ->]; simpl.
  2:{ eexists _, [_; _; _]. rewrite <- !app_assoc.
      repeat split; [by repeat constructor|done]. }
  apply xbind_inv in H as [([] & x4 & E4 & H)|(e & E4 & ->)];
    apply xcall_inv in E4 as [Hr4 ->]; simpl.
  2:{ eexists _, [_; _; _; _]. rewrite <- !app_assoc.
      repeat split; [by repeat constructor|done]. }
  apply xcall_inv in H as [Hr5 ->]. simpl.
  eexists _, [_; _; _; _; _]. rewrite <- !app_assoc.
  repeat split; [by repeat constructor|]. intros _. by exists fd.
Qed.

Lemma keyed_cons name conn conns :
  keyed ((name, conn) :: conns) =
  match dict_get "sshkey" (connection_config conn) with
  | Some key => if truthy_str key then (name, key) :: keyed conns
                else keyed conns
  | None => keyed conns
  end.
Proof.
  unfold keyed. simpl.
  destruct (dict_get "sshkey" (connection_config conn)) as [key|]; [|done].
  by destruct (truthy_str key).
Qed.

Lemma _makeSSHWrappers_run root conns x r x' :
  MergerInit._makeSSHWrappers root conns x = (r, x') ->
  exists w new,
    st x' = set_world w (st x) /\
    xcalls x' = xcalls x ++ new /\ all_write new /\
    (r = Ret tt ->
     exists fds, length fds = length (keyed conns) /\
       new = concat (zip_with (wrapper_calls root) (keyed conns) fds)).
Proof.
  unfold MergerInit._makeSSHWrappers. revert x.
  induction conns as [|[name conn] conns IH]; intros x H; simpl in H.
  - injection H as <- <-. exists (world (st x)), []. rewrite app_nil_r.
    split; [by destruct (st x)|]. split; [done|]. split; [constructor|].
    intros _. by exists [].
  - rewrite keyed_cons.
    apply xbind_inv in H as [([] & x1 & E1 & H)|(e & E1 & ->)].
    + apply IH in H as (w2 & new2 & Hst2 & Hx2 & Hw2 & Hret2).
      destruct (dict_get "sshkey" (connection_config conn)) as [key|];
        simpl in E1; [destruct (truthy_str key)|].
      * apply _makeSSHWrapper_run in E1 as (w1 & new1 & Hst1 & Hx1 & Hw1 & Hret1).
        exists w2, (new1 ++ new2). rewrite Hst2, Hst1, Hx2, Hx1, app_assoc.
        split; [done|]. split; [done|]. split; [by apply Forall_app|].
        intros Hr. destruct (Hret1 eq_refl) as [fd ->].
        destruct (Hret2 Hr) as (fds & Hlen & ->).
        exists (fd :: fds). simpl. by rewrite Hlen.
      * inversion E1; subst. eauto 10.
      * inversion E1; subst. eauto 10.
    + destruct (dict_get "sshkey" (connection_config conn)) as [key|];
        simpl in E1; [destruct (truthy_str key)|]; [|done..].
      apply _makeSSHWrapper_run in E1 as (w1 & new1 & Hst1 & Hx1 & Hw1 & _).
      exists w1, new1. done.
Qed.

End InitRuns.

Section InitProperties.
Context `{B : GitBackend} `{ZM : ZuulModel} `{XB : !MaintenanceBackend}.
#[local] Existing Instance MX_ret.
#[local] Existing Instance MX_bind.

(** X14.  [Merger.__init__] tests once whether the working root exists and
    calls [os.makedirs] only when the test says it does not, and only on
    the working root.  When it returns, the registry is empty, the working
    root, the email and the user name are the ones given, and after the
    directory (if it was made) one wrapper was written for each connection
    whose [sshkey] is set and not empty, in the order of the connections:
    the file [working_root/.ssh_wrapper_<name>] is opened, the two lines
    are written, the file is closed and its mode set to [0o755]. *)
Theorem Merger_init_sets_up (root : string)
  (connections : list (string * Connection)) (email username : string)
  (x : XSt) (r : outcome unit) (x' : XSt) :
  MergerInit.__init__ root connections email username x = (r, x') ->
  let there := (exec (OsPathExists root) (world (st x))).1 in
  calls (st x') = calls (st x) ++ [pack (OsPathExists root)] /\
  exists new,
    xcalls x' = xcalls x ++ new /\
    (forall p, xpack (OsMakedirs p) ∈ new -> p = root /\ there = inl false) /\
    (r = Ret tt ->
     repos (st x') = ∅ /\ working_root (st x') = root /\
     m_email (st x') = email /\ m_username (st x') = username /\
     exists b fds,
       there = inl b /\ length fds = length (keyed connections) /\
       new = (if b then [] else [xpack (OsMakedirs root)])
             ++ concat (zip_with (wrapper_calls root) (keyed connections) fds)).
Proof.
  intros H there. unfold MergerInit.__init__ in H.
  apply xbind_inv in H as [([] & x1 & E1 & H)|(e & E1 & _)];
    apply lift_inv in E1 as (s1 & E1 & ->); [|done].
  inversion E1; subst s1. clear E1.
  apply xbind_inv in H as [([] & x2 & E2 & H)|(e & E2 & _)];
    apply lift_inv in E2 as (s2 & E2 & ->); [|done].
  inversion E2; subst s2. clear E2. simpl in H.
  assert (Hnone : forall l : list AXCall, all_write l ->
            forall p, xpack (OsMakedirs p) ∈ l -> p = root /\ there = inl false).
  { intros l Hl p Hin. unfold all_write in Hl. rewrite Forall_forall in Hl.
    by apply Hl in Hin. }
  apply xbind_inv in H as [(b & x3 & E3 & H)|(e & E3 & ->)];
    apply lift_inv in E3 as (s3 & E3 & ->); simpl in E3;
    apply call_calls in E3 as Hc3; simpl in Hc3;
    apply call_same_env in E3 as Henv; destruct Henv as (_ & Hroot3 & _);
    apply (call_quiet _ [KOs]) in E3 as Hq3; try compute_done;
    destruct Hq3 as [_ Hrep3]; simpl in Hroot3, Hrep3.
  2:{ simpl. split; [done|]. exists []. rewrite app_nil_r. split; [done|].
      split; [|done]. intros p Hin. by apply elem_of_nil in Hin. }
  apply call_ret_inv in E3 as (w3 & E3 & Hw3). simpl in E3.
  assert (Hthere : there = inl b) by (unfold there; by rewrite E3).
  simpl in H.
  assert (Hrest : forall x4 pre,
            calls (st x4) = calls (st x) ++ [pack (OsPathExists root)] ->
            repos (st x4) = ∅ -> working_root (st x4) = root ->
            xcalls x4 = xcalls x ++ pre ->
            pre = (if b then [] else [xpack (OsMakedirs root)]) ->
            (_ ← MergerInit._makeSSHWrappers root connections;
             _ ← lift (modify (set_m_email email));
             lift (modify (set_m_username username))) x4 = (r, x') ->
            calls (st x') = calls (st x) ++ [pack (OsPathExists root)] /\
            exists new,
              xcalls x' = xcalls x ++ new /\
              (forall p, xpack (OsMakedirs p) ∈ new ->
                 p = root /\ there = inl false) /\
              (r = Ret tt ->
               repos (st x') = ∅ /\ working_root (st x') = root /\
               m_email (st x') = email /\ m_username (st x') = username /\
               exists b fds,
                 there = inl b /\ length fds = length (keyed connections) /\
                 new = (if b then [] else [xpack (OsMakedirs root)])
                       ++ concat (zip_with (wrapper_calls root)
                                    (keyed connections) fds))).
  { intros x4 pre Hc4 Hrep4 Hroot4 Hx4 Hpre Hrun.
    assert (Hpre_in : forall p, xpack (OsMakedirs p) ∈ pre ->
              p = root /\ there = inl false).
    { intros p Hin. rewrite Hpre in Hin. destruct b.
      - by apply elem_of_nil in Hin.
      - apply list_elem_of_singleton in Hin. split; [|done].
        by apply (f_equal (fun k => match projT2 k with
                                    | OsMakedirs q => q | _ => "" end)) in Hin. }
    apply xbind_inv in Hrun as [([] & x5 & E5 & Hrun)|(e & E5 & ->)];
      apply _makeSSHWrappers_run in E5 as (w5 & new5 & Hst5 & Hx5 & Hw5 & Hret5).
    2:{ rewrite Hst5. simpl. split; [done|]. exists (pre ++ new5).
        rewrite Hx5, Hx4, app_assoc. split; [done|]. split; [|done].
        intros p [Hin|Hin]%elem_of_app; [by apply Hpre_in|by apply Hnone in Hin]. }
    apply xbind_inv in Hrun as [([] & x6 & E6 & Hrun)|(e & E6 & _)];
      apply lift_inv in E6 as (s6 & E6 & ->); [|done].
    injection E6 as <-.
    apply lift_inv in Hrun as (s7 & E7 & ->). injection E7 as <- <-.
    simpl. rewrite Hst5. simpl. split; [done|]. exists (pre ++ new5).
    rewrite Hx5, Hx4, app_assoc. split; [done|]. split.
    { intros p [Hin|Hin]%elem_of_app; [by apply Hpre_in|by apply Hnone in Hin]. }
    intros _. repeat split; try done.
    destruct (Hret5 eq_refl) as (fds & Hlen & ->). exists b, fds.
    by rewrite Hpre. }
  destruct b; simpl in H.
  - rewrite xbind_run in H. simpl in H.
    eapply (Hrest _ []); [..|exact H]; simpl; try done;
      by rewrite ?app_nil_r.
  - apply xbind_inv in H as [([] & x4 & E4 & H)|(e & E4 & ->)];
      apply xcall_inv in E4 as [Hr4 ->].
    + eapply (Hrest _ [xpack (OsMakedirs root)]); [..|exact H]; simpl; done.
    + simpl. split; [done|]. exists [xpack (OsMakedirs root)].
      split; [done|]. split; [|done].
      intros p Hin%list_elem_of_singleton. split; [|done].
      by apply (f_equal (fun k => match projT2 k with
                                  | OsMakedirs q => q | _ => "" end)) in Hin.
Qed.

End InitProperties.

Section WrapperFiles.
Context `{B : GitBackend} `{ZM : ZuulModel} `{XB : !MaintenanceBackend}
  `{WL : !WrapperLaws}.
#[local] Existing Instance MX_ret.
#[local] Existing Instance MX_bind.

Lemma xcall_file_kept {T} (c : XCall T) x r x' p :
  xcall c x = (r, x') -> writes_files c = true ->
  is_file (world (st x)) p = true -> is_file (world (st x')) p = true.
Proof. intros [_ ->]%xcall_inv Hc Hp. simpl. by apply file_kept. Qed.

Lemma _makeSSHWrapper_files key root name x r x' :
  MergerInit._makeSSHWrapper key root name x = (r, x') ->
  (forall p, is_file (world (st x)) p = true ->
             is_file (world (st x')) p = true) /\
  (r = Ret tt -> is_file (world (st x')) (wrapper_path root name) = true).
Proof.
  unfold MergerInit._makeSSHWrapper. fold (wrapper_path root name). intros H.
  apply xbind_inv in H as [(fd & x1 & E1 & H)|(e & E1 & ->)].
  2:{ split; [|done]. intros p. by eapply xcall_file_kept. }
  assert (Hnew : is_file (world (st x1)) (wrapper_path root name) = true).
  { apply xcall_inv in E1 as [Hr ->]. simpl.
    destruct (xexec _ (world (st x))) as [[fd'|e] w] eqn:Ex; [|done].
    by apply open_makes_file in Ex. }
  assert (Hkeep1 : forall p, is_file (world (st x)) p = true ->
                             is_file (world (st x1)) p = true).
  { intros p. by eapply xcall_file_kept. }
  clear E1.
  assert (Hstep : forall (c : XCall unit) (k : MX unit) xa r xb,
            writes_files c = true ->
            (forall xc r' xd, k xc = (r', xd) ->
               forall p, is_file (world (st xc)) p = true ->
                         is_file (world (st xd)) p = true) ->
            (xcall c;; k) xa = (r, xb) ->
            forall p, is_file (world (st xa)) p = true ->
                      is_file (world (st xb)) p = true).
  { intros c k xa r0 xb Hc Hk Hrun p Hp.
    apply xbind_inv in Hrun as [([] & xc & Ec & Hrun)|(e & Ec & ->)].
    - eapply Hk; [exact Hrun|]. by eapply xcall_file_kept.
    - by eapply xcall_file_kept. }
  assert (Hall : forall p, is_file (world (st x1)) p = true ->
                           is_file (world (st x')) p = true).
  { eapply Hstep; [| |exact H]; [done|].
    intros xc r' xd Hc. eapply Hstep; [| |exact Hc]; [done|].
    intros xe r'' xf He. eapply Hstep; [| |exact He]; [done|].
    intros xg r3 xh Hlast p. by eapply xcall_file_kept. }
  split; [intros p Hp; by apply Hall, Hkeep1|]. intros _. by apply Hall.
Qed.

Lemma _makeSSHWrappers_files root conns x r x' :
  MergerInit._makeSSHWrappers root conns x = (r, x') ->
  (forall p, is_file (world (st x)) p = true ->
             is_file (world (st x')) p = true) /\
  (r = Ret tt ->
   forall name key, (name, key) ∈ keyed conns ->
     is_file (world (st x')) (wrapper_path root name) = true).
Proof.
  unfold MergerInit._makeSSHWrappers. revert x.
  induction conns as [|[name conn] conns IH]; intros x H; simpl in H.
  - injection H as <- <-. split; [done|]. intros _ name key Hin.
    by apply elem_of_nil in Hin.
  - rewrite keyed_cons.
    apply xbind_inv in H as [([] & x1 & E1 & H)|(e & E1 & ->)].
    + apply IH in H as [Hkeep2 Hnew2].
      destruct (dict_get "sshkey" (connection_config conn)) as [key|];
        simpl in E1; [destruct (truthy_str key)|].
      * apply _makeSSHWrapper_files in E1 as [Hkeep1 Hnew1].
        split; [intros p Hp; by apply Hkeep2, Hkeep1|].
        intros Hr name' key' [[= -> ->]|Hin]%elem_of_cons.
        -- by apply Hkeep2, Hnew1.
        -- by eapply Hnew2.
      * by injection E1 as <-.
      * by injection E1 as <-.
    + destruct (dict_get "sshkey" (connection_config conn)) as [key|];
        simpl in E1; [destruct (truthy_str key)|]; [|done..].
      apply _makeSSHWrapper_files in E1 as [Hkeep1 _]. done.
Qed.

(** A construction that returns: the loop over the connections returned,
    and the two assignments followed. *)
Lemma __init___returned root connections email username x x' :
  MergerInit.__init__ root connections email username x = (Ret tt, x') ->
  exists x4 x5,
    MergerInit._makeSSHWrappers root connections x4 = (Ret tt, x5) /\
    working_root (st x5) = root /\
    st x' = set_m_username username (set_m_email email (st x5)).
Proof.
  intros H. unfold MergerInit.__init__ in H.
  apply xbind_inv in H as [([] & x1 & E1 & H)|(e & _ & ?)]; [|done].
  apply lift_inv in E1 as (s1 & E1 & ->). injection E1 as <-.
  apply xbind_inv in H as [([] & x2 & E2 & H)|(e & _ & ?)]; [|done].
  apply lift_inv in E2 as (s2 & E2 & ->). injection E2 as <-.
  apply xbind_inv in H as [(b & x3 & E3 & H)|(e & _ & ?)]; [|done].
  apply lift_inv in E3 as (s3 & E3 & ->).
  apply call_same_env in E3 as (_ & Hroot3 & _). simpl in Hroot3.
  apply xbind_inv in H as [([] & x4 & E4 & H)|(e & _ & ?)]; [|done].
  assert (Hroot4 : working_root (st x4) = root).
  { destruct b; simpl in E4.
    - by injection E4 as <-.
    - by apply xcall_inv in E4 as [_ ->]. }
  apply xbind_inv in H as [([] & x5 & E5 & H)|(e & _ & ?)]; [|done].
  exists x4, x5. split; [done|].
  apply _makeSSHWrappers_run in E5 as Hrun.
  destruct Hrun as (w5 & _ & Hst5 & _). split; [by rewrite Hst5|].
  apply xbind_inv in H as [([] & x6 & E6 & H)|(e & _ & ?)]; [|done].
  apply lift_inv in E6 as (s6 & E6 & ->). injection E6 as <-.
  apply lift_inv in H as (s7 & E7 & ->). by injection E7 as <-.
Qed.

(** X15.  The wrapper [Merger.__init__] writes for a connection is the
    file [_setGitSsh] looks for: after a construction that returned, for
    every connection with a key, [_setGitSsh] sets [GIT_SSH] to the
    wrapper of that connection (unless the test of the file itself
    raises). *)
Theorem wrappers_are_picked_up (root : string)
  (connections : list (string * Connection)) (email username : string)
  (x x' : XSt) (name key : string) (r : outcome unit) (s' : St) :
  MergerInit.__init__ root connections email username x = (Ret tt, x') ->
  (name, key) ∈ keyed connections ->
  Merger._setGitSsh name (st x') = (r, s') ->
  (r = Ret tt /\ GIT_SSH s' = Some (wrapper_path root name)) \/
  exists e, r = Raise (Lib e).
Proof.
  intros Hinit Hin Hset.
  apply __init___returned in Hinit as (x4 & x5 & Hloop & Hroot & Hst).
  apply _makeSSHWrappers_files in Hloop as [_ Hfiles].
  specialize (Hfiles eq_refl name key Hin).
  apply _setGitSsh_run in Hset as (_ & _ & Hm).
  rewrite Hst in Hm. simpl in Hm. rewrite Hroot in Hm.
  fold (wrapper_path root name) in Hm.
  destruct (exec (OsPathIsfile (wrapper_path root name)) (world (st x5)))
    as [[b|e] w] eqn:Ex; simpl in Hm.
  - apply isfile_reads in Ex. rewrite Hfiles in Ex. subst b. by left.
  - right. exists e. by destruct Hm.
Qed.

End WrapperFiles.

(** ** The in-memory file system keeps the laws of files *)

Section FakeFiles.
#[local] Existing Instance FakeX.backend.
#[local] Existing Instance FakeX.maintenance.

Lemma dict_set_key_in {K V} `{EqDecision K} (k k' : K) (v : V) d :
  k' = k \/ k' ∈ d.*1 -> k' ∈ (dict_set k v d).*1.
Proof.
  induction d as [|[k0 v0] d IH]; csimpl.
  - intros [->|H]; [apply list_elem_of_here|by apply elem_of_nil in H].
  - destruct (decide (k0 = k)) as [->|Hne]; csimpl.
    + intros [->|H]; [apply list_elem_of_here|done].
    + intros [->|H]; [apply list_elem_of_further, IH; by left|].
      apply elem_of_cons in H as [->|H]; [apply list_elem_of_here|].
      apply list_elem_of_further, IH. by right.
Qed.

Lemma fakex_isfile_reads p w b w' :
  exec (OsPathIsfile p) w = (inl b, w') -> b = FakeX.is_file w p.
Proof.
  simpl. unfold FakeX.exec_base, Fake.fake_exec, FakeX.is_file.
  destruct (Fake.take_fault _ _) as [[e rest]|]; simpl; [done|].
  by intros [= <- _].
Qed.

Lemma fakex_open_makes_file name w fd w' :
  xexec (OpenW name) w = (inl fd, w') -> FakeX.is_file w' name = true.
Proof.
  simpl. intros [= _ <-]. unfold FakeX.is_file. simpl.
  apply orb_true_iff. right. apply bool_decide_eq_true.
  apply dict_set_key_in. by left.
Qed.

Lemma fakex_file_kept T (c : XCall T) w p :
  writes_files c = true -> FakeX.is_file w p = true ->
  FakeX.is_file (xexec c w).2 p = true.
Proof.
  unfold FakeX.is_file. intros Hc Hp. apply orb_true_iff in Hp.
  apply orb_true_iff.
  destruct c; try done; simpl; repeat case_match; simpl; try done;
    (destruct Hp as [Hp|Hp]; [by left|right]);
    apply bool_decide_eq_true in Hp; apply bool_decide_eq_true;
    apply dict_set_key_in; by right.
Qed.

Definition fakex_wrapper_laws : @WrapperLaws FakeX.backend FakeX.maintenance :=
  @Build_WrapperLaws FakeX.backend FakeX.maintenance FakeX.is_file
    fakex_isfile_reads fakex_open_makes_file fakex_file_kept.

End FakeFiles.

(** ** The further properties on the sample worlds *)

Section Samples2.
#[local] Existing Instance Fake.fake_backend.
#[local] Existing Instance Fake.zuul_model.
Import Scenario Scenario2.

(** A first set-up of [p1]: the clone is made and the flag set. *)
Lemma _ensure_cloned_behaviour_witness :
  oid repo1 ∈ initialized (Repo._ensure_cloned repo1 s0).2 /\
  exists n,
    calls (Repo._ensure_cloned repo1 s0).2
    = calls s0 ++ pack (OsPathExists "/w/p1/.git") :: n.
Proof.
  destruct (Repo._ensure_cloned repo1 s0) as [r s'] eqn:E.
  assert (r = Ret tt) as ->
    by (apply (f_equal fst) in E; vm_compute in E; congruence).
  destruct (_ensure_cloned_behaviour repo1 s0 (Ret tt) s' E)
    as (n & Hn & _ & _ & _ & Hflag).
  split; [exact Hflag|]. exists n. exact Hn.
Defined.

(** The server cannot be reached: the clone fails with [GitCommandError],
    and the caller of [getBranchHead] sees [UnboundLocalError]. *)
Lemma createRepoObject_masks_witness :
  (Repo.createRepoObject repo1 s_unreachable).1 = Raise UnboundLocalError /\
  Repo.getBranchHead repo1 "master" s_unreachable
  = (Raise UnboundLocalError, (Repo.createRepoObject repo1 s_unreachable).2).
Proof.
  destruct (Repo.createRepoObject repo1 s_unreachable) as [r s'] eqn:E.
  assert (exists e, r = Raise e) as [e ->].
  { apply (f_equal fst) in E. vm_compute in E. eexists. symmetry. exact E. }
  destruct (createRepoObject_masks repo1 s_unreachable e s' E)
    as (-> & _ & _ & _ & _ & Hb & _).
  split; [reflexivity|]. apply Hb.
Defined.

(** [p1] is registered with its url, and then found without. *)
Lemma getRepo_registry_witness :
  let s' := (Merger.getRepo "p1" (Some "git://p1") s0).2 in
  Merger.getRepo "p1" None s' = (Ret (Some repo1), s').
Proof.
  destruct getRepo_registry as (H1 & _ & _).
  destruct (Merger.getRepo "p1" (Some "git://p1") s0) as [r s'] eqn:E.
  assert (r = Ret (Some repo1)) as ->
    by (apply (f_equal fst) in E; vm_compute in E; by rewrite <- E).
  destruct (H1 _ _ _ _ _ E) as (repo & Heq & _ & H).
  injection Heq as <-. apply H.
Defined.

(** The wrapper of [gerrit] is on disk and replaces the stale value;
    without a wrapper the variable is unset. *)
Lemma _setGitSsh_follows_connection_witness :
  GIT_SSH (Merger._mergeItem item1 s_wrapped).2
  = Some "/w/.ssh_wrapper_gerrit" /\
  GIT_SSH (Merger._mergeItem item1
             (set_GIT_SSH (Some "/w/.ssh_wrapper_old") s0)).2 = None.
Proof.
  destruct _setGitSsh_follows_connection as [_ H2]. split.
  - destruct (Merger._mergeItem item1 s_wrapped) as [r s'] eqn:E.
    apply (H2 item1 s_wrapped r s' true E). vm_compute. reflexivity.
  - destruct (Merger._mergeItem item1 _) as [r s'] eqn:E.
    apply (H2 item1 _ r s' false E). vm_compute. reflexivity.
Defined.

(** With git 2.30 one fetch is made. *)
Lemma update_fetch_policy_witness :
  exists s1 v,
    (Repo.createRepoObject repo1;; call (RemotesOrigin "/w/p1")) s_p1
      = (Ret tt, s1) /\
    (exec (GitVersionInfo "/w/p1") (world s1)).1 = inl v /\
    calls (Repo.update repo1 s_p1).2 =
      calls s1 ++ pack (GitVersionInfo "/w/p1")
        :: (if before_1_9 v
            then [pack (OriginFetch "/w/p1" None false false)] else [])
        ++ [pack (OriginFetch "/w/p1" None true true)].
Proof.
  destruct update_fetch_policy as [H1 _].
  destruct (Repo.update repo1 s_p1) as [r s'] eqn:E.
  assert (r = Ret tt) as ->
    by (apply (f_equal fst) in E; vm_compute in E; congruence).
  exact (H1 repo1 s_p1 tt s' E).
Defined.

(** Change 1 is merged with a plain merge. *)
Lemma _mergeChange_dispatch_witness :
  merge_mode item1 = MERGER_MERGE \/ merge_mode item1 = MERGER_MERGE_RESOLVE
  \/ merge_mode item1 = MERGER_CHERRY_PICK.
Proof.
  destruct (Merger._mergeChange item1 c0 s_p1) as [r s'] eqn:E.
  assert (r = Ret (Some (mkCommit "c0+a"))) as ->
    by (apply (f_equal fst) in E; vm_compute in E; by rewrite <- E).
  refine (proj1 (_mergeChange_dispatch item1 c0 s_p1 repo1 _ s' _ E)).
  vm_compute. reflexivity.
Defined.

Lemma _mergeChange_never_raises_witness :
  exists o s', Merger._mergeChange item2 c0 s_conflict = (Ret o, s').
Proof.
  destruct (_mergeChange_never_raises item2 c0 s_conflict)
    as (o & s' & H & _); [right; reflexivity|].
  exists o, s'. exact H.
Defined.

(** The second change is on a branch the remote does not have: reading
    the branch head raises [IndexError], and so does [mergeChanges]. *)
Lemma _mergeItem_raises_early_witness :
  (Merger.mergeChanges [item1; item_no_branch; item3] s0).1
  = Raise (Lib IndexError).
Proof.
  destruct _mergeItem_raises_early as [_ H2].
  destruct (Merger._mergeItem item_no_branch
              (Merger._mergeItem item1 (set_recent [] s0)).2) as [r s2] eqn:E.
  assert (r = Raise (Lib IndexError)) as ->
    by (apply (f_equal fst) in E; vm_compute in E; congruence).
  change [item1; item_no_branch; item3]
    with ([item1] ++ item_no_branch :: [item3]).
  rewrite (H2 [item1] item_no_branch [item3] s0 (Some (mkCommit "c0+a"))
             _ _ s2 ltac:(vm_compute; reflexivity) E).
  reflexivity.
Defined.

(** The merge of change 1 is still the commit of [p1/master] after change
    3, on [p2], has been merged. *)
Lemma recent_holds_latest_witness :
  dict_get ("p1", "master") (recent s_two) = Some (mkCommit "c0+a").
Proof.
  destruct recent_holds_latest as (_ & H2 & _).
  apply (H2 item1 (set_recent [] s0) (mkCommit "c0+a")
            (Merger._mergeItem item1 (set_recent [] s0)).2 [item3]
            (Some (mkCommit "d0+e")) s_two).
  - vm_compute. reflexivity.
  - vm_compute. reflexivity.
  - intros j Hj%list_elem_of_singleton. subst j. discriminate.
Defined.

End Samples2.

Section SamplesX.
#[local] Existing Instance FakeX.backend.
#[local] Existing Instance FakeX.maintenance.
#[local] Existing Instance Fake.zuul_model.
Import ScenarioX.

(** The branch [gone] of [p1] is stale: it is deleted. *)
Lemma prune_deletes_what_is_stale_witness :
  footprint [KOs; KSetup; KRead] (st x_p1)
    (st (RepoMaintenance.prune Scenario.repo1 x_p1).2) /\
  xcalls (RepoMaintenance.prune Scenario.repo1 x_p1).2 =
    [xpack (OsMakedirs "/w");
     xpack (OpenW "/w/.ssh_wrapper_gerrit");
     xpack (FileWrite 0 ("#!/bin/bash" +:+ LF));
     xpack (FileWrite 0 ("ssh -i /keys/gerrit $@" +:+ LF));
     xpack (FileClose 0);
     xpack (OsChmod "/w/.ssh_wrapper_gerrit" 493);
     xpack (OpenW "/w/.ssh_wrapper_build");
     xpack (FileWrite 1 ("#!/bin/bash" +:+ LF));
     xpack (FileWrite 1 ("ssh -i /keys/build $@" +:+ LF));
     xpack (FileClose 1);
     xpack (OsChmod "/w/.ssh_wrapper_build" 493);
     xpack (OriginStaleRefs "/w/p1");
     xpack (RemoteReferenceDelete "/w/p1" ["gone"])].
Proof.
  split; [|vm_compute; reflexivity].
  destruct (RepoMaintenance.prune Scenario.repo1 x_p1) as [r x'] eqn:E.
  pose proof (prune_deletes_what_is_stale Scenario.repo1 x_p1 r x' E) as H.
  destruct H as [H _]. exact H.
Defined.


(** The working root is made; [gerrit] and [build] have keys and get a
    wrapper each. *)
Lemma Merger_init_sets_up_witness :
  repos (st x_made) = ∅ /\ working_root (st x_made) = "/w" /\
  m_email (st x_made) = "zuul@example.org" /\ m_username (st x_made) = "zuul".
Proof.
  destruct (MergerInit.__init__ "/w" connections0 "zuul@example.org" "zuul" x0)
    as [r x'] eqn:E.
  assert (r = Ret tt) as ->
    by (apply (f_equal fst) in E; vm_compute in E; congruence).
  assert (x' = x_made) as -> by (unfold x_made; by rewrite E).
  destruct (Merger_init_sets_up _ _ _ _ _ _ _ E) as (_ & new & _ & _ & H).
  destruct (H eq_refl) as (H1 & H2 & H3 & H4 & _).
  exact (conj H1 (conj H2 (conj H3 H4))).
Defined.

Lemma wrappers_are_picked_up_witness :
  GIT_SSH (Merger._setGitSsh "build" (st x_made)).2
  = Some "/w/.ssh_wrapper_build".
Proof.
  destruct (Merger._setGitSsh "build" (st x_made)) as [r s'] eqn:E.
  assert (r = Ret tt) as ->
    by (apply (f_equal fst) in E; vm_compute in E; congruence).
  destruct (wrappers_are_picked_up (WL := fakex_wrapper_laws) "/w" connections0
              "zuul@example.org" "zuul" x0 x_made "build" "/keys/build"
              (Ret tt) s') as [[_ H]|[e He]].
  - vm_compute. reflexivity.
  - vm_compute. apply list_elem_of_further. apply list_elem_of_here.
  - exact E.
  - exact H.
  - discriminate He.
Defined.

End SamplesX.
